(** * noetherpy: group elements and statistical invariants

    A shallow embedding of [group_theory/base/group_elements.py] and of
    [statistical_group_theory/invariants.py], and the properties of the
    element model that the specification states about them.

    Python values are modelled as follows.
    - [int] is [Z]; [range(1, n+1)] is [seqZ 1 n].
    - a [dict] with integer keys and values is an insertion-ordered
      association list with pairwise distinct keys ([PyDict]); [==] on
      dicts ignores the order, [keys()] and comprehension respect it.
    - a [set] of integers is a [gset Z]. Iterating the key set [{1..n}] of
      a permutation visits the keys in increasing order (an integer hashes
      to itself and the table is larger than [n]); the order in which any
      other set is iterated is a parameter [set_order] of the functions
      that iterate one, and the properties hold for every such order.
    - a [float] is an IEEE 754 binary64 number, [m * 2^e]; a true division
      of integers, a conversion of an integer, a product and a quotient of
      floats are each rounded to the nearest such number, ties to even,
      and raise [OverflowError] where Python does.
    - a call either returns, raises, or (for [while] loops, which are run
      with a fuel bound) does not finish within the bound: [Result]. *)

From Stdlib Require Import ZArith Znumtheory QArith.
From Stdlib Require Import Zmod.Zmod Zmod.Zstar.
From stdpp Require Import base tactics option list sorting numbers gmap pretty strings.

Open Scope Z_scope.

(** ** Exceptions and results *)

Inductive exn : Set :=
| KeyError
| TypeError
| ValueError
| AssertionError
| ZeroDivisionError
| OverflowError
| ShapeError.

Inductive Result (A : Type) : Type :=
| Ok (a : A)
| Raise (e : exn)
| OutOfFuel.

Arguments Ok {A} a.
Arguments Raise {A} e.
Arguments OutOfFuel {A}.

#[global] Instance Result_ret : MRet Result := λ A a, Ok a.
#[global] Instance Result_bind : MBind Result := λ A B f m,
  match m with
  | Ok a => f a
  | Raise e => Raise e
  | OutOfFuel => OutOfFuel
  end.

Definition raises {A} (r : Result A) : Prop := ∃ e, r = Raise e.

(** [for x in xs: st = body st x] *)
Fixpoint for_each {S A} (body : S → A → Result S) (xs : list A) (st : S) : Result S :=
  match xs with
  | [] => Ok st
  | x :: xs' => st' ← body st x; for_each body xs' st'
  end.

(** [while cond(st): st = body(st)], at most [fuel] iterations of the body. *)
Fixpoint while_loop {S} (fuel : nat) (cond : S → Result bool) (body : S → Result S)
    (st : S) : Result S :=
  c ← cond st;
  if c : bool then
    match fuel with
    | O => OutOfFuel
    | S fuel' => st' ← body st; while_loop fuel' cond body st'
    end
  else Ok st.

(** [functools.reduce(f, xs)] without initial value. *)
Definition reduce {A} (f : A → A → Result A) (xs : list A) : Result A :=
  match xs with
  | [] => Raise TypeError
  | x :: xs' => for_each f xs' x
  end.

(** ** Dictionaries *)

Abbreviation dict := (list (Z * Z)).

Module PyDict.

Fixpoint get (d : dict) (k : Z) : option Z :=
  match d with
  | [] => None
  | (k', v) :: d' => if decide (k' = k) then Some v else get d' k
  end.

(** [d[k]] *)
Definition getitem (d : dict) (k : Z) : Result Z :=
  match get d k with
  | Some v => Ok v
  | None => Raise KeyError
  end.

(** [d[k] = v]: an existing key keeps its position, a new key goes last. *)
Fixpoint setitem (d : dict) (k v : Z) : dict :=
  match d with
  | [] => [(k, v)]
  | (k', v') :: d' =>
      if decide (k' = k) then (k', v) :: d' else (k', v') :: setitem d' k v
  end.

Definition keys (d : dict) : list Z := d.*1.
Definition values (d : dict) : list Z := d.*2.
Definition items (d : dict) : list (Z * Z) := d.
Definition len (d : dict) : Z := Z.of_nat (length d).

(** [dict(pairs)] *)
Definition of_items (l : list (Z * Z)) : dict :=
  foldl (λ d kv, setitem d kv.1 kv.2) [] l.

(** [{key(i): value(i) for i in xs}]; the key is evaluated first. *)
Definition comprehensionM (key value : Z → Result Z) (xs : list Z) : Result dict :=
  for_each (λ d i, k ← key i; v ← value i; mret (setitem d k v)) xs [].

(** The same when neither expression can raise. *)
Definition comprehension (key value : Z → Z) (xs : list Z) : dict :=
  foldl (λ d i, setitem d (key i) (value i)) [] xs.

(** [d1 == d2] *)
Definition eqb (d1 d2 : dict) : bool :=
  bool_decide (length d1 = length d2)
  && forallb (λ kv, bool_decide (get d2 kv.1 = Some kv.2)) d1.

(** A Python dict never holds a key twice. *)
Definition wf (d : dict) : Prop := NoDup (keys d).

End PyDict.

(** ** Sets of integers *)

Module PySet.

Definition of_list (l : list Z) : gset Z := list_to_set l.
Definition len (s : gset Z) : Z := Z.of_nat (size s).
Definition mem (k : Z) (s : gset Z) : bool := bool_decide (k ∈ s).

(** [for k in s] for the key set [{1..n}] of a permutation: in increasing
    order, which is the order of CPython for such a set. The order in which
    any other set is iterated depends on the table of the set; the code that
    iterates one takes it as the parameter [set_order]. *)
Definition iter (s : gset Z) : list Z := merge_sort Z.le (elements s).

End PySet.

(** [sorted(d.items())]: pairs compare lexicographically. *)
Definition item_le (a b : Z * Z) : Prop :=
  a.1 < b.1 ∨ (a.1 = b.1 ∧ a.2 ≤ b.2).

#[global] Instance item_le_dec a b : Decision (item_le a b).
Proof. unfold item_le. apply _. Defined.

Definition sorted_items (d : dict) : list (Z * Z) := merge_sort item_le (PyDict.items d).

(** [sep.join(xs)] *)
Fixpoint join (sep : string) (xs : list string) : string :=
  match xs with
  | [] => ""
  | [x] => x
  | x :: xs' => x +:+ sep +:+ join sep xs'
  end.

(** [str(i)] *)
Definition str (i : Z) : string := pretty i.

(** A bound method [self.m] that takes one argument besides [self], called
    with the positional arguments [args]: any other number of arguments is
    a [TypeError]. *)
Definition call_bound {A B R} (m : A → B → Result R) (self : A) (args : list B) : Result R :=
  match args with
  | [x] => m self x
  | _ => Raise TypeError
  end.

(** [~b] on a [bool], which Python treats as the integer 0 or 1. *)
Definition invert_bool (b : bool) : Z := if b then -2 else -1.

(** ** class Permutation *)

Module Permutation.

#[warnings="-register-all"]
Inductive t : Type := mk {
  permutation : dict;
  num_letters : Z;
  _cycle_decomposition : option (list t);
  _order : option Z;
  _sign : option Z
}.

Definition __init__ (permutation : dict) : Result t :=
  Ok {| permutation := permutation;
        num_letters := PyDict.len permutation;
        _cycle_decomposition := None;
        _order := None;
        _sign := None |}.

Definition __eq__ (self other : t) : bool :=
  PyDict.eqb (permutation self) (permutation other).

Definition __ne__ (self other : t) : Result Z :=
  b ← call_bound (λ s o, Ok (__eq__ s o)) self [self; other];
  mret (invert_bool b).

Definition __mul__ (self other : t) : Result t :=
  composition ← PyDict.comprehensionM
    (λ i, Ok i)
    (λ i, j ← PyDict.getitem (permutation other) i; PyDict.getitem (permutation self) j)
    (seqZ 1 (num_letters self));
  __init__ composition.

Definition __invert__ (self : t) : Result t :=
  inverse ← PyDict.comprehensionM
    (λ k, PyDict.getitem (permutation self) k)
    (λ k, Ok k)
    (PyDict.keys (permutation self));
  __init__ inverse.

Definition __pow__ (self : t) (N : Z) : Result t :=
  if decide (N = 0) then
    __init__ (PyDict.comprehension (λ i, i) (λ i, i) (seqZ 1 (num_letters self)))
  else if decide (N > 0) then
    reduce __mul__ (replicate (Z.to_nat N) self)
  else
    inv ← __invert__ self;
    reduce __mul__ (replicate (Z.to_nat (Z.abs N)) inv).

Definition is_identity (self : t) : bool :=
  PyDict.eqb (permutation self)
    (PyDict.comprehension (λ i, i) (λ i, i) (seqZ 1 (num_letters self))).

(** The loop of [find_cycle_dict]; its state is [(current_key, cycle)]. *)
Definition find_cycle_cond (self : t) (start : Z) (st : Z * dict) : Result bool :=
  let '(current_key, cycle) := st in
  v ← PyDict.getitem (permutation self) current_key;
  mret (bool_decide (v ≠ start)).

Definition find_cycle_body (self : t) (st : Z * dict) : Result (Z * dict) :=
  let '(current_key, cycle) := st in
  v ← PyDict.getitem (permutation self) current_key;
  let cycle := PyDict.setitem cycle current_key v in
  current_key ← PyDict.getitem (permutation self) current_key;
  mret (current_key, cycle).

(** The assignment after the loop. *)
Definition find_cycle_close (self : t) (st : Z * dict) : Result dict :=
  let '(current_key, cycle) := st in
  v ← PyDict.getitem (permutation self) current_key;
  mret (PyDict.setitem cycle current_key v).

Definition find_cycle_dict (fuel : nat) (self : t) (start : Z) : Result dict :=
  st ← while_loop fuel (find_cycle_cond self start) (find_cycle_body self) (start, []);
  find_cycle_close self st.

(** The body of [for k in key_set] in [get_cycle_notation]; the state is
    [(updated_key_set, cycle_list)]. *)
Definition notation_visit (fuel : nat) (self : t) (st : gset Z * list string) (k : Z)
    : Result (gset Z * list string) :=
  let '(updated_key_set, cycle_list) := st in
  if PySet.mem k updated_key_set then
    cycle ← find_cycle_dict fuel self k;
    let cycle_list :=
      if 1 <? PyDict.len cycle
      then cycle_list ++ ["(" +:+ join " " (str <$> PyDict.keys cycle) +:+ ")"]
      else cycle_list in
    mret (updated_key_set ∖ PySet.of_list (PyDict.keys cycle), cycle_list)
  else Ok (updated_key_set, cycle_list).

Definition get_cycle_notation (fuel : nat) (self : t) : Result string :=
  if is_identity self then Ok "1" else
  let key_set := PySet.of_list (PyDict.keys (permutation self)) in
  '(updated_key_set, cycle_list) ← while_loop fuel
    (λ st, Ok (0 <? PySet.len st.1))
    (for_each (notation_visit fuel self) (PySet.iter key_set))
    (key_set, []);
  mret (join "" (reverse cycle_list)).

(** The body of [for k in key_set] in [get_cycle_decomposition]. The fixed
    points are added to the cycle in the order [set_order] in which the set
    of the points outside the cycle is iterated. *)
Definition decomposition_visit (set_order : gset Z → list Z) (fuel : nat) (self : t)
    (st : gset Z * list t) (k : Z) : Result (gset Z * list t) :=
  let '(updated_key_set, cycle_list) := st in
  if PySet.mem k updated_key_set then
    cycle ← find_cycle_dict fuel self k;
    let updated_key_set := updated_key_set ∖ PySet.of_list (PyDict.keys cycle) in
    if 1 <? PyDict.len cycle then
      let cycle :=
        foldl (λ c i, PyDict.setitem c i i) cycle
          (set_order (PySet.of_list (PyDict.keys (permutation self))
                      ∖ PySet.of_list (PyDict.keys cycle))) in
      c ← __init__ cycle;
      mret (updated_key_set, cycle_list ++ [c])
    else Ok (updated_key_set, cycle_list)
  else Ok (updated_key_set, cycle_list).

Definition get_cycle_decomposition (set_order : gset Z → list Z) (fuel : nat) (self : t)
    : Result (list t) :=
  let key_set := PySet.of_list (PyDict.keys (permutation self)) in
  '(updated_key_set, cycle_list) ← while_loop fuel
    (λ st, Ok (0 <? PySet.len st.1))
    (for_each (decomposition_visit set_order fuel self) (PySet.iter key_set))
    (key_set, []);
  mret cycle_list.

(** The loop state of [get_order] is [(product, count)]. *)
Definition get_order (fuel : nat) (self : t) : Result Z :=
  '(product, count) ← while_loop fuel
    (λ st, Ok (negb (is_identity st.1)))
    (λ st, product ← __mul__ st.1 self; mret (product, st.2 + 1))
    (self, 1);
  mret count.

(** The property [order]: the value and the object with its cache filled. *)
Definition order (fuel : nat) (self : t) : Result (Z * t) :=
  match _order self with
  | None =>
      o ← get_order fuel self;
      mret (o, {| permutation := permutation self;
                  num_letters := num_letters self;
                  _cycle_decomposition := _cycle_decomposition self;
                  _order := Some o;
                  _sign := _sign self |})
  | Some o => Ok (o, self)
  end.

Definition validate_permutation (permutation : dict) : Result dict :=
  let permutation := PyDict.of_items (sorted_items permutation) in
  let expected := (λ i, i + 1) <$> seqZ 0 (PyDict.len permutation) in
  if bool_decide (PyDict.keys permutation = expected) then
    if bool_decide (PySet.of_list (PyDict.values permutation) = PySet.of_list expected)
    then Ok permutation
    else Raise AssertionError
  else Raise AssertionError.

Definition is_transposition (self : t) : bool :=
  bool_decide (length (filter (λ i, PyDict.get (permutation self) i ≠ Some i)
                         (PyDict.keys (permutation self))) = 2%nat).

(** [hash(frozenset(self.permutation.items()))]; [py_hash] is the hash
    function of Python on frozensets of pairs. *)
Definition __hash__ (py_hash : gset (Z * Z) → Z) (self : t) : Z :=
  py_hash (list_to_set (PyDict.items (permutation self))).

(** The property [cycle_decomposition]: the value and the object with its
    cache filled. A cached list, also the empty one, is never [None]. *)
Definition cycle_decomposition (set_order : gset Z → list Z) (fuel : nat) (self : t)
    : Result (list t * t) :=
  match _cycle_decomposition self with
  | None =>
      cs ← get_cycle_decomposition set_order fuel self;
      mret (cs, {| permutation := permutation self;
                   num_letters := num_letters self;
                   _cycle_decomposition := Some cs;
                   _order := _order self;
                   _sign := _sign self |})
  | Some cs => Ok (cs, self)
  end.

Definition is_cycle (set_order : gset Z → list Z) (fuel : nat) (self : t)
    : Result (bool * t) :=
  '(cs, self) ← cycle_decomposition set_order fuel self;
  mret (if decide (length cs = 1%nat) then true else false, self).

End Permutation.

(** ** Number-theory primitives of the Python libraries *)

(** [math.gcd(a, b)] *)
Definition math_gcd (a b : Z) : Z := Z.gcd a b.

(** [sympy.totient(n)]: the number of [k] in [1..n] coprime to [n];
    a [ValueError] unless [n] is a positive integer. *)
Definition totient_count (n : Z) : Z :=
  Z.of_nat (length (filter (λ k, Z.gcd k n = 1) (seqZ 1 n))).

Definition sympy_totient (n : Z) : Result Z :=
  if decide (n < 1) then Raise ValueError else Ok (totient_count n).

(** [a % b] *)
Definition py_mod (a b : Z) : Result Z :=
  if decide (b = 0) then Raise ZeroDivisionError else Ok (a mod b).

(** ** Floats

    A float is a binary64 number: [Finite m e] stands for [m * 2^e], and
    the arithmetic rounds to the nearest such number, to the even one of two
    that are equally near. The sign of a zero is not kept. *)

Inductive float : Set :=
| Finite (m e : Z)
| Infinity (negative : bool)
| NaN.

(** The largest [k] with [2^k ≤ a / b], for positive [a] and [b]. *)
Definition floor_log2_ratio (a b : Z) : Z :=
  if decide (b ≤ a) then Z.log2 (a / b) else - Z.log2_up ((a + b - 1) / a).

(** The integer nearest to [num / den] for [den > 0], the even one of two
    that are equally near. *)
Definition round_half_even (num den : Z) : Z :=
  let q := num / den in
  let r := num mod den in
  if decide (2 * r < den) then q
  else if decide (den < 2 * r) then q + 1
  else if Z.even q then q else q + 1.

(** The binary64 number nearest to [a / b] for positive [a] and [b], as a
    pair of mantissa and exponent: 53 significant bits, and no bit below
    [2^-1074]. *)
Definition binary64_nearest (a b : Z) : Z * Z :=
  let e := Z.max (floor_log2_ratio a b - 52) (-1074) in
  (round_half_even (a * 2 ^ Z.max 0 (- e)) (b * 2 ^ Z.max 0 e), e).

(** The float nearest to [p / q] for [q > 0]; [None] if that is [2^1024]
    or more in absolute value. *)
Definition round_binary64 (p q : Z) : option float :=
  if decide (p = 0) then Some (Finite 0 0)
  else
    let '(m, e) := binary64_nearest (Z.abs p) q in
    if decide (2 ^ 1024 ≤ m * 2 ^ e) then None
    else Some (Finite (Z.sgn p * m) e).

(** [a / b] on integers: the quotient, correctly rounded. *)
Definition int_truediv (a b : Z) : Result float :=
  if decide (b = 0) then Raise ZeroDivisionError
  else match round_binary64 (a * Z.sgn b) (Z.abs b) with
       | Some x => Ok x
       | None => Raise OverflowError
       end.

(** [float(s)] for an integer [s], as the arithmetic converts an integer
    operand. *)
Definition float_of_int (s : Z) : Result float :=
  match round_binary64 s 1 with
  | Some x => Ok x
  | None => Raise OverflowError
  end.

(** [int(x)]: the fraction is cut off. *)
Definition int_of_float (x : float) : Result Z :=
  match x with
  | Finite m e => Ok (if decide (0 ≤ e) then m * 2 ^ e else Z.quot m (2 ^ (- e)))
  | Infinity _ => Raise OverflowError
  | NaN => Raise ValueError
  end.

(** [int(a / b)] *)
Definition int_true_div (a b : Z) : Result Z :=
  x ← int_truediv a b; int_of_float x.

(** The product and the quotient of two floats; a result of [2^1024] or
    more is an infinity. *)
Definition float_mul (x y : float) : float :=
  match x, y with
  | Finite m1 e1, Finite m2 e2 =>
      let e := e1 + e2 in
      match round_binary64 (m1 * m2 * 2 ^ Z.max 0 e) (2 ^ Z.max 0 (- e)) with
      | Some z => z
      | None => Infinity (bool_decide (m1 * m2 < 0))
      end
  | Infinity s, Finite m _ | Finite m _, Infinity s =>
      if decide (m = 0) then NaN else Infinity (xorb s (bool_decide (m < 0)))
  | Infinity s1, Infinity s2 => Infinity (xorb s1 s2)
  | _, _ => NaN
  end.

(** [x / y] for a divisor other than zero. *)
Definition float_div (x y : float) : float :=
  match x, y with
  | Finite m1 e1, Finite m2 e2 =>
      let e := e1 - e2 in
      match round_binary64 (m1 * Z.sgn m2 * 2 ^ Z.max 0 e) (Z.abs m2 * 2 ^ Z.max 0 (- e)) with
      | Some z => z
      | None => Infinity (bool_decide (m1 * m2 < 0))
      end
  | Infinity s, Finite m _ => Infinity (xorb s (bool_decide (m < 0)))
  | Finite _ _, Infinity _ => Finite 0 0
  | _, _ => NaN
  end.

(** [x * s] for a float [x] and an integer [s] *)
Definition float_mul_int (x : float) (s : Z) : Result float :=
  y ← float_of_int s; mret (float_mul x y).

(** [x / b] for a float [x] and an integer [b] *)
Definition float_truediv_int (x : float) (b : Z) : Result float :=
  y ← float_of_int b;
  if decide (b = 0) then Raise ZeroDivisionError else mret (float_div x y).

(** ** class ResidueClass and its two subclasses

    The three classes share their fields; [cls] is the class of the object,
    on which the overridden methods dispatch. [order] is set by the
    constructor; in the base class [get_order] returns [None]. *)

Inductive residue_cls : Set := ResidueClass_cls | Additive_cls | Multiplicative_cls.

Record residue_obj : Type := mk_residue {
  cls : residue_cls;
  modulus : Z;
  residue : Z;
  order : option Z
}.

Module ResidueClass.

(** [self.get_order()], by the class of [self]. *)
Definition get_order (c : residue_cls) (residue modulus : Z) : Result (option Z) :=
  match c with
  | ResidueClass_cls => Ok None
  | Additive_cls | Multiplicative_cls =>
      o ← int_true_div modulus (math_gcd residue modulus); mret (Some o)
  end.

(** [__init__], shared by the three classes. *)
Definition new (c : residue_cls) (residue modulus : Z) : Result residue_obj :=
  r ← py_mod residue modulus;
  o ← get_order c r modulus;
  mret {| cls := c; modulus := modulus; residue := r; order := o |}.

Definition __init__ (residue modulus : Z) : Result residue_obj :=
  new ResidueClass_cls residue modulus.

Definition __eq__ (self other : residue_obj) : bool :=
  bool_decide (residue self = residue other) && bool_decide (modulus self = modulus other).

Definition __ne__ (self other : residue_obj) : Result Z :=
  b ← call_bound (λ s o, Ok (__eq__ s o)) self [self; other];
  mret (invert_bool b).

Definition __add__ (self other : residue_obj) : Result residue_obj :=
  if decide (modulus self ≠ modulus other) then Raise ValueError
  else r ← py_mod (residue self + residue other) (modulus self);
       __init__ r (modulus self).

Definition __mul__ (self other : residue_obj) : Result residue_obj :=
  if decide (modulus self ≠ modulus other) then Raise ValueError
  else r ← py_mod (residue self * residue other) (modulus self);
       __init__ r (modulus self).

Definition __neg__ (self : residue_obj) : Result residue_obj :=
  __init__ (- residue self) (modulus self).

Definition __invert__ (self : residue_obj) : Result residue_obj :=
  if decide (math_gcd (residue self) (modulus self) ≠ 1) then Raise ValueError
  else phi ← sympy_totient (modulus self);
       let exp := phi - 1 in
       __init__ (residue self ^ exp) (modulus self).

Definition __pow__ (self : residue_obj) (N : Z) : Result residue_obj :=
  if decide (N = 0) then __init__ 1 (modulus self)
  else if decide (N > 0) then reduce __mul__ (replicate (Z.to_nat N) self)
  else inv ← __invert__ self;
       reduce __mul__ (replicate (Z.to_nat (Z.abs N)) inv).

Definition __sub__ (self other : residue_obj) : Result residue_obj :=
  n ← __neg__ other; __add__ self n.

Definition is_identity (self : residue_obj) : option bool := None.

(** [hash((self.residue, self.modulus))]; [py_hash] is the hash function of
    Python on pairs of integers. *)
Definition __hash__ (py_hash : Z * Z → Z) (self : residue_obj) : Z :=
  py_hash (residue self, modulus self).

End ResidueClass.

Module AdditiveResidueClass.

Definition __init__ (residue modulus : Z) : Result residue_obj :=
  ResidueClass.new Additive_cls residue modulus.

Definition __mul__ (self other : residue_obj) : Result residue_obj :=
  if decide (modulus self ≠ modulus other) then Raise ValueError
  else r ← py_mod (residue self + residue other) (modulus self);
       __init__ r (modulus self).

Definition __invert__ (self : residue_obj) : Result residue_obj :=
  __init__ (- residue self) (modulus self).

Definition __pow__ (self : residue_obj) (N : Z) : Result residue_obj :=
  if decide (N = 0) then __init__ 0 (modulus self)
  else if decide (N > 0) then reduce __mul__ (replicate (Z.to_nat N) self)
  else inv ← __invert__ self;
       reduce __mul__ (replicate (Z.to_nat (Z.abs N)) inv).

Definition get_order (self : residue_obj) : Result Z :=
  int_true_div (modulus self) (math_gcd (residue self) (modulus self)).

Definition is_identity (self : residue_obj) : bool :=
  if decide (residue self = 0) then true else false.

End AdditiveResidueClass.

Module MultiplicativeResidueClass.

Definition __init__ (residue modulus : Z) : Result residue_obj :=
  ResidueClass.new Multiplicative_cls residue modulus.

Definition __mul__ (self other : residue_obj) : Result residue_obj :=
  if decide (modulus self ≠ modulus other) then Raise ValueError
  else r ← py_mod (residue self * residue other) (modulus self);
       __init__ r (modulus self).

Definition __invert__ (self : residue_obj) : Result residue_obj :=
  if decide (math_gcd (residue self) (modulus self) ≠ 1) then Raise ValueError
  else phi ← sympy_totient (modulus self);
       let exp := phi - 1 in
       __init__ (residue self ^ exp) (modulus self).

Definition __pow__ (self : residue_obj) (N : Z) : Result residue_obj :=
  if decide (N = 0) then __init__ 1 (modulus self)
  else if decide (N > 0) then reduce __mul__ (replicate (Z.to_nat N) self)
  else inv ← __invert__ self;
       reduce __mul__ (replicate (Z.to_nat (Z.abs N)) inv).

Definition get_order (self : residue_obj) : Result Z :=
  int_true_div (modulus self) (math_gcd (residue self) (modulus self)).

Definition is_identity (self : residue_obj) : bool :=
  if decide (residue self = 1) then true else false.

End MultiplicativeResidueClass.

(** ** class Matrix

    A [sympy.Matrix] of integers is a list of rows. *)

Definition sympy_Matrix : Type := list (list Z).

(** [sympy.eye(n)] *)
Definition sympy_eye (n : Z) : sympy_Matrix :=
  (λ i, (λ j, if decide (i = j) then 1 else 0) <$> seqZ 0 n) <$> seqZ 0 n.

(** [m % c], entry by entry. *)
Definition sympy_mod (m : sympy_Matrix) (c : Z) : Result sympy_Matrix :=
  if decide (c = 0) then Raise ZeroDivisionError
  else Ok ((λ row : list Z, (λ x, x mod c) <$> row) <$> m).

(** [m.shape] *)
Definition sympy_shape (m : sympy_Matrix) : Z * Z :=
  (Z.of_nat (length m), Z.of_nat (length (default [] (head m)))).

Definition sympy_column (m : sympy_Matrix) (j : nat) : list Z :=
  (λ row, default 0 (row !! j)) <$> m.

Definition dot (u v : list Z) : Z :=
  foldr Z.add 0 (zip_with Z.mul u v).

(** [a * b], the matrix product. *)
Definition sympy_mul (a b : sympy_Matrix) : Result sympy_Matrix :=
  if decide ((sympy_shape a).2 = (sympy_shape b).1) then
    Ok ((λ row, (λ j, dot row (sympy_column b j)) <$> seq 0 (Z.to_nat (sympy_shape b).2)) <$> a)
  else Raise ShapeError.

Module Matrix.

Record t : Type := mk {
  matrix : sympy_Matrix;
  dimension : Z;
  characteristic : Z
}.

(** [Matrix(matrix, characteristic)]. The parameter [characteristic] has no
    default value: [None] stands for a call that does not pass it. *)
Definition __init__ (matrix : sympy_Matrix) (characteristic : option Z) : Result t :=
  match characteristic with
  | None => Raise TypeError
  | Some characteristic =>
      m ← sympy_mod matrix characteristic;
      mret {| matrix := m;
              dimension := (sympy_shape m).1;
              characteristic := characteristic |}
  end.

Definition __eq__ (self other : t) : bool :=
  bool_decide (matrix self = matrix other).

Definition __mul__ (self other : t) : Result t :=
  prod ← sympy_mul (matrix self) (matrix other);
  m ← sympy_mod prod (characteristic self);
  __init__ m (Some (characteristic self)).

Section Inverse.

(** [m.inv_mod(c)] of sympy. *)
Variable inv_mod : sympy_Matrix → Z → Result sympy_Matrix.

Definition __invert__ (self : t) : Result t :=
  m ← inv_mod (matrix self) (characteristic self);
  __init__ m (Some (characteristic self)).

Definition __pow__ (self : t) (N : Z) : Result t :=
  if decide (N = 0) then __init__ (sympy_eye (dimension self)) None
  else if decide (N > 0) then reduce __mul__ (replicate (Z.to_nat N) self)
  else inv ← __invert__ self;
       reduce __mul__ (replicate (Z.to_nat (Z.abs N)) inv).

End Inverse.

Definition get_order (self : t) : Z := 0.

Definition is_identity (self : t) : bool :=
  bool_decide (matrix self = sympy_eye (dimension self)).

End Matrix.

(** ** Statistical invariants *)

(** [itertools.combinations_with_replacement(pool, 2)] *)
Fixpoint combinations_with_replacement_2 {A} (pool : list A) : list (A * A) :=
  match pool with
  | [] => []
  | x :: rest => (pair x <$> x :: rest) ++ combinations_with_replacement_2 rest
  end.

Fixpoint binomial (n k : nat) : nat :=
  match k, n with
  | O, _ => 1
  | S _, O => 0
  | S k', S n' => binomial n' k' + binomial n' k
  end.

(** [math.comb(n, k)] *)
Definition math_comb (n k : Z) : Result Z :=
  if decide (n < 0 ∨ k < 0) then Raise ValueError
  else Ok (Z.of_nat (binomial (Z.to_nat n) (Z.to_nat k))).

(** [a / b] on integers. The result is the float nearest to the quotient;
    the model keeps the quotient itself. *)
Definition true_div (a b : Z) : Result Q :=
  if decide (b = 0) then Raise ZeroDivisionError
  else Ok (inject_Z a / inject_Z b)%Q.

(** [itertools.combinations(pool, r)] for [r >= 0], in lexicographic order
    of positions. *)
Fixpoint combinations_nat {A} (pool : list A) (r : nat) : list (list A) :=
  match r, pool with
  | O, _ => [[]]
  | S _, [] => []
  | S r', x :: rest => (cons x <$> combinations_nat rest r') ++ combinations_nat rest r
  end.

(** [itertools.combinations(pool, r)]: a negative [r] is a [ValueError]. *)
Definition itertools_combinations {A} (pool : list A) (r : Z) : Result (list (list A)) :=
  if decide (r < 0) then Raise ValueError else Ok (combinations_nat pool (Z.to_nat r)).

(** [sum(xs)] on integers ([True] counts as 1). *)
Definition py_sum (xs : list Z) : Z := foldr Z.add 0 xs.

Module Invariants.

Section Group.

(** The elements of the group are of one representation [E]; [elt_order]
    reads the attribute [order] of an element. *)
Context {E : Type}.
Variable elt_order : E → Z.

(** Modelled from the spec: the class [Group] of [noetherpy.group_theory.groups]
    is not among the sources. It is a finite collection of elements that can
    be iterated, and its [order] is the number of its elements. *)
Record Group : Type := mk_Group { elements : list E }.

Definition group_order (group : Group) : Z := Z.of_nat (length (elements group)).

Definition equal_order_probability (group : Group) : Result Q :=
  let order_pairs := combinations_with_replacement_2 (elements group) in
  let order_equal_count :=
    Z.of_nat (length (filter (λ pair, elt_order pair.1 = elt_order pair.2) order_pairs)) in
  c ← math_comb (group_order group + 1) 2;
  true_div order_equal_count c.

(** The collaborators of the other invariants, which are not among the
    sources either: the attribute [conjugacy_classes] and the method
    [subgroup_generated_by] of a group, and the functions [is_solvable],
    [is_nilpotent], [centralizer] and [normalizer]. *)
Variable conjugacy_classes : Group → list (list E).
Variable subgroup_generated_by : Group → list E → Group.
Variable is_solvable is_nilpotent : Group → bool.
Variable centralizer normalizer : Group → Group → Group.

Definition commuting_probability (group : Group) : Result Q :=
  true_div (Z.of_nat (length (conjugacy_classes group))) (group_order group).

Definition solvable_subgroup_probability (group : Group) : Result float :=
  group_choose_2_list ← itertools_combinations (elements group) 2;
  c ← math_comb (group_order group) 2;
  w ← int_truediv 1 c;
  float_mul_int w (py_sum ((λ gen_set,
      Z.b2z (is_solvable (subgroup_generated_by group gen_set)))
      <$> group_choose_2_list)).

Definition nilpotent_subgroup_probability (group : Group) : Result float :=
  group_choose_2_list ← itertools_combinations (elements group) 2;
  c ← math_comb (group_order group) 2;
  w ← int_truediv 1 c;
  float_mul_int w (py_sum ((λ gen_set,
      Z.b2z (is_nilpotent (subgroup_generated_by group gen_set)))
      <$> group_choose_2_list)).

Definition average_centralizer_size (group : Group) (k : Z) (scale_by_order : bool)
    : Result float :=
  group_choose_k_list ← itertools_combinations (elements group) k;
  let order_scaling := group_order group ^ Z.b2z scale_by_order in
  c ← math_comb (group_order group) k;
  w ← int_truediv 1 c;
  s ← float_mul_int w (py_sum ((λ gen_set,
         group_order (centralizer (subgroup_generated_by group gen_set) group))
         <$> group_choose_k_list));
  float_truediv_int s order_scaling.

Definition average_normalizer_size (group : Group) (k : Z) (scale_by_order : bool)
    : Result float :=
  group_choose_k_list ← itertools_combinations (elements group) k;
  let order_scaling := group_order group ^ Z.b2z scale_by_order in
  c ← math_comb (group_order group) k;
  w ← int_truediv 1 c;
  s ← float_mul_int w (py_sum ((λ gen_set,
         group_order (normalizer (subgroup_generated_by group gen_set) group))
         <$> group_choose_k_list));
  float_truediv_int s order_scaling.

Definition expectation_number (k : Z) (group : Group) (scale_by_order : bool)
    : Result float :=
  group_choose_k_list ← itertools_combinations (elements group) k;
  let order_scaling := group_order group ^ Z.b2z scale_by_order in
  c ← math_comb (group_order group) k;
  w ← int_truediv 1 c;
  s ← float_mul_int w (py_sum ((λ gen_set,
         group_order (subgroup_generated_by group gen_set))
         <$> group_choose_k_list));
  float_truediv_int s order_scaling.

End Group.

End Invariants.

(** ** Finite abelian groups

    [cyclic_group] and the power and product of groups are not among the
    sources; they are parameters that return a group or raise. *)

Module FiniteAbelianGroups.

Section Collaborators.

Context {G : Type}.
Variable cyclic_group : Z → string → Result G.
Variable group_pow : G → Z → Result G.
Variable group_mul : G → G → Result G.

Definition finite_abelian_group_from_order_power_dict
    (order_power_dict : dict) (representation : string) : Result G :=
  if decide (representation ∉ ["symbolic"; "permutation"; "matrix"]) then
    Raise ValueError
  else
    factors ← mapM (λ item : Z * Z,
                      g ← cyclic_group item.1 representation; group_pow g item.2)
                   (PyDict.items order_power_dict);
    reduce group_mul factors.

End Collaborators.

End FiniteAbelianGroups.

(** ** Predicates of the specification *)

(** The mapping is a bijection on [{1..n}], [n] the number of its entries. *)
Definition bijection (d : dict) : Prop :=
  PyDict.keys d ≡ₚ seqZ 1 (PyDict.len d) ∧ PyDict.values d ≡ₚ seqZ 1 (PyDict.len d).

(** A permutation object as the constructor builds it from a bijection. *)
Definition valid (p : Permutation.t) : Prop :=
  Permutation.num_letters p = PyDict.len (Permutation.permutation p)
  ∧ bijection (Permutation.permutation p).

(** The image of [i] under the mapping ([i] itself outside its keys). *)
Definition image (d : dict) (i : Z) : Z := default i (PyDict.get d i).

(** The cycle through [start] in traversal order: [current], its image, and
    so on, up to the point whose image is [start]; [n] bounds its length. *)
Fixpoint trace (d : dict) (start current : Z) (n : nat) : list Z :=
  match n with
  | O => []
  | S n' =>
      current :: if decide (image d current = start) then []
                 else trace d start (image d current) n'
  end.

Definition cycle_of (d : dict) (start : Z) : list Z := trace d start start (length d).

(** The cycles in order of discovery: each point of [starts] that is in no
    cycle found before it starts a new one. *)
Fixpoint discover (d : dict) (starts seen : list Z) : list (list Z) :=
  match starts with
  | [] => []
  | k :: rest =>
      if decide (k ∈ seen) then discover d rest seen
      else cycle_of d k :: discover d rest (cycle_of d k ++ seen)
  end.

Definition cycles (d : dict) : list (list Z) := discover d (seqZ 1 (PyDict.len d)) [].

Definition nontrivial_cycles (d : dict) : list (list Z) :=
  filter (λ c, (1 < length c)%nat) (cycles d).

(** A cycle is written as its points in traversal order, separated by
    spaces and in parentheses. *)
Definition render_cycle (c : list Z) : string :=
  "(" +:+ join " " (str <$> c) +:+ ")".

(** The cycle notation of the specification. *)
Definition cycle_notation (d : dict) : string :=
  if decide (Forall (λ i, image d i = i) (seqZ 1 (PyDict.len d))) then "1"
  else join "" (reverse (render_cycle <$> nontrivial_cycles d)).

(** [set_order] lists the elements of every set, each once. *)
Definition enumerates (set_order : gset Z → list Z) : Prop :=
  ∀ s, NoDup (set_order s) ∧ ∀ x, x ∈ set_order s ↔ x ∈ s.

(** The mapping that acts as [d] on the points of the cycle [c] and fixes
    every other point of [1..n]; its entries are those of the cycle in
    traversal order, then the fixed points in the order [set_order]. *)
Definition cycle_factor (set_order : gset Z → list Z) (d : dict) (c : list Z) : dict :=
  ((λ i, (i, image d i)) <$> c)
  ++ ((λ i, (i, i)) <$> set_order (PySet.of_list (PyDict.keys d) ∖ PySet.of_list c)).

(** [l] is a path of [f] that ends with a step to [target]. *)
Fixpoint is_path (f : Z → Z) (l : list Z) (target : Z) : Prop :=
  match l with
  | [] => True
  | x :: l' =>
      match l' with
      | [] => f x = target
      | y :: _ => f x = y ∧ is_path f l' target
      end
  end.

(** The number of unordered pairs with repetition of elements of the
    group, taken by position [i ≤ j], whose orders are equal. *)
Definition equal_order_pairs {E} (elt_order : E → Z) (g : list E) : nat :=
  length (filter (λ ij : nat * nat,
                    (ij.1 ≤ ij.2)%nat
                    ∧ elt_order <$> g !! ij.1 = elt_order <$> g !! ij.2)
            (list_prod (seq 0 (length g)) (seq 0 (length g)))).

(** The permutation object built from [cycle_factor d c]. *)
Definition cycle_factor_obj (set_order : gset Z → list Z) (d : dict) (c : list Z)
    : Permutation.t :=
  Permutation.mk (cycle_factor set_order d c) (PyDict.len (cycle_factor set_order d c))
    None None None.

(** The factors of the non-trivial cycles, in order of discovery. *)
Definition cycle_factors (set_order : gset Z → list Z) (d : dict) : list Permutation.t :=
  cycle_factor_obj set_order d <$> nontrivial_cycles d.

(** The action of one cycle of [d]: the points of [c] move as in [d], all
    other points stay. *)
Definition cycle_map (d : dict) (c : list Z) (i : Z) : Z :=
  if decide (i ∈ c) then image d i else i.

(** The action of the product of the cycles [cs], the last applied first. *)
Definition apply_cycles (d : dict) (cs : list (list Z)) (i : Z) : Z :=
  foldr (cycle_map d) i cs.

(** The object [q] is a mapping on the keys [1..n] that acts as [h]. *)
Definition acts (n : Z) (q : Permutation.t) (h : Z → Z) : Prop :=
  Permutation.num_letters q = n
  ∧ PyDict.keys (Permutation.permutation q) ≡ₚ seqZ 1 n
  ∧ ∀ i, 1 ≤ i ≤ n → PyDict.get (Permutation.permutation q) i = Some (h i).

(** The mapping [q] on [1..n] is the non-trivial cycle [c]: it moves the
    points of [c] along [c], the last one back to the first, and fixes
    every other point. *)
Definition acts_as_cycle (n : Z) (q : dict) (c : list Z) : Prop :=
  (1 < length c)%nat
  ∧ NoDup c
  ∧ is_path (image q) c (default 0 (head c))
  ∧ ∀ i, 1 ≤ i ≤ n → i ∉ c → PyDict.get q i = Some i.

(** The invariant of the tracing loop: [visited] are the points traced
    before [current], and each traced point other than [start] is the image
    of a point traced before it. *)
Definition tracing (d : dict) (start current : Z) (visited : list Z) : Prop :=
  NoDup (current :: visited)
  ∧ (∀ v, v ∈ current :: visited → 1 ≤ v ≤ PyDict.len d)
  ∧ (∀ v, v ∈ current :: visited → v ≠ start → ∃ u, u ∈ visited ∧ image d u = v).

(** A small permutation used to instantiate the statements below:
    the transposition of 1 and 2 on two letters. *)
Definition swap12 : Permutation.t :=
  Permutation.mk [(1, 2); (2, 1)] 2 None None None.

(** The permutation [{1: 2, 2: 3, 3: 1, 4: 4}] of the specification. *)
Definition cycle123 : Permutation.t :=
  Permutation.mk [(1, 2); (2, 3); (3, 1); (4, 4)] 4 None None None.

(** The identity on four letters. *)
Definition identity4 : Permutation.t :=
  Permutation.mk [(1, 1); (2, 2); (3, 3); (4, 4)] 4 None None None.

(** A transposition and a 3-cycle on five letters. *)
Definition two_cycles : Permutation.t :=
  Permutation.mk [(1, 2); (2, 1); (3, 4); (4, 5); (5, 3)] 5 None None None.

(** ** Auxiliary notions of the further properties *)

(** The permutation object on the keys [1..n], in increasing order, that
    sends [i] to [h i]: the form of every product. *)
Definition diag_obj (n : Z) (h : Z → Z) : Permutation.t :=
  Permutation.mk ((λ i, (i, h i)) <$> seqZ 1 n) n None None None.

(** The transposition of 3 and 4 on four letters. *)
Definition swap34 : Permutation.t :=
  Permutation.mk [(1, 1); (2, 2); (3, 4); (4, 3)] 4 None None None.

(** [h] is a bijection of [{1..n}]. *)
Definition bijective_on (n : Z) (h : Z → Z) : Prop :=
  (∀ i, 1 ≤ i ≤ n → 1 ≤ h i ≤ n)
  ∧ (∀ i j, 1 ≤ i ≤ n → 1 ≤ j ≤ n → h i = h j → i = j).

(** [i] is a letter at which the composition [self * other] cannot be
    evaluated: [other] has no entry for [i], or [self] none for [other[i]]. *)
Definition undefined_at (self other : Permutation.t) (i : Z) : Prop :=
  match PyDict.get (Permutation.permutation other) i with
  | None => True
  | Some j => PyDict.get (Permutation.permutation self) j = None
  end.

#[global] Instance undefined_at_dec self other i : Decision (undefined_at self other i).
Proof. unfold undefined_at. destruct (PyDict.get _ i); apply _. Defined.

(** [f] fixes each of [1..n] after [k] steps. *)
Definition iter_identity (n : Z) (f : Z → Z) (k : nat) : Prop :=
  Forall (λ i, Nat.iter k f i = i) (seqZ 1 n).

(** The object that the constructor of the class [c] builds for the modulus
    [n] from a residue [r] that is already reduced. *)
Definition residue_of (c : residue_cls) (n r : Z) : residue_obj :=
  {| cls := c; modulus := n; residue := r;
     order := match c with
              | ResidueClass_cls => None
              | _ => Some (Z.quot n (Z.gcd r n))
              end |}.

(** What the averages over subsets compute from the number [N] of subsets,
    the sum [total] of the summand and the scaling: the float
    [(1 / N) * total / scaling]. *)
Definition scaled_mean (N total scaling : Z) : Result float :=
  w ← int_truediv 1 N;
  s ← float_mul_int w total;
  float_truediv_int s scaling.

(** What the probabilities over pairs compute from the number [N] of pairs
    and the number [count] of pairs that pass: the float [(1 / N) * count]. *)
Definition pair_fraction (N count : Z) : Result float :=
  w ← int_truediv 1 N;
  float_mul_int w count.

(** The common shape of [average_centralizer_size], [average_normalizer_size]
    and [expectation_number], which differ in the summand [F] only. *)
Definition subset_average {E} (F : list E → Z) (pool : list E) (k : Z)
    (scale_by_order : bool) : Result float :=
  group_choose_k_list ← itertools_combinations pool k;
  let order_scaling := Z.of_nat (length pool) ^ Z.b2z scale_by_order in
  c ← math_comb (Z.of_nat (length pool)) k;
  w ← int_truediv 1 c;
  s ← float_mul_int w (py_sum (F <$> group_choose_k_list));
  float_truediv_int s order_scaling.

(** The common shape of [solvable_subgroup_probability] and
    [nilpotent_subgroup_probability], which differ in the test [P] only. *)
Definition pair_probability {E} (P : list E → bool) (pool : list E) : Result float :=
  group_choose_2_list ← itertools_combinations pool 2;
  c ← math_comb (Z.of_nat (length pool)) 2;
  w ← int_truediv 1 c;
  float_mul_int w (py_sum ((λ gen_set, Z.b2z (P gen_set)) <$> group_choose_2_list)).

(** * Properties *)

(** ** The embedding on concrete inputs *)

Example cycle123_notation :
  Permutation.get_cycle_notation 4 cycle123 = Ok "(1 2 3)".
Proof. by vm_compute. Qed.

Example cycle123_order : Permutation.get_order 4 cycle123 = Ok 3.
Proof. by vm_compute. Qed.

Example identity4_notation_order :
  Permutation.get_cycle_notation 4 identity4 = Ok "1"
  ∧ Permutation.get_order 4 identity4 = Ok 1.
Proof. by vm_compute. Qed.

(** The cycle found last is written first. *)
Example two_cycles_notation :
  Permutation.get_cycle_notation 5 two_cycles = Ok "(3 4 5)(1 2)".
Proof. by vm_compute. Qed.

(** Tracing from 2 lists the cycle from 2 on. *)
Example cycle123_trace_from_2 :
  Permutation.find_cycle_dict 4 cycle123 2 = Ok [(2, 3); (3, 1); (1, 2)].
Proof. by vm_compute. Qed.

(** With its one fixed point, the cycle (1 2 3) on four letters is its own
    factor in whatever order the sets are iterated; with more fixed points
    the order shows in the factor. *)
Example cycle123_decomposition :
  Permutation.get_cycle_decomposition PySet.iter 4 cycle123 = Ok [cycle123].
Proof. by vm_compute. Qed.

Example two_cycles_decomposition_order :
  Permutation.get_cycle_decomposition (λ s, reverse (PySet.iter s)) 5 two_cycles
  = Ok [Permutation.mk [(1, 2); (2, 1); (5, 5); (4, 4); (3, 3)] 5 None None None;
        Permutation.mk [(3, 4); (4, 5); (5, 3); (2, 2); (1, 1)] 5 None None None].
Proof. by vm_compute. Qed.

(** On a mapping that is not a bijection, tracing runs into a missing key
    or never returns to its start. *)
Example trace_missing_key :
  Permutation.find_cycle_dict 4 (Permutation.mk [(1, 5)] 1 None None None) 1
  = Raise KeyError.
Proof. by vm_compute. Qed.

Example trace_without_return :
  Permutation.find_cycle_dict 100 (Permutation.mk [(1, 2); (2, 2)] 2 None None None) 1
  = OutOfFuel.
Proof. by vm_compute. Qed.

Example validate_sorts :
  Permutation.validate_permutation [(2, 1); (1, 2)] = Ok [(1, 2); (2, 1)].
Proof. by vm_compute. Qed.

Example inverse_3_mod_7 :
  (a ← MultiplicativeResidueClass.__init__ 3 7;
   b ← MultiplicativeResidueClass.__invert__ a; mret (residue b)) = Ok 5.
Proof. by vm_compute. Qed.

Example inverse_2_mod_4 :
  (a ← MultiplicativeResidueClass.__init__ 2 4;
   MultiplicativeResidueClass.__invert__ a) = Raise ValueError.
Proof. by vm_compute. Qed.

Example additive_order_4_mod_6 :
  (a ← AdditiveResidueClass.__init__ 4 6; mret (order a)) = Ok (Some 3).
Proof. by vm_compute. Qed.

(** Among the ten pairs with repetition of four elements of orders
    1, 2, 2, 3, five have equal orders. *)
Example equal_order_probability_half :
  Invariants.equal_order_probability (λ x : Z, x) (Invariants.mk_Group [1; 2; 2; 3])
  = Ok (Qdiv (inject_Z 5) (inject_Z 10)).
Proof. by vm_compute. Qed.

(** ** Results and loops *)

Lemma bind_Ok {A B} (m : Result A) (f : A → Result B) (b : B) :
  m ≫= f = Ok b ↔ ∃ a, m = Ok a ∧ f a = Ok b.
Proof.
  destruct m; simpl; split; [eauto|intros (? & [= <-] & ?); done|..];
    first [done|intros (? & ? & ?); done].
Qed.

Lemma Ok_bind {A B} (a : A) (f : A → Result B) : Ok a ≫= f = f a.
Proof. reflexivity. Qed.

Lemma for_each_app {S A} (body : S → A → Result S) xs ys st :
  for_each body (xs ++ ys) st = for_each body xs st ≫= for_each body ys.
Proof.
  revert st. induction xs as [|x xs IH]; intros st; simpl; [done|].
  destruct (body st x); simpl; auto.
Qed.

Lemma for_each_pure {S A} (body : S → A → Result S) (g : S → A → S) xs st :
  (∀ st x, x ∈ xs → body st x = Ok (g st x)) →
  for_each body xs st = Ok (foldl g st xs).
Proof.
  revert st. induction xs as [|x xs IH]; intros st Hb; simpl; [done|].
  rewrite Hb by left. simpl. apply IH. intros; apply Hb. by right.
Qed.

(** ** Dictionaries *)

Lemma get_elem_of d k v : PyDict.get d k = Some v → (k, v) ∈ d.
Proof.
  induction d as [|[k' v'] d IH]; simpl; [done|].
  case_decide; subst.
  - intros [= ->]. left.
  - intros. right. auto.
Qed.

Lemma get_None d k : PyDict.get d k = None ↔ k ∉ PyDict.keys d.
Proof.
  unfold PyDict.keys. induction d as [|[k' v'] d IH]; simpl.
  - split; [intros _; apply not_elem_of_nil|done].
  - rewrite not_elem_of_cons. case_decide; subst.
    + split; [done|]. intros [? _]; done.
    + rewrite IH. intuition congruence.
Qed.

Lemma get_is_Some d k : is_Some (PyDict.get d k) ↔ k ∈ PyDict.keys d.
Proof.
  rewrite <-not_eq_None_Some, get_None.
  destruct (decide (k ∈ PyDict.keys d)); naive_solver.
Qed.

Lemma elem_of_get d k v : PyDict.wf d → (k, v) ∈ d → PyDict.get d k = Some v.
Proof.
  unfold PyDict.wf, PyDict.keys.
  induction d as [|[k' v'] d IH]; simpl; intros Hnd Hin.
  - by apply elem_of_nil in Hin.
  - apply NoDup_cons in Hnd as [Hk Hnd].
    apply elem_of_cons in Hin as [[= -> ->]|Hin].
    + by rewrite decide_True.
    + rewrite decide_False; [auto|].
      intros ->. apply Hk. apply list_elem_of_fmap. by exists (k, v).
Qed.

Lemma get_setitem d k v k' :
  PyDict.get (PyDict.setitem d k v) k' = if decide (k = k') then Some v else PyDict.get d k'.
Proof.
  induction d as [|[k0 v0] d IH]; simpl.
  - repeat case_decide; congruence.
  - destruct (decide (k0 = k)) as [->|Hk0]; simpl.
    + destruct (decide (k = k')); [done|]. done.
    + rewrite IH. destruct (decide (k0 = k')), (decide (k = k')); congruence.
Qed.

Lemma setitem_fresh d k v : k ∉ PyDict.keys d → PyDict.setitem d k v = d ++ [(k, v)].
Proof.
  unfold PyDict.keys. induction d as [|[k0 v0] d IH]; simpl; [done|].
  rewrite not_elem_of_cons. intros [Hne Hk].
  rewrite decide_False by done. by rewrite IH.
Qed.

Lemma setitem_same d k v : PyDict.get d k = Some v → PyDict.setitem d k v = d.
Proof.
  induction d as [|[k0 v0] d IH]; simpl; [done|].
  case_decide; subst.
  - by intros [= ->].
  - intros. by rewrite IH.
Qed.

Lemma keys_setitem_present d k v :
  k ∈ PyDict.keys d → PyDict.keys (PyDict.setitem d k v) = PyDict.keys d.
Proof.
  unfold PyDict.keys. induction d as [|[k0 v0] d IH]; simpl.
  - intros H. by apply elem_of_nil in H.
  - case_decide; subst; simpl; [done|].
    intros [?|?]%elem_of_cons; [congruence|]. f_equal. by apply IH.
Qed.

(** A comprehension over distinct keys lists its entries in order. *)
Lemma foldl_setitem_fresh {A} (kf vf : A → Z) (xs : list A) acc :
  NoDup (kf <$> xs) →
  (∀ x, x ∈ xs → kf x ∉ PyDict.keys acc) →
  foldl (λ d i, PyDict.setitem d (kf i) (vf i)) acc xs
  = acc ++ ((λ i, (kf i, vf i)) <$> xs).
Proof.
  revert acc. induction xs as [|x xs IH]; intros acc Hnd Hfresh; simpl.
  - by rewrite app_nil_r.
  - rewrite fmap_cons in Hnd. apply NoDup_cons in Hnd as [Hx Hnd].
    rewrite setitem_fresh by (apply Hfresh; left).
    rewrite IH; [by rewrite <-app_assoc|done|].
    intros y Hy. unfold PyDict.keys. rewrite fmap_app, elem_of_app. simpl.
    intros [Hin|Hin%list_elem_of_singleton].
    + eapply Hfresh; [by right|done].
    + apply Hx. rewrite <-Hin. apply list_elem_of_fmap. by exists y.
Qed.

Lemma comprehension_fresh (kf vf : Z → Z) xs :
  NoDup (kf <$> xs) →
  PyDict.comprehension kf vf xs = (λ i, (kf i, vf i)) <$> xs.
Proof.
  intros Hnd. unfold PyDict.comprehension.
  rewrite foldl_setitem_fresh; [done|done|].
  intros x _. apply not_elem_of_nil.
Qed.

Lemma comprehensionM_pure key value (kf vf : Z → Z) xs :
  (∀ x, x ∈ xs → key x = Ok (kf x)) →
  (∀ x, x ∈ xs → value x = Ok (vf x)) →
  PyDict.comprehensionM key value xs = Ok (PyDict.comprehension kf vf xs).
Proof.
  intros Hk Hv. unfold PyDict.comprehensionM, PyDict.comprehension.
  apply for_each_pure. intros st x Hx. by rewrite Hk, Hv.
Qed.

Lemma eqb_true d1 d2 :
  PyDict.eqb d1 d2 = true ↔
  length d1 = length d2 ∧ ∀ k v, (k, v) ∈ d1 → PyDict.get d2 k = Some v.
Proof.
  unfold PyDict.eqb.
  rewrite andb_true_iff, bool_decide_eq_true, forallb_forall.
  split; intros [Hl H]; split; try done.
  - intros k v Hin. apply list_elem_of_In in Hin.
    specialize (H _ Hin). by apply bool_decide_eq_true in H.
  - intros [k v] Hin%list_elem_of_In. apply bool_decide_eq_true. by apply H.
Qed.

Lemma eqb_refl d : PyDict.wf d → PyDict.eqb d d = true.
Proof.
  intros Hwf. apply eqb_true. split; [done|]. intros k v. by apply elem_of_get.
Qed.

Lemma len_nonneg d : 0 ≤ PyDict.len d.
Proof. unfold PyDict.len. lia. Qed.

Lemma len_fmap_seqZ (f : Z → Z * Z) n : 0 ≤ n → PyDict.len (f <$> seqZ 1 n) = n.
Proof. intros. unfold PyDict.len. rewrite length_fmap, length_seqZ. lia. Qed.

(** ** Bijections on [{1..n}] *)

Section Bijection.

Variable d : dict.
Hypothesis Hbij : bijection d.

Local Abbreviation n := (PyDict.len d).

Lemma bij_wf : PyDict.wf d.
Proof.
  destruct Hbij as [Hk _]. unfold PyDict.wf. rewrite Hk. apply NoDup_seqZ.
Qed.

Lemma bij_keys k : k ∈ PyDict.keys d ↔ 1 ≤ k ≤ n.
Proof.
  destruct Hbij as [Hk _]. rewrite Hk, elem_of_seqZ. lia.
Qed.

Lemma bij_values v : v ∈ PyDict.values d ↔ 1 ≤ v ≤ n.
Proof.
  destruct Hbij as [_ Hv]. rewrite Hv, elem_of_seqZ. lia.
Qed.

Lemma bij_get_range k v : PyDict.get d k = Some v → 1 ≤ k ≤ n ∧ 1 ≤ v ≤ n.
Proof.
  intros Hg. apply get_elem_of in Hg. split.
  - apply bij_keys. apply list_elem_of_fmap. by exists (k, v).
  - apply bij_values. apply list_elem_of_fmap. by exists (k, v).
Qed.

Lemma bij_get k : 1 ≤ k ≤ n → ∃ v, PyDict.get d k = Some v ∧ 1 ≤ v ≤ n.
Proof.
  intros Hk. apply bij_keys, get_is_Some in Hk. destruct Hk as [v Hv].
  exists v. split; [done|]. apply (bij_get_range k v Hv).
Qed.

Lemma bij_inj k1 k2 v : PyDict.get d k1 = Some v → PyDict.get d k2 = Some v → k1 = k2.
Proof.
  intros H1%get_elem_of H2%get_elem_of.
  assert (Hnd : NoDup (PyDict.values d)).
  { destruct Hbij as [_ Hv]. rewrite Hv. apply NoDup_seqZ. }
  clear Hbij. unfold PyDict.values in Hnd.
  induction d as [|[k0 v0] d' IH]; [by apply elem_of_nil in H1|].
  rewrite fmap_cons in Hnd. apply NoDup_cons in Hnd as [Hv0 Hnd]. simpl in Hv0.
  apply elem_of_cons in H1 as [E1|H1]; apply elem_of_cons in H2 as [E2|H2].
  - congruence.
  - injection E1 as -> ->. exfalso. apply Hv0.
    apply list_elem_of_fmap. by exists (k2, v0).
  - injection E2 as -> ->. exfalso. apply Hv0.
    apply list_elem_of_fmap. by exists (k1, v0).
  - by apply IH.
Qed.

Lemma bij_surj v : 1 ≤ v ≤ n → ∃ k, PyDict.get d k = Some v ∧ 1 ≤ k ≤ n.
Proof.
  intros Hv. apply bij_values in Hv.
  apply list_elem_of_fmap in Hv as ([k v'] & -> & Hin).
  apply elem_of_get in Hin; [|apply bij_wf].
  exists k. split; [done|]. apply (bij_get_range k v' Hin).
Qed.

End Bijection.

(** ** Composition, inverse and powers of permutations *)

Lemma mul_spec (a b : Permutation.t) (g h : Z → Z) :
  (∀ i, 1 ≤ i ≤ Permutation.num_letters a →
        PyDict.get (Permutation.permutation b) i = Some (g i)) →
  (∀ i, 1 ≤ i ≤ Permutation.num_letters a →
        PyDict.get (Permutation.permutation a) (g i) = Some (h i)) →
  Permutation.__mul__ a b
  = Permutation.__init__ ((λ i, (i, h i)) <$> seqZ 1 (Permutation.num_letters a)).
Proof.
  intros Hb Ha. unfold Permutation.__mul__.
  rewrite (comprehensionM_pure _ _ (λ i, i) h).
  - simpl. rewrite comprehension_fresh; [done|].
    rewrite list_fmap_id. apply NoDup_seqZ.
  - done.
  - intros i Hi%elem_of_seqZ. unfold PyDict.getitem.
    rewrite Hb by lia. simpl. by rewrite Ha by lia.
Qed.

Lemma get_fmap_diag (h : Z → Z) (xs : list Z) i :
  i ∈ xs → PyDict.get ((λ i, (i, h i)) <$> xs) i = Some (h i).
Proof.
  induction xs as [|x xs IH]; simpl.
  - intros H. by apply elem_of_nil in H.
  - case_decide; subst; [done|].
    intros [?|?]%elem_of_cons; [congruence|auto].
Qed.

Lemma keys_fmap_diag (h : Z → Z) (xs : list Z) :
  PyDict.keys ((λ i, (i, h i)) <$> xs) = xs.
Proof.
  unfold PyDict.keys. rewrite <-list_fmap_compose. apply list_fmap_id.
Qed.

Lemma identity_dict_spec n :
  PyDict.comprehension (λ i, i) (λ i, i) (seqZ 1 n) = (λ i, (i, i)) <$> seqZ 1 n.
Proof.
  apply comprehension_fresh. rewrite list_fmap_id. apply NoDup_seqZ.
Qed.

Lemma is_identity_diag n c o s :
  0 ≤ n →
  Permutation.is_identity (Permutation.mk ((λ i, (i, i)) <$> seqZ 1 n) n c o s) = true.
Proof.
  intros Hn. unfold Permutation.is_identity. simpl.
  rewrite identity_dict_spec. apply eqb_refl.
  unfold PyDict.wf. rewrite (keys_fmap_diag (λ i, i)). apply NoDup_seqZ.
Qed.

Lemma invert_spec p :
  valid p →
  Permutation.__invert__ p
  = Permutation.__init__
      ((λ k, (default 0 (PyDict.get (Permutation.permutation p) k), k))
         <$> PyDict.keys (Permutation.permutation p)).
Proof.
  intros [Hn Hbij]. unfold Permutation.__invert__.
  set (d := Permutation.permutation p) in *.
  rewrite (comprehensionM_pure _ _ (λ k, default 0 (PyDict.get d k)) (λ k, k)).
  - simpl. rewrite comprehension_fresh; [done|].
    assert (Hv : (λ k, default 0 (PyDict.get d k)) <$> PyDict.keys d = PyDict.values d).
    { unfold PyDict.keys, PyDict.values. rewrite <-list_fmap_compose.
      apply list_fmap_ext. intros i [k v] Hi. simpl.
      apply list_elem_of_lookup_2 in Hi.
      by rewrite (elem_of_get d k v (bij_wf d Hbij) Hi). }
    rewrite Hv. destruct Hbij as [_ ->]. apply NoDup_seqZ.
  - intros k Hk%get_is_Some. destruct Hk as [v Hv].
    unfold PyDict.getitem. by rewrite Hv.
  - done.
Qed.

(** The inverse looks up the preimage. *)
Lemma get_invert p k v :
  valid p →
  PyDict.get (Permutation.permutation p) k = Some v →
  PyDict.get ((λ k, (default 0 (PyDict.get (Permutation.permutation p) k), k))
                <$> PyDict.keys (Permutation.permutation p)) v = Some k.
Proof.
  intros [Hn Hbij] Hkv. set (d := Permutation.permutation p) in *.
  assert (Hin : k ∈ PyDict.keys d) by (apply get_is_Some; eauto).
  assert (Hinj : ∀ k', k' ∈ PyDict.keys d → default 0 (PyDict.get d k') = v → k' = k).
  { intros k' [v' Hv']%get_is_Some Hd. rewrite Hv' in Hd. simpl in Hd. subst v'.
    by eapply bij_inj. }
  revert Hin Hinj. generalize (PyDict.keys d) as ks.
  induction ks as [|k0 ks IH]; intros Hin Hinj; simpl.
  - by apply elem_of_nil in Hin.
  - case_decide as Hd.
    + f_equal. apply Hinj; [left|done].
    + apply IH.
      * apply elem_of_cons in Hin as [->|?]; [|done].
        rewrite Hkv in Hd. done.
      * intros k' Hk'. apply Hinj. by right.
Qed.

Lemma swap12_valid : valid swap12.
Proof.
  split; [done|]. split; simpl; by refine (bool_decide_unpack _ _).
Defined.

(** C3: for permutations [a] and [b] of equal degree [n], the composition
    [a * b] is returned and is the mapping on the keys [1..n] that sends
    every [i] to [a[b[i]]]: [b] is applied first. *)
Theorem C3_composition (a b : Permutation.t) :
  valid a → valid b →
  Permutation.num_letters a = Permutation.num_letters b →
  ∃ c, Permutation.__mul__ a b = Ok c
     ∧ Permutation.num_letters c = Permutation.num_letters a
     ∧ PyDict.keys (Permutation.permutation c) = seqZ 1 (Permutation.num_letters a)
     ∧ ∀ i, 1 ≤ i ≤ Permutation.num_letters a →
         ∃ j k, PyDict.getitem (Permutation.permutation b) i = Ok j
              ∧ PyDict.getitem (Permutation.permutation a) j = Ok k
              ∧ PyDict.getitem (Permutation.permutation c) i = Ok k.
Proof.
  intros [Hna Ha] [Hnb Hb] Hn.
  set (g := λ i, default 0 (PyDict.get (Permutation.permutation b) i)).
  set (h := λ i, default 0 (PyDict.get (Permutation.permutation a) (g i))).
  assert (Hg : ∀ i, 1 ≤ i ≤ Permutation.num_letters a →
             PyDict.get (Permutation.permutation b) i = Some (g i)
             ∧ 1 ≤ g i ≤ Permutation.num_letters a).
  { intros i Hi. destruct (bij_get _ Hb i) as (v & Hv & Hr); [lia|].
    unfold g. rewrite Hv. simpl. split; [done|lia]. }
  assert (Hh : ∀ i, 1 ≤ i ≤ Permutation.num_letters a →
             PyDict.get (Permutation.permutation a) (g i) = Some (h i)).
  { intros i Hi. destruct (Hg i Hi) as [_ Hr].
    destruct (bij_get _ Ha (g i)) as (v & Hv & _); [lia|].
    unfold h. by rewrite Hv. }
  eexists. split; [|split; [|split]].
  - rewrite (mul_spec a b g h); [reflexivity| |done]. intros i Hi. by apply Hg.
  - simpl. apply len_fmap_seqZ. rewrite Hna. apply len_nonneg.
  - simpl. apply keys_fmap_diag.
  - intros i Hi. exists (g i), (h i). unfold PyDict.getitem.
    destruct (Hg i Hi) as [-> _]. rewrite (Hh i Hi). simpl.
    rewrite get_fmap_diag; [done|]. apply elem_of_seqZ. lia.
Qed.

Lemma C3_composition_witness :
  ∃ c, Permutation.__mul__ swap12 swap12 = Ok c
     ∧ Permutation.num_letters c = 2
     ∧ PyDict.keys (Permutation.permutation c) = seqZ 1 2
     ∧ ∀ i, 1 ≤ i ≤ 2 →
         ∃ j k, PyDict.getitem (Permutation.permutation swap12) i = Ok j
              ∧ PyDict.getitem (Permutation.permutation swap12) j = Ok k
              ∧ PyDict.getitem (Permutation.permutation c) i = Ok k.
Proof.
  apply (C3_composition swap12 swap12 swap12_valid swap12_valid). reflexivity.
Defined.

(** C4: for a valid permutation [p] of degree [n], the inverse is returned,
    [p * ~p] is the identity of degree [n], and [p ** 0] is the identity of
    degree [n]. *)
Theorem C4_inverse_and_zeroth_power (p : Permutation.t) :
  valid p →
  ∃ q r e, Permutation.__invert__ p = Ok q
         ∧ Permutation.__mul__ p q = Ok r
         ∧ Permutation.is_identity r = true
         ∧ Permutation.num_letters r = Permutation.num_letters p
         ∧ Permutation.__pow__ p 0 = Ok e
         ∧ Permutation.is_identity e = true
         ∧ Permutation.num_letters e = Permutation.num_letters p.
Proof.
  intros Hp. pose proof Hp as [Hn Hbij].
  assert (H0 : 0 ≤ Permutation.num_letters p) by (rewrite Hn; apply len_nonneg).
  do 3 eexists. split; [by rewrite invert_spec|].
  split; [|split; [|split; [|split; [|split]]]].
  - set (q := Permutation.mk _ _ _ _ _).
    rewrite (mul_spec p q (λ i, default 0 (PyDict.get (Permutation.permutation q) i)) (λ i, i)).
    + reflexivity.
    + intros i Hi. destruct (bij_surj _ Hbij i) as (k & Hk & _); [lia|].
      subst q; simpl. by rewrite (get_invert p k i Hp Hk).
    + intros i Hi. destruct (bij_surj _ Hbij i) as (k & Hk & _); [lia|].
      subst q; simpl. by rewrite (get_invert p k i Hp Hk).
  - simpl. rewrite len_fmap_seqZ by done. by apply is_identity_diag.
  - simpl. by apply len_fmap_seqZ.
  - unfold Permutation.__pow__. rewrite decide_True by done. reflexivity.
  - simpl. rewrite identity_dict_spec, len_fmap_seqZ by done.
    by apply is_identity_diag.
  - simpl. rewrite identity_dict_spec. by apply len_fmap_seqZ.
Qed.

Lemma C4_inverse_and_zeroth_power_witness :
  ∃ q r e, Permutation.__invert__ swap12 = Ok q
         ∧ Permutation.__mul__ swap12 q = Ok r
         ∧ Permutation.is_identity r = true
         ∧ Permutation.num_letters r = 2
         ∧ Permutation.__pow__ swap12 0 = Ok e
         ∧ Permutation.is_identity e = true
         ∧ Permutation.num_letters e = 2.
Proof. apply (C4_inverse_and_zeroth_power swap12 swap12_valid). Defined.

(** ** Validation of a mapping *)

Lemma of_items_wf (l : list (Z * Z)) : NoDup l.*1 → PyDict.of_items l = l.
Proof.
  intros Hnd. unfold PyDict.of_items.
  rewrite (foldl_setitem_fresh fst snd); [|done|intros ? _; apply not_elem_of_nil].
  simpl. rewrite <-(list_fmap_id l) at 2. apply list_fmap_ext. by intros ? [??].
Qed.

Lemma Sorted_seqZ m n : Sorted Z.le (seqZ m n).
Proof.
  remember (Z.to_nat n) as k eqn:Hk. revert m n Hk.
  induction k as [|k IH]; intros m n Hk.
  - rewrite seqZ_nil by lia. constructor.
  - rewrite seqZ_cons by lia. constructor; [apply IH; lia|].
    destruct (decide (0 < Z.pred n)).
    + rewrite seqZ_cons by lia. constructor. lia.
    + rewrite seqZ_nil by lia. constructor.
Qed.

#[local] Instance item_le_total : Total item_le.
Proof. intros [a1 a2] [b1 b2]. unfold item_le. simpl. lia. Qed.

Lemma sorted_items_perm d : sorted_items d ≡ₚ d.
Proof. apply merge_sort_Permutation. Qed.

Lemma sorted_items_keys d :
  PyDict.keys d ≡ₚ seqZ 1 (PyDict.len d) →
  PyDict.keys (sorted_items d) = seqZ 1 (PyDict.len d).
Proof.
  intros Hk. apply (Sorted_unique Z.le).
  - unfold PyDict.keys. apply (Sorted_fmap fst item_le Z.le).
    + intros [a1 a2] [b1 b2]. unfold item_le. simpl. lia.
    + apply Sorted_merge_sort, _.
  - apply Sorted_seqZ.
  - rewrite <-Hk. unfold PyDict.keys. by rewrite sorted_items_perm.
Qed.

Lemma set_eq_seqZ_perm (vs : list Z) n :
  Z.of_nat (length vs) = n →
  PySet.of_list vs = PySet.of_list (seqZ 1 n) →
  vs ≡ₚ seqZ 1 n.
Proof.
  intros Hlen Hset. symmetry. apply submseteq_length_Permutation.
  - apply NoDup_submseteq; [apply NoDup_seqZ|].
    intros x Hx. unfold PySet.of_list in Hset.
    apply (elem_of_list_to_set (C := gset Z)). rewrite Hset.
    by apply elem_of_list_to_set.
  - rewrite length_seqZ. lia.
Qed.

Lemma validate_permutation_spec d :
  PyDict.wf d →
  (bijection d → Permutation.validate_permutation d = Ok (sorted_items d))
  ∧ (¬ bijection d → Permutation.validate_permutation d = Raise AssertionError).
Proof.
  intros Hwf. unfold Permutation.validate_permutation.
  assert (Hs : PyDict.of_items (sorted_items d) = sorted_items d).
  { apply of_items_wf. by rewrite sorted_items_perm. }
  assert (Hlen : PyDict.len (sorted_items d) = PyDict.len d).
  { unfold PyDict.len. by rewrite sorted_items_perm. }
  assert (Hexp : (λ i, i + 1) <$> seqZ 0 (PyDict.len d) = seqZ 1 (PyDict.len d)).
  { rewrite <-(fmap_add_seqZ 1 0). apply list_fmap_ext. intros; lia. }
  rewrite Hs, Hlen, Hexp. split.
  - intros [Hk Hv]. rewrite bool_decide_eq_true_2 by by apply sorted_items_keys.
    rewrite bool_decide_eq_true_2; [done|].
    unfold PySet.of_list. apply set_eq. intros x.
    rewrite !elem_of_list_to_set. unfold PyDict.values.
    by rewrite sorted_items_perm, <-Hv.
  - intros Hnb. case_bool_decide as Hk; [|done].
    case_bool_decide as Hv; [|done].
    exfalso. apply Hnb. split.
    + rewrite <-Hk. unfold PyDict.keys. by rewrite sorted_items_perm.
    + apply set_eq_seqZ_perm in Hv.
      * rewrite <-Hv. unfold PyDict.values. by rewrite sorted_items_perm.
      * unfold PyDict.values. rewrite length_fmap. apply Hlen.
Qed.

(** ** Construction (C1) *)

(** The constructor stores every mapping as it is and never fails. *)
Lemma construction_never_fails (d : dict) :
  ∃ p, Permutation.__init__ d = Ok p
     ∧ Permutation.permutation p = d
     ∧ Permutation.num_letters p = PyDict.len d.
Proof. eexists. split; [reflexivity|]. by split. Qed.

(** C1 fails on the code: the constructor returns an object for the mapping
    [{1: 2, 2: 2}], which is not a bijection on [{1, 2}]. The static method
    [validate_permutation] asserts the condition of the claim, and rejects
    this mapping, but the constructor does not call it. On the object built,
    tracing the cycle through the point 1 never returns. *)
Theorem C1_constructor_accepts_non_bijection :
  PyDict.wf [(1, 2); (2, 2)]
  ∧ ¬ bijection [(1, 2); (2, 2)]
  ∧ Permutation.validate_permutation [(1, 2); (2, 2)] = Raise AssertionError
  ∧ ∃ p, Permutation.__init__ [(1, 2); (2, 2)] = Ok p
       ∧ Permutation.permutation p = [(1, 2); (2, 2)]
       ∧ Permutation.num_letters p = 2
       ∧ ∀ fuel, Permutation.find_cycle_dict fuel p 1 = OutOfFuel.
Proof.
  assert (Hwf : PyDict.wf [(1, 2); (2, 2)]).
  { unfold PyDict.wf. simpl. by refine (bool_decide_unpack _ _). }
  assert (Hnb : ¬ bijection [(1, 2); (2, 2)]).
  { intros [_ Hv]. simpl in Hv.
    assert (H1 : 1 ∈ seqZ 1 (PyDict.len [(1, 2); (2, 2)])) by (apply elem_of_seqZ; by compute).
    rewrite <-Hv in H1. unfold PyDict.values in H1. simpl in H1.
    repeat (apply elem_of_cons in H1 as [?|H1]; [done|]).
    by apply elem_of_nil in H1. }
  split; [done|]. split; [done|]. split; [by apply validate_permutation_spec|].
  eexists. split; [reflexivity|]. split; [done|]. split; [done|].
  intros fuel. unfold Permutation.find_cycle_dict.
  set (p := {| Permutation.permutation := [(1, 2); (2, 2)] |}).
  assert (Hstuck : ∀ fuel cycle,
            while_loop fuel (Permutation.find_cycle_cond p 1)
              (Permutation.find_cycle_body p) (2, cycle) = OutOfFuel).
  { clear fuel. induction fuel as [|fuel IH]; intros cycle; [done|].
    simpl. apply IH. }
  destruct fuel as [|fuel]; [done|]. simpl. by rewrite Hstuck.
Qed.

(** ** Inequality (C10) *)

(** C10: [a != b] never returns for two permutations nor for two residue
    elements: [__ne__] passes two arguments to the bound method
    [self.__eq__], which takes one, and the call raises a [TypeError]
    before the complement is applied. *)
Theorem C10_ne_always_raises :
  (∀ a b : Permutation.t, Permutation.__ne__ a b = Raise TypeError)
  ∧ (∀ a b : residue_obj, ResidueClass.__ne__ a b = Raise TypeError).
Proof. split; intros a b; reflexivity. Qed.

(** ** Zeroth power of a matrix (C7) *)

(** C7 fails on the code: [M ** 0] calls the constructor without the
    characteristic and raises a [TypeError] for every matrix [M], for
    instance for the 2 x 2 identity over the characteristic 2, whatever the
    inverse routine of the library does. *)
Theorem C7_matrix_pow_zero_raises :
  (∀ (inv_mod : sympy_Matrix → Z → Result sympy_Matrix) (M : Matrix.t),
     Matrix.__pow__ inv_mod M 0 = Raise TypeError)
  ∧ (∃ M, Matrix.__init__ [[1; 0]; [0; 1]] (Some 2) = Ok M
        ∧ Matrix.is_identity M = true
        ∧ ∀ inv_mod, Matrix.__pow__ inv_mod M 0 = Raise TypeError).
Proof.
  split; [intros inv_mod M; reflexivity|].
  eexists. split; [reflexivity|]. split; [reflexivity|]. intros inv_mod. reflexivity.
Qed.

(** ** Floats *)

Example int_true_div_rounds : int_true_div (2 ^ 53 + 1) 1 = Ok (2 ^ 53).
Proof. by vm_compute. Qed.

Example int_true_div_overflow : int_true_div (2 ^ 1024) 1 = Raise OverflowError.
Proof. by vm_compute. Qed.

Example one_third : int_truediv 1 3 = Ok (Finite 6004799503160661 (-54)).
Proof. by vm_compute. Qed.

Example float_product_below_one :
  (w ← int_truediv 1 253; float_mul_int w 253) = Ok (Finite (2 ^ 53 - 1) (-53)).
Proof. by vm_compute. Qed.

Example float_mean_above :
  scaled_mean 91 (91 * 14) 1 = Ok (Finite (14 * 2 ^ 49 + 1) (-49)).
Proof. by vm_compute. Qed.

(** A quotient of integers that is an integer below [2^53] is exact. *)
Lemma int_true_div_exact (q g : Z) :
  0 < g → 0 < q < 2 ^ 53 → int_true_div (q * g) g = Ok q.
Proof.
  intros Hg Hq.
  assert (Hn : 0 < q * g) by nia.
  assert (Hdiv : q * g / g = q) by (apply Z.div_mul; lia).
  assert (HL : 0 ≤ Z.log2 q ≤ 52).
  { split; [apply Z.log2_nonneg|].
    assert (H53 : Z.log2 q < 53)
      by (apply (proj1 (Z.log2_lt_pow2 q 53 ltac:(lia))); lia).
    clear -H53. lia. }
  remember (Z.log2 q) as L eqn:EL.
  assert (Hgn : g ≤ q * g) by (apply Z.divide_pos_le; [lia|by exists q]).
  unfold int_true_div, int_truediv, round_binary64.
  rewrite (decide_False (P := g = 0)) by lia.
  rewrite Z.sgn_pos, Z.mul_1_r, !Z.abs_eq by lia.
  rewrite (decide_False (P := q * g = 0)) by lia.
  unfold binary64_nearest, floor_log2_ratio.
  rewrite (decide_True (P := g ≤ q * g)) by done. rewrite Hdiv, <-EL.
  rewrite (Z.max_l (L - 52)) by lia.
  rewrite (Z.max_r 0 (- (L - 52))) by lia.
  rewrite (Z.max_l 0 (L - 52)) by lia.
  rewrite Z.pow_0_r, Z.mul_1_r.
  assert (Hp : 0 < 2 ^ (- (L - 52))) by (apply Z.pow_pos_nonneg; lia).
  assert (Hround : round_half_even (q * g * 2 ^ (- (L - 52))) g = q * 2 ^ (- (L - 52))).
  { unfold round_half_even.
    replace (q * g * 2 ^ (- (L - 52))) with (q * 2 ^ (- (L - 52)) * g) by ring.
    rewrite Z.mod_mul, Z.div_mul by lia. by rewrite decide_True by lia. }
  rewrite Hround.
  assert (Hno : ¬ 2 ^ 1024 ≤ q * 2 ^ (- (L - 52)) * 2 ^ (L - 52)).
  { destruct (decide (L = 52)) as [->|HL52].
    - change (2 ^ (- (52 - 52))) with 1. change (2 ^ (52 - 52)) with 1.
      assert (2 ^ 53 < 2 ^ 1024) by (apply Z.pow_lt_mono_r; lia). lia.
    - rewrite (Z.pow_neg_r 2 (L - 52)) by lia.
      assert (0 < 2 ^ 1024) by (apply Z.pow_pos_nonneg; lia). lia. }
  rewrite decide_False by done. rewrite Ok_bind. unfold int_of_float. f_equal.
  rewrite Z.sgn_pos, Z.mul_1_l by lia.
  destruct (decide (0 ≤ L - 52)).
  - replace (L - 52) with 0 by lia. change (2 ^ (- 0)) with 1. change (2 ^ 0) with 1. lia.
  - apply Z.quot_mul. lia.
Qed.

Lemma int_true_div_divide (n g : Z) :
  0 < n < 2 ^ 53 → 0 < g → (g | n) → int_true_div n g = Ok (Z.quot n g).
Proof.
  intros Hn Hg [q ->].
  assert (0 < q) by nia. assert (q < 2 ^ 53) by nia.
  rewrite int_true_div_exact by lia. f_equal. symmetry. apply Z.quot_mul. lia.
Qed.

Lemma int_true_div_one (n : Z) : 0 < n < 2 ^ 53 → int_true_div n 1 = Ok n.
Proof.
  intros Hn. pose proof (int_true_div_exact n 1 ltac:(lia) Hn) as H.
  by rewrite Z.mul_1_r in H.
Qed.

(** The reciprocal of a positive integer is a float. *)
Lemma int_truediv_reciprocal (c : Z) : 0 < c → ∃ w, int_truediv 1 c = Ok w.
Proof.
  intros Hc. unfold int_truediv, round_binary64.
  rewrite (decide_False (P := c = 0)) by lia.
  rewrite Z.sgn_pos, Z.mul_1_l, (Z.abs_eq c) by lia.
  rewrite (decide_False (P := 1 = 0)) by done.
  change (Z.abs 1) with 1.
  assert (He : Z.max (floor_log2_ratio 1 c - 52) (-1074) < 0).
  { unfold floor_log2_ratio. case_decide.
    - replace c with 1 by lia. change (Z.log2 (1 / 1)) with 0. lia.
    - pose proof (Z.log2_up_nonneg ((1 + c - 1) / 1)). lia. }
  destruct (binary64_nearest 1 c) as [m e] eqn:Hb.
  unfold binary64_nearest in Hb. injection Hb as _ He'. rewrite He' in He.
  rewrite (Z.pow_neg_r 2 e He), Z.mul_0_r.
  rewrite decide_False; [by eexists|].
  assert (0 < 2 ^ 1024) by (apply Z.pow_pos_nonneg; lia). lia.
Qed.

(** ** Order of the identity (C2) *)

Lemma permutation_identity_order (fuel : nat) (p : Permutation.t) :
  Permutation.is_identity p = true → Permutation.get_order fuel p = Ok 1.
Proof.
  intros Hid. unfold Permutation.get_order.
  destruct fuel; simpl; by rewrite Hid.
Qed.

Lemma permutation_identity_order_property (fuel : nat) (p : Permutation.t) :
  Permutation._order p = None →
  Permutation.is_identity p = true →
  ∃ p', Permutation.order fuel p = Ok (1, p').
Proof.
  intros Hc Hid. unfold Permutation.order.
  rewrite Hc, permutation_identity_order by done. simpl. eauto.
Qed.

Lemma additive_identity_order (r n : Z) (a : residue_obj) :
  0 < n →
  AdditiveResidueClass.__init__ r n = Ok a →
  AdditiveResidueClass.is_identity a = true →
  order a = Some 1 ∧ AdditiveResidueClass.get_order a = Ok 1.
Proof.
  intros Hpos.
  assert (Hone : int_true_div n n = Ok 1).
  { rewrite <-(Z.mul_1_l n) at 1. apply int_true_div_exact; [done|]. split; [lia|done]. }
  unfold AdditiveResidueClass.__init__, ResidueClass.new, py_mod.
  rewrite decide_False by lia. rewrite Ok_bind.
  unfold AdditiveResidueClass.is_identity, AdditiveResidueClass.get_order.
  cbn [ResidueClass.get_order]. unfold math_gcd.
  destruct (decide (r mod n = 0)) as [Hr|Hr].
  - rewrite Hr. rewrite Z.gcd_0_l, Z.abs_eq by lia.
    rewrite Hone. rewrite Ok_bind. intros [= <-] _.
    cbn [order modulus residue]. rewrite Z.gcd_0_l, Z.abs_eq by lia. by rewrite Hone.
  - destruct (int_true_div n (Z.gcd (r mod n) n)); simpl; [|done..].
    intros [= <-]. simpl. by rewrite decide_False.
Qed.

(** C2 fails on the code for the multiplicative residues: the residue 1
    modulo 7 is the identity and its order is computed as 7. The order of a
    multiplicative residue is computed with the formula of the additive
    class, [n / gcd(residue, n)], which gives [n] on the residue 1. *)
Theorem C2_multiplicative_identity_order_7 :
  ∃ a, MultiplicativeResidueClass.__init__ 1 7 = Ok a
     ∧ MultiplicativeResidueClass.is_identity a = true
     ∧ order a = Some 7
     ∧ MultiplicativeResidueClass.get_order a = Ok 7.
Proof. eexists. split; [by vm_compute|]. repeat split. Qed.

Lemma multiplicative_identity_order (n : Z) :
  2 ≤ n < 2 ^ 53 →
  ∃ a, MultiplicativeResidueClass.__init__ 1 n = Ok a
     ∧ MultiplicativeResidueClass.is_identity a = true
     ∧ order a = Some n.
Proof.
  intros Hn. unfold MultiplicativeResidueClass.__init__, ResidueClass.new, py_mod.
  rewrite decide_False by lia. rewrite Ok_bind. cbn [ResidueClass.get_order].
  rewrite Z.mod_1_l by lia. unfold math_gcd. rewrite Z.gcd_1_l.
  rewrite int_true_div_one by lia.
  eexists. split; [reflexivity|]. by split.
Qed.

(** ** Equal-order probability (C9) *)

Lemma length_filter_fmap {A B} (f : B → A) (P : A → Prop) `{!∀ x, Decision (P x)} (l : list B) :
  length (filter P (f <$> l)) = length (filter (λ x, P (f x)) l).
Proof.
  induction l as [|x l IH]; [done|].
  rewrite fmap_cons, !filter_cons. destruct (decide (P (f x))); simpl; by rewrite IH.
Qed.

Lemma length_filter_cons {A} (P : A → Prop) `{!∀ x, Decision (P x)} (a : A) (l : list A) :
  length (filter P (a :: l))
  = ((if decide (P a) then 1 else 0) + length (filter P l))%nat.
Proof. rewrite filter_cons. by destruct (decide (P a)). Qed.

Lemma length_filter_ext {A} (P Q : A → Prop) `{!∀ x, Decision (P x)} `{!∀ x, Decision (Q x)}
    (l : list A) :
  (∀ x, x ∈ l → P x ↔ Q x) → length (filter P l) = length (filter Q l).
Proof.
  induction l as [|x l IH]; intros Hext; [done|].
  rewrite !filter_cons.
  assert (HPQ : P x ↔ Q x) by (apply Hext; left).
  assert (Hl : length (filter P l) = length (filter Q l)).
  { apply IH. intros y Hy. apply Hext. by right. }
  destruct (decide (P x)), (decide (Q x)); simpl; try tauto; by rewrite Hl.
Qed.

Lemma length_filter_none {A} (P : A → Prop) `{!∀ x, Decision (P x)} (l : list A) :
  (∀ x, x ∈ l → ¬ P x) → length (filter P l) = 0%nat.
Proof.
  induction l as [|x l IH]; intros Hn; [done|].
  rewrite filter_cons. destruct (decide (P x)) as [HP|_].
  - exfalso. by apply (Hn x); [left|].
  - apply IH. intros y Hy. apply Hn. by right.
Qed.

Lemma length_filter_list_prod {A B} (Q : A * B → Prop) `{!∀ x, Decision (Q x)}
    (l : list A) (k : list B) :
  length (filter Q (list_prod l k))
  = sum_list ((λ a, length (filter (λ b, Q (a, b)) k)) <$> l).
Proof.
  induction l as [|a l IH]; [done|].
  simpl. rewrite filter_app, length_app, IH. f_equal.
  apply (length_filter_fmap (pair a) Q).
Qed.


Section EqualOrder.

Context {E : Type}.
Variable elt_order : E → Z.

(** Counting the positions [j] of [g] is counting its elements. *)
Lemma length_filter_positions (R : option Z → Prop) `{!∀ o, Decision (R o)} (g : list E) :
  length (filter (λ j : nat, R (elt_order <$> g !! j)) (seq 0 (length g)))
  = length (filter (λ y, R (Some (elt_order y))) g).
Proof.
  induction g as [|x g IH]; [done|].
  cbn [length]. rewrite <-cons_seq, <-fmap_S_seq.
  rewrite !length_filter_cons, (length_filter_fmap S). simpl. by rewrite IH.
Qed.

Lemma cwr2_cons (x : E) (g : list E) :
  combinations_with_replacement_2 (x :: g)
  = (pair x <$> x :: g) ++ combinations_with_replacement_2 g.
Proof. reflexivity. Qed.

Lemma sum_seq_S (F : nat → nat) (n : nat) :
  sum_list (F <$> seq 0 (S n)) = (F 0%nat + sum_list ((λ i, F (S i)) <$> seq 0 n))%nat.
Proof.
  rewrite <-cons_seq, <-fmap_S_seq, fmap_cons, <-list_fmap_compose. reflexivity.
Qed.

Lemma equal_order_count_spec (g : list E) :
  length (filter (λ pair : E * E, elt_order pair.1 = elt_order pair.2)
            (combinations_with_replacement_2 g))
  = equal_order_pairs elt_order g.
Proof.
  unfold equal_order_pairs. rewrite length_filter_list_prod.
  induction g as [|x g IH]; [done|].
  rewrite cwr2_cons, filter_app, length_app, IH. clear IH.
  cbn [length]. symmetry. etrans; [apply sum_seq_S|]. symmetry.
  f_equal.
  - rewrite (length_filter_fmap (pair x)).
    etrans; [apply (length_filter_ext _ (λ y, Some (elt_order x) = Some (elt_order y)))|].
    { intros y _. simpl. split; [by intros ->|by intros [= ->]]. }
    rewrite <-(length_filter_positions (λ o, Some (elt_order x) = o) (x :: g)).
    apply length_filter_ext. intros j _. simpl.
    split; [|by intros [_ ?]]. intros ?. split; [lia|done].
  - f_equal. apply list_fmap_ext. intros _ i _.
    rewrite <-cons_seq, <-fmap_S_seq.
    rewrite length_filter_cons, decide_False by (simpl; lia).
    rewrite (length_filter_fmap S). apply length_filter_ext.
    intros j _. simpl. split; intros [? ?]; (split; [lia|done]).
Qed.

End EqualOrder.

Lemma binomial_0 (n : nat) : binomial n 0 = 1%nat.
Proof. by destruct n. Qed.

Lemma binomial_1 (n : nat) : binomial n 1 = n.
Proof.
  induction n as [|n IH]; [done|].
  change (binomial (S n) 1) with (binomial n 0 + binomial n 1)%nat.
  rewrite binomial_0, IH. lia.
Qed.

Lemma binomial_2 (n : nat) : (2 * binomial (S n) 2 = n * (n + 1))%nat.
Proof.
  induction n as [|n IH]; [done|].
  change (binomial (S (S n)) 2) with (binomial (S n) 1 + binomial (S n) 2)%nat.
  rewrite binomial_1. nia.
Qed.

(** C9: for a non-empty group of [n] elements, [equal_order_probability]
    returns the number of unordered pairs with repetition of its elements
    whose orders are equal, divided by the binomial coefficient
    [C(n + 1, 2) = n (n + 1) / 2]. *)
Theorem C9_equal_order_probability {E} (elt_order : E → Z)
    (group : Invariants.Group (E := E)) :
  Invariants.elements group ≠ [] →
  let n := Invariants.group_order group in
  let c := Z.of_nat (binomial (Z.to_nat (n + 1)) 2) in
  Invariants.equal_order_probability elt_order group
  = Ok (Qdiv (inject_Z (Z.of_nat (equal_order_pairs elt_order (Invariants.elements group))))
              (inject_Z c))
  ∧ 2 * c = n * (n + 1)
  ∧ 0 < c.
Proof.
  intros Hne n c.
  assert (Hn : 0 < n).
  { subst n. unfold Invariants.group_order.
    destruct (Invariants.elements group); [done|]. simpl. lia. }
  assert (Hc : 2 * c = n * (n + 1)).
  { subst c. replace (Z.to_nat (n + 1)) with (S (Z.to_nat n)) by lia.
    pose proof (binomial_2 (Z.to_nat n)). nia. }
  split; [|split; [done|nia]].
  unfold Invariants.equal_order_probability, math_comb.
  rewrite decide_False by (fold n; lia). rewrite Ok_bind. fold n.
  change (Z.to_nat 2) with 2%nat. fold c.
  unfold true_div. rewrite decide_False by nia.
  by rewrite equal_order_count_spec.
Qed.

Lemma C9_equal_order_probability_witness :
  Invariants.equal_order_probability (λ x : Z, x) (Invariants.mk_Group [1; 2; 2; 3])
  = Ok (Qdiv (inject_Z (Z.of_nat (equal_order_pairs (λ x : Z, x) [1; 2; 2; 3])))
              (inject_Z (Z.of_nat (binomial (Z.to_nat (4 + 1)) 2))))
  ∧ 2 * Z.of_nat (binomial (Z.to_nat (4 + 1)) 2) = 4 * (4 + 1)
  ∧ 0 < Z.of_nat (binomial (Z.to_nat (4 + 1)) 2).
Proof.
  apply (C9_equal_order_probability (λ x : Z, x) (Invariants.mk_Group [1; 2; 2; 3])).
  discriminate.
Defined.

(** ** Euler's theorem and the multiplicative inverse (C6) *)

Lemma length_List_filter_map {A B} (f : A → B) (p : B → bool) (l : list A) :
  length (List.filter p (map f l)) = length (filter (λ x, p (f x) = true) l).
Proof.
  induction l as [|x l IH]; [done|].
  simpl. rewrite filter_cons. destruct (p (f x)); simpl; by rewrite IH.
Qed.

(** The units of [Z/nZ] enumerated by the standard library are as many as
    the integers of [1..n] coprime to [n]. *)
Lemma length_Zstar_elements (n : Z) :
  1 ≤ n → Z.of_nat (length (Zstar.elements n)) = totient_count n.
Proof.
  intros Hn. unfold totient_count, Zstar.elements, Zmod.elements. f_equal.
  destruct (Z.eqb_spec n 0) as [?|_]; [lia|].
  rewrite List.length_map, length_List_filter_map.
  destruct (Z.abs_nat n) as [|M] eqn:HM; [lia|].
  assert (Hseq : seqZ 1 n = (λ i : nat, Z.of_nat (S i)) <$> seq 0 (S M)).
  { unfold seqZ. replace (Z.to_nat n) with (S M) by lia.
    apply list_fmap_ext. intros; lia. }
  assert (Hgcd : ∀ z, Z.gcd (Zmod.to_Z (Zmod.of_Z n z)) n = Z.gcd z n).
  { intros z. by rewrite (Zmod.to_Z_of_Z z), Z.gcd_mod_l. }
  rewrite Hseq, (length_filter_fmap (λ i : nat, Z.of_nat (S i))).
  rewrite seq_S at 2. rewrite filter_app, length_app.
  rewrite <-cons_seq, <-fmap_S_seq, length_filter_cons, (length_filter_fmap S).
  rewrite Nat.add_comm. f_equal.
  - apply length_filter_ext. intros i _. rewrite Hgcd. apply Z.eqb_eq.
  - rewrite length_filter_cons, filter_nil, Hgcd. simpl length. cbv beta.
    replace (Z.of_nat (S (0 + M))) with n by lia. change (Z.of_nat 0) with 0.
    rewrite Z.gcd_0_l, Z.gcd_diag, Nat.add_0_r.
    destruct (decide (Z.abs n = 1)) as [Heq|Hne].
    + by rewrite Heq.
    + rewrite decide_False; [done|]. by intros ?%Z.eqb_eq.
Qed.

Lemma euler (a n : Z) :
  1 ≤ n → Z.gcd a n = 1 → a ^ totient_count n mod n = 1 mod n.
Proof.
  intros Hn Hg. rewrite <-length_Zstar_elements by done.
  assert (Hc : Z.coprime (Zmod.to_Z (Zmod.of_Z n a)) n).
  { unfold Z.coprime. by rewrite Zmod.to_Z_of_Z, Z.gcd_mod_l. }
  pose proof (Zstar.euler (Zstar.of_Zmod (Zmod.of_Z n a))) as He.
  apply (f_equal Zstar.to_Zmod) in He.
  rewrite Zstar.to_Zmod_pow, Zstar.to_Zmod_of_Zmod, Zstar.to_Zmod_1 in He by done.
  apply (f_equal Zmod.to_Z) in He.
  rewrite Zmod.unsigned_pow_nonneg_r, Zmod.to_Z_of_Z in He by lia.
  rewrite Z.mod_pow_l in He.
  rewrite He. unfold Zmod.one. by rewrite Zmod.to_Z_of_Z.
Qed.

Lemma totient_count_pos (n : Z) : 1 ≤ n → 1 ≤ totient_count n.
Proof.
  intros Hn. unfold totient_count.
  assert (H1 : 1 ∈ filter (λ k, Z.gcd k n = 1) (seqZ 1 n)).
  { apply list_elem_of_filter. split; [apply Z.gcd_1_l|]. apply elem_of_seqZ. lia. }
  destruct (filter _ _); [by apply elem_of_nil in H1|]. simpl. lia.
Qed.

(** What a constructor of the residue classes returned: the residue is
    reduced, and the order is the one [get_order] computes. *)
Lemma residue_new_inv (c : residue_cls) (r n : Z) (x : residue_obj) :
  ResidueClass.new c r n = Ok x →
  n ≠ 0
  ∧ x = {| cls := c; modulus := n; residue := r mod n; order := order x |}
  ∧ ResidueClass.get_order c (r mod n) n = Ok (order x).
Proof.
  unfold ResidueClass.new, py_mod. case_decide as Hn; [done|]. rewrite Ok_bind.
  destruct (ResidueClass.get_order c (r mod n) n) as [o| |]; simpl; [|done..].
  intros [= <-]. done.
Qed.

(** The order depends on the residue through its gcd with the modulus. *)
Lemma residue_new_same (c : residue_cls) (r r' n : Z) (x : residue_obj) :
  ResidueClass.new c r n = Ok x →
  Z.gcd (r' mod n) n = Z.gcd (r mod n) n →
  ResidueClass.new c r' n
  = Ok {| cls := c; modulus := n; residue := r' mod n; order := order x |}.
Proof.
  intros (Hn & _ & Ho)%residue_new_inv Hg.
  unfold ResidueClass.new, py_mod. rewrite decide_False by done. rewrite Ok_bind.
  assert (Ho' : ResidueClass.get_order c (r' mod n) n = Ok (order x)).
  { revert Ho. unfold ResidueClass.get_order, math_gcd. by rewrite Hg. }
  by rewrite Ho'.
Qed.

(** Below [2^53] the constructors return. *)
Lemma residue_new_spec (c : residue_cls) (r n : Z) :
  0 < n < 2 ^ 53 →
  ∃ o, ResidueClass.new c r n
       = Ok {| cls := c; modulus := n; residue := r mod n; order := o |}.
Proof.
  intros Hn. unfold ResidueClass.new, py_mod.
  rewrite decide_False by lia. rewrite Ok_bind.
  destruct c; simpl; [by eexists|..]; unfold math_gcd;
    (rewrite int_true_div_divide; [by eexists|done| |apply Z.gcd_divide_r]);
    (pose proof (Z.gcd_nonneg (r mod n) n);
     assert (Z.gcd (r mod n) n ≠ 0) by (intros [_ ?]%Z.gcd_eq_0; lia); lia).
Qed.

(** The claim C6 fails for the modulus 1: the only residue is 0, it is
    invertible, and the product with its inverse has the residue 0, not 1,
    and is not recognised by [is_identity]. *)
Lemma C6_counterexample :
  ∃ x y e, MultiplicativeResidueClass.__init__ 0 1 = Ok x
         ∧ math_gcd (residue x) (modulus x) = 1
         ∧ MultiplicativeResidueClass.__invert__ x = Ok y
         ∧ MultiplicativeResidueClass.__mul__ x y = Ok e
         ∧ residue e ≠ 1
         ∧ MultiplicativeResidueClass.is_identity e = false.
Proof.
  exists {| cls := Multiplicative_cls; modulus := 1; residue := 0; order := Some 1 |},
         {| cls := Multiplicative_cls; modulus := 1; residue := 0; order := Some 1 |},
         {| cls := Multiplicative_cls; modulus := 1; residue := 0; order := Some 1 |}.
  repeat split; by vm_compute.
Qed.

(** C6, amended: for every multiplicative residue [a] mod [n], [n ≥ 1],
    that the constructor built, inversion fails (with the error of a
    non-invertible element) if and only if [gcd(a, n) ≠ 1]; when
    [gcd(a, n) = 1] the inverse has the residue [a^(φ(n) − 1) mod n], and for
    [n ≥ 2] the product [a * inverse(a)] has the residue 1 and is the
    multiplicative identity. The constructor builds the residue for every
    modulus below [2^53]; the order [int(n / gcd)] that it computes can
    overflow for a modulus beyond the range of the floats. For [n = 7] and
    [a = 3] the inverse has the residue 5. *)
Theorem C6_multiplicative_inverse :
  (∀ (a n : Z) (x : residue_obj),
     1 ≤ n →
     MultiplicativeResidueClass.__init__ a n = Ok x →
     (MultiplicativeResidueClass.__invert__ x = Raise ValueError ↔ Z.gcd a n ≠ 1)
     ∧ (Z.gcd a n = 1 →
          ∃ y, MultiplicativeResidueClass.__invert__ x = Ok y
             ∧ residue y = a ^ (totient_count n - 1) mod n
             ∧ modulus y = n
             ∧ (2 ≤ n →
                  ∃ e, MultiplicativeResidueClass.__mul__ x y = Ok e
                     ∧ residue e = 1
                     ∧ MultiplicativeResidueClass.is_identity e = true)))
  ∧ (∀ a n : Z, 1 ≤ n < 2 ^ 53 →
       ∃ x, MultiplicativeResidueClass.__init__ a n = Ok x)
  ∧ MultiplicativeResidueClass.__init__ 1 (2 ^ 1024) = Raise OverflowError
  ∧ (∃ x y, MultiplicativeResidueClass.__init__ 3 7 = Ok x
          ∧ MultiplicativeResidueClass.__invert__ x = Ok y
          ∧ residue y = 5).
Proof.
  split; [|split; [|split]].
  - intros a n x Hn Hx. unfold MultiplicativeResidueClass.__init__ in Hx.
    pose proof (residue_new_inv _ _ _ _ Hx) as (_ & Ex & _).
    pose proof (totient_count_pos n Hn) as Hphi.
    assert (Hinv : Z.gcd a n = 1 →
      MultiplicativeResidueClass.__invert__ x
      = Ok {| cls := Multiplicative_cls; modulus := n;
              residue := a ^ (totient_count n - 1) mod n; order := order x |}).
    { intros Hg. rewrite Ex at 1.
      unfold MultiplicativeResidueClass.__invert__, math_gcd.
      cbn [residue modulus]. rewrite Z.gcd_mod_l, decide_False by (intros ?; done).
      unfold sympy_totient. rewrite decide_False by lia. rewrite Ok_bind.
      unfold MultiplicativeResidueClass.__init__.
      rewrite (residue_new_same _ a _ n x Hx).
      - by rewrite Z.mod_pow_l.
      - rewrite !Z.gcd_mod_l, Hg. apply Z.coprime_pow_l; [lia|].
        unfold Z.coprime. by rewrite Z.gcd_mod_l. }
    split.
    + destruct (decide (Z.gcd a n = 1)) as [Hg|Hg].
      * rewrite (Hinv Hg). split; [done|]. intros Hne. by destruct Hne.
      * split; [done|]. intros _. rewrite Ex.
        unfold MultiplicativeResidueClass.__invert__, math_gcd.
        cbn [residue modulus]. by rewrite Z.gcd_mod_l, decide_True.
    + intros Hg. eexists. split; [exact (Hinv Hg)|]. split; [done|]. split; [done|].
      intros Hn2.
      assert (H1 : (a mod n * (a ^ (totient_count n - 1) mod n)) mod n = 1).
      { rewrite <-Z.mul_mod by lia. rewrite <-Z.pow_succ_r by lia.
        replace (Z.succ (totient_count n - 1)) with (totient_count n) by lia.
        rewrite euler by (done || lia). apply Z.mod_1_l. lia. }
      exists {| cls := Multiplicative_cls; modulus := n; residue := 1; order := order x |}.
      split; [|split; [done|done]].
      rewrite Ex at 1. unfold MultiplicativeResidueClass.__mul__.
      cbn [residue modulus]. rewrite decide_False by (intros ?; done).
      unfold py_mod. rewrite decide_False by lia. rewrite Ok_bind.
      unfold MultiplicativeResidueClass.__init__. rewrite H1.
      rewrite (residue_new_same _ a 1 n x Hx).
      * by rewrite Z.mod_1_l by lia.
      * rewrite !Z.gcd_mod_l, Hg. apply Z.gcd_1_l.
  - intros a n Hn. unfold MultiplicativeResidueClass.__init__.
    destruct (residue_new_spec Multiplicative_cls a n) as [o Ho]; [lia|]. eauto.
  - by vm_compute.
  - exists {| cls := Multiplicative_cls; modulus := 7; residue := 3; order := Some 7 |},
           {| cls := Multiplicative_cls; modulus := 7; residue := 5; order := Some 7 |}.
    repeat split; by vm_compute.
Qed.

Lemma C6_multiplicative_inverse_witness :
  (MultiplicativeResidueClass.__invert__
     {| cls := Multiplicative_cls; modulus := 7; residue := 3; order := Some 7 |}
   = Raise ValueError ↔ Z.gcd 3 7 ≠ 1)
  ∧ (Z.gcd 3 7 = 1 →
       ∃ y, MultiplicativeResidueClass.__invert__
              {| cls := Multiplicative_cls; modulus := 7; residue := 3; order := Some 7 |}
            = Ok y
          ∧ residue y = 3 ^ (totient_count 7 - 1) mod 7
          ∧ modulus y = 7
          ∧ (2 ≤ 7 →
               ∃ e, MultiplicativeResidueClass.__mul__
                      {| cls := Multiplicative_cls; modulus := 7; residue := 3;
                         order := Some 7 |} y
                    = Ok e
                  ∧ residue e = 1
                  ∧ MultiplicativeResidueClass.is_identity e = true)).
Proof.
  apply (proj1 C6_multiplicative_inverse 3 7); [lia|by vm_compute].
Defined.

(** ** Cycles of a bijection *)

Section Cycles.

Variable d : dict.
Hypothesis Hbij : bijection d.

Local Abbreviation n := (PyDict.len d).

Lemma image_get i : 1 ≤ i ≤ n → PyDict.get d i = Some (image d i).
Proof.
  intros Hi. destruct (bij_get d Hbij i Hi) as (v & Hv & _).
  unfold image. by rewrite Hv.
Qed.

Lemma image_range i : 1 ≤ i ≤ n → 1 ≤ image d i ≤ n.
Proof.
  intros Hi. destruct (bij_get d Hbij i Hi) as (v & Hv & Hr).
  unfold image. by rewrite Hv.
Qed.

Lemma image_inj i j : 1 ≤ i ≤ n → 1 ≤ j ≤ n → image d i = image d j → i = j.
Proof.
  intros Hi Hj Heq. apply (bij_inj d Hbij i j (image d i)).
  - by apply image_get.
  - rewrite Heq. by apply image_get.
Qed.

Lemma bounded_NoDup_length (l : list Z) :
  NoDup l → (∀ x, x ∈ l → 1 ≤ x ≤ n) → (length l ≤ length d)%nat.
Proof.
  intros Hnd Hr.
  assert (Hsub : l ⊆+ seqZ 1 n).
  { apply NoDup_submseteq; [done|]. intros x Hx%Hr. apply elem_of_seqZ. lia. }
  apply submseteq_length in Hsub. rewrite length_seqZ in Hsub.
  unfold PyDict.len in Hsub. lia.
Qed.

Lemma elem_of_snoc (x y : Z) (l : list Z) : x ∈ l ++ [y] ↔ x ∈ l ∨ x = y.
Proof. by rewrite elem_of_app, list_elem_of_singleton. Qed.

Lemma NoDup_snoc (l : list Z) (x : Z) : x ∉ l → NoDup l → NoDup (l ++ [x]).
Proof.
  intros Hx Hnd. apply NoDup_app. split; [done|]. split; [|apply NoDup_singleton].
  intros y Hy Hyx. apply list_elem_of_singleton in Hyx. by subst y.
Qed.

Lemma tracing_start start : 1 ≤ start ≤ n → tracing d start start [].
Proof.
  intros Hs. split; [|split].
  - apply NoDup_singleton.
  - intros v Hv%list_elem_of_singleton. by subst v.
  - intros v Hv%list_elem_of_singleton. by subst v.
Qed.

Lemma tracing_step start current visited :
  tracing d start current visited →
  image d current ≠ start →
  tracing d start (image d current) (visited ++ [current]).
Proof.
  intros (Hnd & Hr & Hpre) Hne.
  assert (Hc : 1 ≤ current ≤ n) by (apply Hr; left).
  apply NoDup_cons in Hnd as [Hcv Hnd].
  split; [|split].
  - apply NoDup_cons. split; [|by apply NoDup_snoc].
    intros Hin. destruct (Hpre (image d current)) as (u & Hu & Heq); [|done|].
    { apply elem_of_snoc in Hin as [?|Heq]; [by right|rewrite Heq; left]. }
    apply image_inj in Heq; [|apply Hr; by right|done]. by subst u.
  - intros v [->|Hv]%elem_of_cons; [by apply image_range|].
    apply Hr. apply elem_of_snoc in Hv as [?|Heq]; [by right|rewrite Heq; left].
  - intros v [->|Hv]%elem_of_cons Hvs.
    + exists current. split; [|done]. apply elem_of_snoc. by right.
    + destruct (Hpre v) as (u & Hu & Heq); [|done|].
      { apply elem_of_snoc in Hv as [?|Heq]; [by right|rewrite Heq; left]. }
      exists u. split; [|done]. apply elem_of_snoc. by left.
Qed.

Lemma tracing_length start current visited :
  tracing d start current visited → (S (length visited) ≤ length d)%nat.
Proof.
  intros (Hnd & Hr & _). by apply (bounded_NoDup_length (current :: visited)).
Qed.

Lemma trace_spec start m : ∀ current visited,
  tracing d start current visited →
  (length d ≤ m + length visited)%nat →
  (∃ l, trace d start current m = current :: l)
  ∧ NoDup (visited ++ trace d start current m)
  ∧ (∀ x, x ∈ trace d start current m → 1 ≤ x ≤ n)
  ∧ is_path (image d) (trace d start current m) start.
Proof.
  induction m as [|m IH]; intros current visited Htr Hm.
  - apply tracing_length in Htr. lia.
  - pose proof Htr as (Hnd & Hr & _). simpl.
    destruct (decide (image d current = start)) as [Heq|Hne].
    + split; [by eexists|]. split; [|split; [|done]].
      * apply NoDup_cons in Hnd as [? ?]. by apply NoDup_snoc.
      * intros x Hx%list_elem_of_singleton. subst x. apply Hr. left.
    + destruct (IH (image d current) (visited ++ [current])) as ((l & Hl) & Hnd' & Hr' & Hp).
      { by apply tracing_step. }
      { rewrite length_app. simpl. lia. }
      split; [by eexists|]. split; [|split].
      * by rewrite <-app_assoc in Hnd'.
      * intros x [->|Hx]%elem_of_cons; [apply Hr; left|by apply Hr'].
      * rewrite Hl. split; [done|]. by rewrite <-Hl.
Qed.


(** *** Paths *)

Lemma path_closed (f : Z → Z) l target x :
  is_path f l target → x ∈ l → f x ∈ l ∨ f x = target.
Proof.
  induction l as [|y l IH]; intros Hp Hx; [by apply elem_of_nil in Hx|].
  destruct l as [|z l].
  - apply list_elem_of_singleton in Hx. subst x. by right.
  - destruct Hp as [Hyz Hp]. apply elem_of_cons in Hx as [->|Hx].
    + left. rewrite Hyz. right. left.
    + destruct (IH Hp Hx) as [?|?]; [left; by right|by right].
Qed.

(** A set closed under [f] that meets a path contains its target. *)
Lemma path_reach (f : Z → Z) (P : Z → Prop) l target x :
  (∀ y, P y → P (f y)) →
  is_path f l target → x ∈ l → P x → P target.
Proof.
  intros Hcl. revert x.
  induction l as [|y l IH]; intros x Hp Hx HP; [by apply elem_of_nil in Hx|].
  destruct l as [|z l].
  - apply list_elem_of_singleton in Hx. subst x. rewrite <-Hp. by apply Hcl.
  - destruct Hp as [Hyz Hp]. apply elem_of_cons in Hx as [->|Hx].
    + apply (IH z Hp); [left|]. rewrite <-Hyz. by apply Hcl.
    + by apply (IH x Hp).
Qed.

(** *** The cycle through a point *)

Lemma cycle_of_spec k :
  1 ≤ k ≤ n →
  (∃ l, cycle_of d k = k :: l)
  ∧ NoDup (cycle_of d k)
  ∧ (∀ x, x ∈ cycle_of d k → 1 ≤ x ≤ n)
  ∧ is_path (image d) (cycle_of d k) k.
Proof.
  intros Hk. unfold cycle_of.
  apply (trace_spec k (length d) k []); [by apply tracing_start|simpl; lia].
Qed.

Lemma cycle_of_head k : 1 ≤ k ≤ n → k ∈ cycle_of d k.
Proof. intros Hk. destruct (cycle_of_spec k Hk) as ((l & ->) & _). left. Qed.

Lemma cycle_of_closed k x :
  1 ≤ k ≤ n → x ∈ cycle_of d k → image d x ∈ cycle_of d k.
Proof.
  intros Hk Hx. destruct (cycle_of_spec k Hk) as (_ & _ & _ & Hp).
  destruct (path_closed _ _ _ x Hp Hx) as [?|Heq]; [done|].
  rewrite Heq. by apply cycle_of_head.
Qed.

Lemma cycle_of_fixed k : image d k = k → cycle_of d k = match length d with O => [] | S _ => [k] end.
Proof.
  intros Hk. unfold cycle_of. destruct (length d); [done|].
  simpl. by rewrite decide_True.
Qed.

Lemma cycle_of_trivial k :
  1 ≤ k ≤ n → (length (cycle_of d k) ≤ 1)%nat → image d k = k.
Proof.
  intros Hk Hlen. destruct (cycle_of_spec k Hk) as ((l & Hl) & _ & _ & Hp).
  rewrite Hl in Hp, Hlen. destruct l; [done|simpl in Hlen; lia].
Qed.

(** *** Discovery *)

Lemma discover_cover starts seen k :
  (∀ x, x ∈ starts → 1 ≤ x ≤ n) →
  k ∈ starts → k ∈ concat (discover d starts seen) ++ seen.
Proof.
  revert seen. induction starts as [|s starts IH]; intros seen Hr Hk.
  - by apply elem_of_nil in Hk.
  - simpl. apply elem_of_cons in Hk as [->|Hk].
    + case_decide as Hs; [apply elem_of_app; by right|].
      simpl. rewrite <-app_assoc. apply elem_of_app. left.
      apply cycle_of_head, Hr. left.
    + assert (Hr' : ∀ x, x ∈ starts → 1 ≤ x ≤ n) by (intros; apply Hr; by right).
      case_decide as Hs; [by apply IH|].
      simpl. rewrite <-app_assoc.
      specialize (IH (cycle_of d s ++ seen) Hr' Hk).
      rewrite !elem_of_app in *. tauto.
Qed.

(** The cycles found are cycles of points of [starts], they are pairwise
    disjoint and disjoint from the points seen before. *)
Lemma discover_spec starts seen :
  (∀ x, x ∈ starts → 1 ≤ x ≤ n) →
  NoDup seen →
  (∀ x, x ∈ seen → image d x ∈ seen) →
  NoDup (concat (discover d starts seen) ++ seen)
  ∧ Forall (λ c, ∃ k, k ∈ starts ∧ c = cycle_of d k) (discover d starts seen).
Proof.
  revert seen. induction starts as [|s starts IH]; intros seen Hr Hnd Hcl.
  - simpl. split; [done|constructor].
  - assert (Hr' : ∀ x, x ∈ starts → 1 ≤ x ≤ n) by (intros; apply Hr; by right).
    assert (Hs : 1 ≤ s ≤ n) by (apply Hr; left).
    simpl. case_decide as Hin.
    + destruct (IH seen Hr' Hnd Hcl) as [H1 H2]. split; [done|].
      eapply Forall_impl; [exact H2|]. intros c (k & ? & ?). exists k. split; [by right|done].
    + destruct (IH (cycle_of d s ++ seen)) as [H1 H2]; [done| | |].
      * apply NoDup_app. split; [apply (cycle_of_spec s Hs)|]. split; [|done].
        intros x Hx Hxs. apply Hin.
        destruct (cycle_of_spec s Hs) as (_ & _ & _ & Hp).
        by apply (path_reach (image d) (λ y, y ∈ seen) _ s x Hcl Hp).
      * intros x [Hx|Hx]%elem_of_app; apply elem_of_app;
          [left; by apply cycle_of_closed|right; by apply Hcl].
      * split.
        -- simpl. rewrite <-app_assoc.
           eapply NoDup_Permutation_proper; [|exact H1].
           rewrite !app_assoc. f_equiv. apply Permutation_app_comm.
        -- constructor; [exists s; split; [left|done]|].
           eapply Forall_impl; [exact H2|]. intros c (k & ? & ?).
           exists k. split; [by right|done].
Qed.

End Cycles.

(** ** The tracing loops of the code *)

Lemma while_loop_false {S} fuel (cond : S → Result bool) body st :
  cond st = Ok false → while_loop fuel cond body st = Ok st.
Proof. intros Hc. destruct fuel; simpl; by rewrite Hc. Qed.

Lemma while_loop_true {S} fuel (cond : S → Result bool) body st :
  cond st = Ok true →
  while_loop (Datatypes.S fuel) cond body st = body st ≫= while_loop fuel cond body.
Proof. intros Hc. simpl. by rewrite Hc. Qed.

Lemma iter_keys d : bijection d → PySet.iter (PySet.of_list (PyDict.keys d)) = seqZ 1 (PyDict.len d).
Proof.
  intros Hbij. unfold PySet.iter, PySet.of_list. apply (Sorted_unique Z.le).
  - apply Sorted_merge_sort, _.
  - apply Sorted_seqZ.
  - rewrite merge_sort_Permutation, elements_list_to_set by apply (bij_wf d Hbij).
    apply Hbij.
Qed.

Lemma iter_spec (s : gset Z) : NoDup (PySet.iter s) ∧ ∀ x, x ∈ PySet.iter s ↔ x ∈ s.
Proof.
  unfold PySet.iter. split.
  - rewrite merge_sort_Permutation. apply NoDup_elements.
  - intros x. by rewrite merge_sort_Permutation, elem_of_elements.
Qed.

Lemma iter_enumerates : enumerates PySet.iter.
Proof. exact iter_spec. Qed.

Section Code.

Variable p : Permutation.t.

Local Abbreviation d := (Permutation.permutation p).
Local Abbreviation n := (PyDict.len (Permutation.permutation p)).

Hypothesis Hn : Permutation.num_letters p = n.
Hypothesis Hbij : bijection d.

Variable set_order : gset Z → list Z.
Hypothesis Horder : enumerates set_order.

Lemma find_cycle_cond_eq start current acc v :
  PyDict.getitem d current = Ok v →
  Permutation.find_cycle_cond p start (current, acc) = Ok (bool_decide (v ≠ start)).
Proof. intros H. unfold Permutation.find_cycle_cond. by rewrite H. Qed.

Lemma find_cycle_body_eq current acc v :
  PyDict.getitem d current = Ok v →
  Permutation.find_cycle_body p (current, acc) = Ok (v, PyDict.setitem acc current v).
Proof. intros H. unfold Permutation.find_cycle_body. by rewrite H. Qed.

Lemma find_cycle_close_eq current acc v :
  PyDict.getitem d current = Ok v →
  Permutation.find_cycle_close p (current, acc) = Ok (PyDict.setitem acc current v).
Proof. intros H. unfold Permutation.find_cycle_close. by rewrite H. Qed.

Lemma find_cycle_loop_spec start m : ∀ current visited acc fuel,
  tracing d start current visited →
  PyDict.keys acc = visited →
  (length d ≤ m + length visited)%nat →
  (m ≤ fuel)%nat →
  while_loop fuel (Permutation.find_cycle_cond p start) (Permutation.find_cycle_body p)
    (current, acc) ≫= Permutation.find_cycle_close p
  = Ok (acc ++ ((λ i, (i, image d i)) <$> trace d start current m)).
Proof.
  induction m as [|m IH]; intros current visited acc fuel Htr Hacc Hm Hfuel.
  - apply tracing_length in Htr. lia.
  - pose proof Htr as (Hnd & Hr & _).
    assert (Hc : 1 ≤ current ≤ n) by (apply Hr; left).
    assert (Hget : PyDict.getitem d current = Ok (image d current)).
    { unfold PyDict.getitem. by rewrite (image_get d Hbij current Hc). }
    assert (Hfresh : current ∉ PyDict.keys acc).
    { rewrite Hacc. by apply NoDup_cons in Hnd as [? _]. }
    destruct fuel as [|fuel]; [lia|].
    simpl trace. destruct (decide (image d current = start)) as [Heq|Hne].
    + rewrite while_loop_false.
      * rewrite Ok_bind, (find_cycle_close_eq _ _ _ Hget).
        by rewrite setitem_fresh.
      * rewrite (find_cycle_cond_eq _ _ _ _ Hget).
        by rewrite bool_decide_eq_false_2 by (intros ?; done).
    + rewrite while_loop_true.
      * rewrite (find_cycle_body_eq _ _ _ Hget), Ok_bind, setitem_fresh by done.
        rewrite (IH (image d current) (visited ++ [current])).
        -- by rewrite <-app_assoc.
        -- by apply tracing_step.
        -- unfold PyDict.keys in *. by rewrite fmap_app, Hacc.
        -- rewrite length_app. simpl. lia.
        -- lia.
      * rewrite (find_cycle_cond_eq _ _ _ _ Hget).
        by rewrite bool_decide_eq_true_2.
Qed.

Lemma find_cycle_dict_spec fuel k :
  1 ≤ k ≤ n → (length d ≤ fuel)%nat →
  Permutation.find_cycle_dict fuel p k = Ok ((λ i, (i, image d i)) <$> cycle_of d k).
Proof.
  intros Hk Hfuel.
  apply (find_cycle_loop_spec k (length d) k [] [] fuel); [|done|simpl; lia|done].
  by apply tracing_start.
Qed.

Lemma is_identity_spec :
  Permutation.is_identity p = true ↔ Forall (λ i, image d i = i) (seqZ 1 n).
Proof.
  unfold Permutation.is_identity.
  rewrite Hn, identity_dict_spec, eqb_true, Forall_seqZ. split.
  - intros [_ H] i Hi.
    assert (Hi' : 1 ≤ i ≤ n) by lia.
    pose proof (image_get d Hbij i Hi') as Hg. apply get_elem_of, H in Hg.
    rewrite get_fmap_diag in Hg by (apply elem_of_seqZ; lia). congruence.
  - intros H. split.
    + rewrite length_fmap, length_seqZ. unfold PyDict.len. lia.
    + intros k v Hkv. apply elem_of_get in Hkv; [|by apply bij_wf].
      destruct (bij_get_range d Hbij k v Hkv) as [Hk _].
      rewrite (image_get d Hbij k Hk) in Hkv.
      rewrite get_fmap_diag by (apply elem_of_seqZ; lia).
      rewrite <-Hkv. f_equal. symmetry. apply H. lia.
Qed.


Local Abbreviation key_set := (PySet.of_list (PyDict.keys (Permutation.permutation p))).

Lemma key_set_spec k : k ∈ key_set ↔ 1 ≤ k ≤ n.
Proof. unfold PySet.of_list. rewrite elem_of_list_to_set. apply (bij_keys d Hbij). Qed.

Lemma difference_seen (seen c : list Z) :
  (key_set ∖ list_to_set seen) ∖ PySet.of_list c = key_set ∖ list_to_set (c ++ seen).
Proof.
  apply set_eq. intros x. unfold PySet.of_list.
  rewrite !elem_of_difference, !elem_of_list_to_set, elem_of_app. tauto.
Qed.

Lemma mem_unseen (seen : list Z) k :
  1 ≤ k ≤ n → PySet.mem k (key_set ∖ list_to_set seen) = bool_decide (k ∉ seen).
Proof.
  intros Hk. unfold PySet.mem. apply bool_decide_ext.
  rewrite elem_of_difference, elem_of_list_to_set, key_set_spec. tauto.
Qed.

Lemma len_gt_1 (c : list Z) :
  (1 <? PyDict.len ((λ i, (i, image d i)) <$> c)) = bool_decide (1 < length c)%nat.
Proof.
  unfold PyDict.len. rewrite length_fmap.
  destruct (Z.ltb_spec 1 (Z.of_nat (length c))); symmetry.
  - apply bool_decide_eq_true_2. lia.
  - apply bool_decide_eq_false_2. lia.
Qed.

Lemma notation_visit_spec fuel seen acc k :
  (length d ≤ fuel)%nat → 1 ≤ k ≤ n →
  Permutation.notation_visit fuel p (key_set ∖ list_to_set seen, acc) k
  = Ok (if decide (k ∈ seen) then (key_set ∖ list_to_set seen, acc)
        else (key_set ∖ list_to_set (cycle_of d k ++ seen),
              if decide (1 < length (cycle_of d k))%nat
              then acc ++ [render_cycle (cycle_of d k)] else acc)).
Proof.
  intros Hfuel Hk. unfold Permutation.notation_visit.
  rewrite mem_unseen by done. destruct (decide (k ∈ seen)) as [Hin|Hin].
  - by rewrite bool_decide_eq_false_2 by tauto.
  - rewrite bool_decide_eq_true_2 by done.
    rewrite find_cycle_dict_spec, Ok_bind by done.
    rewrite len_gt_1, keys_fmap_diag, difference_seen.
    unfold render_cycle. case_bool_decide; case_decide; (done || lia).
Qed.

Lemma notation_loop_spec fuel : ∀ starts seen acc,
  (length d ≤ fuel)%nat →
  (∀ k, k ∈ starts → 1 ≤ k ≤ n) →
  for_each (Permutation.notation_visit fuel p) starts (key_set ∖ list_to_set seen, acc)
  = Ok (key_set ∖ list_to_set (concat (discover d starts seen) ++ seen),
        acc ++ (render_cycle <$> filter (λ c, (1 < length c)%nat) (discover d starts seen))).
Proof.
  induction starts as [|k starts IH]; intros seen acc Hfuel Hr.
  - simpl. by rewrite app_nil_r.
  - assert (Hr' : ∀ x, x ∈ starts → 1 ≤ x ≤ n) by (intros; apply Hr; by right).
    cbn [for_each discover].
    rewrite notation_visit_spec, Ok_bind by (done || apply Hr; left).
    destruct (decide (k ∈ seen)) as [Hin|Hin]; [by apply IH|].
    rewrite IH by done. rewrite filter_cons. cbn [concat].
    rewrite <-!app_assoc.
    assert (Hset : ∀ a b c : list Z,
      (list_to_set (a ++ b ++ c) : gset Z) = list_to_set (b ++ a ++ c)).
    { intros a b c. apply set_eq. intros x.
      rewrite !elem_of_list_to_set, !elem_of_app. tauto. }
    rewrite (Hset (concat _)).
    destruct (decide (1 < length (cycle_of d k))%nat); [|done].
    by rewrite <-app_assoc.
Qed.


Lemma key_set_len : PySet.len key_set = n.
Proof.
  unfold PySet.len, PySet.of_list, PyDict.len.
  rewrite size_list_to_set by apply (bij_wf d Hbij).
  unfold PyDict.keys. by rewrite length_fmap.
Qed.

Lemma key_set_unseen : key_set ∖ list_to_set [] = key_set.
Proof. apply set_eq. intros x. rewrite elem_of_difference, elem_of_list_to_set.
  split; [tauto|]. intros ?. split; [done|]. apply not_elem_of_nil. Qed.

Lemma key_set_exhausted : key_set ∖ list_to_set (concat (cycles d) ++ []) = ∅.
Proof.
  apply set_eq. intros x. rewrite elem_of_difference, elem_of_list_to_set.
  split; [|by intros ?%not_elem_of_empty].
  intros [Hx Hnot]. exfalso. apply Hnot. apply key_set_spec in Hx.
  apply (discover_cover d Hbij).
  - intros y Hy%elem_of_seqZ. lia.
  - apply elem_of_seqZ. lia.
Qed.

(** Both traversals of the key set end after one pass of the [for] loop. *)
Lemma key_set_loop {L} fuel (visit : gset Z * L → Z → Result (gset Z * L)) (l0 l : L) :
  (length d ≤ fuel)%nat →
  for_each visit (seqZ 1 n) (key_set ∖ list_to_set [], l0)
  = Ok (key_set ∖ list_to_set (concat (cycles d) ++ []), l) →
  while_loop fuel (λ st, Ok (0 <? PySet.len st.1))
    (for_each visit (PySet.iter key_set)) (key_set, l0)
  = Ok (if decide (length d = 0%nat) then (key_set, l0) else (∅, l)).
Proof.
  intros Hfuel Hloop. case_decide as Hd.
  - apply while_loop_false. simpl. rewrite key_set_len. f_equal.
    unfold PyDict.len. rewrite Hd. done.
  - destruct fuel as [|fuel]; [lia|].
    rewrite while_loop_true.
    + rewrite key_set_unseen in Hloop.
      rewrite (iter_keys d Hbij), Hloop, Ok_bind, key_set_exhausted.
      by apply while_loop_false.
    + simpl. rewrite key_set_len. f_equal. apply Z.ltb_lt. unfold PyDict.len. lia.
Qed.

Lemma get_cycle_notation_spec fuel :
  (length d ≤ fuel)%nat →
  Permutation.get_cycle_notation fuel p = Ok (cycle_notation d).
Proof.
  intros Hfuel. unfold Permutation.get_cycle_notation, cycle_notation.
  destruct (Permutation.is_identity p) eqn:Hid.
  - apply is_identity_spec in Hid. by rewrite decide_True.
  - rewrite decide_False by (intros H%is_identity_spec; congruence).
    erewrite key_set_loop;
      [|done|apply notation_loop_spec; [done|intros k Hk%elem_of_seqZ; lia]].
    unfold nontrivial_cycles, cycles.
    case_decide as Hd; [|done].
    by rewrite (nil_length_inv _ Hd).
Qed.


(** *** The structured decomposition *)

Lemma cycle_fixed_points (c : list Z) :
  foldl (λ c' i, PyDict.setitem c' i i) ((λ i, (i, image d i)) <$> c)
    (set_order (key_set ∖ PySet.of_list (PyDict.keys ((λ i, (i, image d i)) <$> c))))
  = cycle_factor set_order d c.
Proof.
  rewrite keys_fmap_diag. unfold cycle_factor.
  destruct (Horder (key_set ∖ PySet.of_list c)) as [Hnd Hin].
  apply (foldl_setitem_fresh (λ i, i) (λ i, i)).
  - by rewrite list_fmap_id.
  - intros x Hx%Hin. rewrite keys_fmap_diag.
    apply elem_of_difference in Hx as [_ Hx]. unfold PySet.of_list in Hx.
    by rewrite elem_of_list_to_set in Hx.
Qed.

Lemma decomposition_visit_spec fuel seen acc k :
  (length d ≤ fuel)%nat → 1 ≤ k ≤ n →
  Permutation.decomposition_visit set_order fuel p (key_set ∖ list_to_set seen, acc) k
  = Ok (if decide (k ∈ seen) then (key_set ∖ list_to_set seen, acc)
        else (key_set ∖ list_to_set (cycle_of d k ++ seen),
              if decide (1 < length (cycle_of d k))%nat
              then acc ++ [cycle_factor_obj set_order d (cycle_of d k)] else acc)).
Proof.
  intros Hfuel Hk. unfold Permutation.decomposition_visit.
  rewrite mem_unseen by done. destruct (decide (k ∈ seen)) as [Hin|Hin].
  - by rewrite bool_decide_eq_false_2 by tauto.
  - rewrite bool_decide_eq_true_2 by done.
    rewrite find_cycle_dict_spec, Ok_bind by done.
    rewrite len_gt_1, cycle_fixed_points, keys_fmap_diag, difference_seen.
    case_bool_decide; case_decide; (done || lia).
Qed.

Lemma decomposition_loop_spec fuel : ∀ starts seen acc,
  (length d ≤ fuel)%nat →
  (∀ k, k ∈ starts → 1 ≤ k ≤ n) →
  for_each (Permutation.decomposition_visit set_order fuel p) starts (key_set ∖ list_to_set seen, acc)
  = Ok (key_set ∖ list_to_set (concat (discover d starts seen) ++ seen),
        acc ++ (cycle_factor_obj set_order d <$> filter (λ c, (1 < length c)%nat) (discover d starts seen))).
Proof.
  induction starts as [|k starts IH]; intros seen acc Hfuel Hr.
  - simpl. by rewrite app_nil_r.
  - assert (Hr' : ∀ x, x ∈ starts → 1 ≤ x ≤ n) by (intros; apply Hr; by right).
    cbn [for_each discover].
    rewrite decomposition_visit_spec, Ok_bind by (done || apply Hr; left).
    destruct (decide (k ∈ seen)) as [Hin|Hin]; [by apply IH|].
    rewrite IH by done. rewrite filter_cons. cbn [concat].
    rewrite <-!app_assoc.
    assert (Hset : ∀ a b c : list Z,
      (list_to_set (a ++ b ++ c) : gset Z) = list_to_set (b ++ a ++ c)).
    { intros a b c. apply set_eq. intros x.
      rewrite !elem_of_list_to_set, !elem_of_app. tauto. }
    rewrite (Hset (concat _)).
    destruct (decide (1 < length (cycle_of d k))%nat); [|done].
    by rewrite <-app_assoc.
Qed.

Lemma get_cycle_decomposition_spec fuel :
  (length d ≤ fuel)%nat →
  Permutation.get_cycle_decomposition set_order fuel p = Ok (cycle_factors set_order d).
Proof.
  intros Hfuel. unfold Permutation.get_cycle_decomposition.
  erewrite key_set_loop;
    [|done|apply decomposition_loop_spec; [done|intros k Hk%elem_of_seqZ; lia]].
  unfold cycle_factors, nontrivial_cycles, cycles.
  case_decide as Hd; [|done].
  by rewrite (nil_length_inv _ Hd).
Qed.

End Code.

(** ** The product of the cycles *)

Lemma mul_acts (n : Z) (a b : Permutation.t) (h1 h2 : Z → Z) :
  0 ≤ n →
  acts n a h1 → acts n b h2 →
  (∀ i, 1 ≤ i ≤ n → 1 ≤ h2 i ≤ n) →
  ∃ c, Permutation.__mul__ a b = Ok c ∧ acts n c (λ i, h1 (h2 i)).
Proof.
  intros Hn (Hna & _ & Ha) (Hnb & _ & Hb) Hr.
  eexists. split.
  - rewrite (mul_spec a b h2 (λ i, h1 (h2 i))); [reflexivity|..].
    + intros i Hi. apply Hb. lia.
    + intros i Hi. apply Ha, Hr. lia.
  - rewrite Hna. split; [|split]; simpl.
    + by apply len_fmap_seqZ.
    + by rewrite keys_fmap_diag.
    + intros i Hi. apply (get_fmap_diag (λ i, h1 (h2 i))), elem_of_seqZ. lia.
Qed.

Lemma elem_of_concat (x : Z) (ls : list (list Z)) :
  x ∈ concat ls ↔ ∃ l, x ∈ l ∧ l ∈ ls.
Proof.
  induction ls as [|l ls IH]; simpl.
  - split; [by intros ?%elem_of_nil|]. intros (l & _ & ?%elem_of_nil). done.
  - rewrite elem_of_app, IH. split.
    + intros [?|(l' & ? & ?)]; [exists l; split; [done|left]|].
      exists l'. split; [done|by right].
    + intros (l' & Hx & [->|?]%elem_of_cons); [by left|]. right. by exists l'.
Qed.

Lemma NoDup_concat_filter (P : list Z → Prop) `{!∀ c, Decision (P c)} (ls : list (list Z)) :
  NoDup (concat ls) → NoDup (concat (filter P ls)).
Proof.
  induction ls as [|l ls IH]; [done|]. simpl.
  intros (Hl & Hdisj & Hls)%NoDup_app. rewrite filter_cons.
  case_decide; [|by apply IH]. simpl. apply NoDup_app.
  split; [done|]. split; [|by apply IH].
  intros x Hx (l' & Hxl' & [_ Hl']%list_elem_of_filter)%elem_of_concat.
  apply (Hdisj x Hx). apply elem_of_concat. by exists l'.
Qed.

Section Product.

Variable d : dict.
Hypothesis Hbij : bijection d.

Variable set_order : gset Z → list Z.
Hypothesis Horder : enumerates set_order.

Local Abbreviation n := (PyDict.len d).

Lemma cycle_map_range c i :
  (∀ x, x ∈ c → 1 ≤ x ≤ n) → 1 ≤ i ≤ n → 1 ≤ cycle_map d c i ≤ n.
Proof.
  intros Hc Hi. unfold cycle_map. case_decide; [|done]. by apply image_range.
Qed.

(** Disjoint cycles that are closed under [d] act together as [d] on their
    points and fix the rest. *)
Lemma apply_cycles_spec (cs : list (list Z)) (i : Z) :
  NoDup (concat cs) →
  Forall (λ c, ∀ x, x ∈ c → image d x ∈ c) cs →
  apply_cycles d cs i = if decide (i ∈ concat cs) then image d i else i.
Proof.
  induction cs as [|c cs IH]; intros Hnd Hcl.
  - unfold apply_cycles. cbn [foldr concat].
    rewrite decide_False; [done|apply not_elem_of_nil].
  - apply Forall_cons in Hcl as [Hc Hcl]. cbn [concat] in Hnd.
    apply NoDup_app in Hnd as (_ & Hdisj & Hnd).
    unfold apply_cycles in *. cbn [foldr concat]. rewrite IH by done. unfold cycle_map.
    destruct (decide (i ∈ concat cs)) as [Hi|Hi].
    + assert (Him : image d i ∈ concat cs).
      { apply elem_of_concat in Hi as (c' & Hic' & Hc').
        apply elem_of_concat. exists c'. split; [|done].
        rewrite Forall_forall in Hcl. by apply Hcl. }
      rewrite decide_False by (intros ?; by eapply Hdisj).
      rewrite decide_True; [done|]. apply elem_of_app. by right.
    + destruct (decide (i ∈ c)) as [Hic|Hic].
      * rewrite decide_True; [done|]. apply elem_of_app. by left.
      * rewrite decide_False; [done|]. rewrite elem_of_app. tauto.
Qed.

Lemma cycles_spec :
  NoDup (concat (cycles d))
  ∧ Forall (λ c, ∃ k, 1 ≤ k ≤ n ∧ c = cycle_of d k) (cycles d).
Proof.
  destruct (discover_spec d Hbij (seqZ 1 n) []) as [H1 H2].
  - intros x Hx%elem_of_seqZ. lia.
  - constructor.
  - intros x Hx. by apply elem_of_nil in Hx.
  - rewrite app_nil_r in H1. split; [done|].
    eapply Forall_impl; [exact H2|]. intros c (k & Hk%elem_of_seqZ & ->).
    exists k. split; [lia|done].
Qed.

(** The cycles partition [{1..n}]. *)
Lemma cycles_partition : concat (cycles d) ≡ₚ seqZ 1 n.
Proof.
  destruct cycles_spec as [Hnd Hall].
  apply NoDup_Permutation; [done|apply NoDup_seqZ|].
  intros x. rewrite elem_of_seqZ. split.
  - intros (c & Hx & Hc)%elem_of_concat.
    rewrite Forall_forall in Hall. destruct (Hall c Hc) as (k & Hk & ->).
    destruct (cycle_of_spec d Hbij k Hk) as (_ & _ & Hr & _).
    specialize (Hr x Hx). lia.
  - intros Hx. pose proof (discover_cover d Hbij (seqZ 1 n) [] x) as Hcov.
    rewrite app_nil_r in Hcov. apply Hcov.
    + intros y Hy%elem_of_seqZ. lia.
    + apply elem_of_seqZ. lia.
Qed.

Lemma nontrivial_cycles_spec :
  NoDup (concat (nontrivial_cycles d))
  ∧ Forall (λ c, (1 < length c)%nat ∧ ∃ k, 1 ≤ k ≤ n ∧ c = cycle_of d k) (nontrivial_cycles d).
Proof.
  destruct cycles_spec as [Hnd Hall]. unfold nontrivial_cycles. split.
  - by apply NoDup_concat_filter.
  - apply Forall_forall. intros c [Hlen Hc]%list_elem_of_filter.
    rewrite Forall_forall in Hall. split; [done|by apply Hall].
Qed.


(** Scanning [lo, lo + m) when every point below [lo] has been seen: each
    cycle found starts with its least point, and the cycles come by
    increasing first point. *)
Lemma discover_sorted (m : nat) : ∀ (lo : Z) (seen : list Z),
  1 ≤ lo → lo + Z.of_nat m ≤ n + 1 →
  (∀ x, x ∈ seen → image d x ∈ seen) →
  (∀ x, 1 ≤ x < lo → x ∈ seen) →
  Forall (λ c, ∃ k l, c = k :: l ∧ lo ≤ k ∧ ∀ x, x ∈ c → k ≤ x)
    (discover d (seqZ lo (Z.of_nat m)) seen)
  ∧ Sorted (λ c1 c2, default 0 (head c1) < default 0 (head c2))
      (discover d (seqZ lo (Z.of_nat m)) seen).
Proof.
  induction m as [|m IH]; intros lo seen Hlo Hm Hcl Hbelow.
  - simpl. split; constructor.
  - rewrite seqZ_cons by lia.
    replace (Z.pred (Z.of_nat (S m))) with (Z.of_nat m) by lia.
    cbn [discover].
    assert (Hweak : ∀ seen',
      Forall (λ c, ∃ k l, c = k :: l ∧ Z.succ lo ≤ k ∧ ∀ x, x ∈ c → k ≤ x)
        (discover d (seqZ (Z.succ lo) (Z.of_nat m)) seen') →
      Forall (λ c, ∃ k l, c = k :: l ∧ lo ≤ k ∧ ∀ x, x ∈ c → k ≤ x)
        (discover d (seqZ (Z.succ lo) (Z.of_nat m)) seen')).
    { intros seen' H. eapply Forall_impl; [exact H|]. intros c (k & l & ? & ? & ?).
      exists k, l. split; [done|]. split; [lia|done]. }
    case_decide as Hin.
    + destruct (IH (Z.succ lo) seen) as [H1 H2]; [lia|lia|done| |].
      { intros x Hx. destruct (decide (x = lo)) as [->|]; [done|]. apply Hbelow. lia. }
      split; [by apply Hweak|done].
    + assert (Hk : 1 ≤ lo ≤ n) by lia.
      destruct (cycle_of_spec d Hbij lo Hk) as ((l & Hl) & _ & Hr & Hp).
      assert (Hmin : ∀ x, x ∈ cycle_of d lo → lo ≤ x).
      { intros x Hx. destruct (decide (lo ≤ x)) as [|Hlt]; [done|]. exfalso.
        apply Hin.
        apply (path_reach (image d) (λ y, y ∈ seen) _ lo x Hcl Hp Hx).
        apply Hbelow. specialize (Hr x Hx). lia. }
      destruct (IH (Z.succ lo) (cycle_of d lo ++ seen)) as [H1 H2]; [lia|lia| | |].
      { intros x [Hx|Hx]%elem_of_app; apply elem_of_app;
          [left; by apply cycle_of_closed|right; by apply Hcl]. }
      { intros x Hx. apply elem_of_app. destruct (decide (x = lo)) as [->|].
        - left. by apply cycle_of_head.
        - right. apply Hbelow. lia. }
      split.
      * constructor; [|by apply Hweak]. exists lo, l. by split.
      * constructor; [done|].
        destruct (discover d (seqZ (Z.succ lo) (Z.of_nat m)) (cycle_of d lo ++ seen))
          as [|c' cs']; constructor.
        apply Forall_cons in H1 as [(k' & l' & -> & ? & _) _]. rewrite Hl. simpl. lia.
Qed.

(** The cycles of [d] in canonical form: they partition [{1..n}], each is
    a path of [d] that returns to its first point, which is its least
    point, and they are listed by increasing first point. *)
Lemma cycles_canonical :
  concat (cycles d) ≡ₚ seqZ 1 n
  ∧ Forall (λ c, ∃ k l, c = k :: l ∧ is_path (image d) c k ∧ ∀ x, x ∈ c → k ≤ x) (cycles d)
  ∧ Sorted (λ c1 c2, default 0 (head c1) < default 0 (head c2)) (cycles d).
Proof.
  split; [apply cycles_partition|].
  destruct (discover_sorted (Z.to_nat n) 1 []) as [H1 H2].
  - done.
  - pose proof (len_nonneg d). lia.
  - intros x Hx. by apply elem_of_nil in Hx.
  - intros x Hx. lia.
  - rewrite Z2Nat.id in H1, H2 by apply len_nonneg. split; [|done].
    destruct cycles_spec as [_ Hall].
    apply Forall_forall. intros c Hc.
    rewrite Forall_forall in H1, Hall.
    destruct (H1 c Hc) as (k & l & Hkl & _ & Hmin).
    destruct (Hall c Hc) as (k' & Hk' & Hc').
    destruct (cycle_of_spec d Hbij k' Hk') as ((l' & Hl') & _ & _ & Hp).
    exists k, l. split; [done|]. split; [|done].
    rewrite Hc'. replace k with k'; [done|]. congruence.
Qed.

Lemma is_path_ext (f g : Z → Z) l target :
  (∀ x, x ∈ l → f x = g x) → is_path f l target → is_path g l target.
Proof.
  induction l as [|x l IH]; intros Hext Hp; [done|].
  destruct l as [|y l]; simpl in *.
  - rewrite <-Hext; [done|left].
  - destruct Hp as [Hxy Hp]. split; [rewrite <-Hext; [done|left]|].
    apply IH; [|done]. intros z Hz. apply Hext. by right.
Qed.

Lemma values_fmap_diag (h : Z → Z) (xs : list Z) :
  PyDict.values ((λ i, (i, h i)) <$> xs) = h <$> xs.
Proof. unfold PyDict.values. by rewrite <-list_fmap_compose. Qed.

Lemma cycle_factor_keys_eq (c : list Z) :
  PyDict.keys (cycle_factor set_order d c)
  = c ++ set_order (PySet.of_list (PyDict.keys d) ∖ PySet.of_list c).
Proof.
  unfold cycle_factor, PyDict.keys. rewrite fmap_app.
  fold (PyDict.keys ((λ i, (i, image d i)) <$> c)).
  fold (PyDict.keys ((λ i, (i, i)) <$>
          set_order (PySet.of_list (PyDict.keys d) ∖ PySet.of_list c))).
  by rewrite !keys_fmap_diag.
Qed.

Lemma cycle_factor_values_eq (c : list Z) :
  PyDict.values (cycle_factor set_order d c)
  = (image d <$> c) ++ set_order (PySet.of_list (PyDict.keys d) ∖ PySet.of_list c).
Proof.
  unfold cycle_factor, PyDict.values. rewrite fmap_app.
  fold (PyDict.values ((λ i, (i, image d i)) <$> c)).
  fold (PyDict.values ((λ i, (i, i)) <$>
          set_order (PySet.of_list (PyDict.keys d) ∖ PySet.of_list c))).
  by rewrite !values_fmap_diag, list_fmap_id.
Qed.

Section Factor.

Variable k : Z.
Hypothesis Hk : 1 ≤ k ≤ n.

Local Abbreviation c := (cycle_of d k).
Local Abbreviation rest :=
  (set_order (PySet.of_list (PyDict.keys d) ∖ PySet.of_list (cycle_of d k))).

Lemma rest_spec x : x ∈ rest ↔ 1 ≤ x ≤ n ∧ x ∉ c.
Proof.
  destruct (Horder (PySet.of_list (PyDict.keys d) ∖ PySet.of_list c)) as [_ ->].
  unfold PySet.of_list. rewrite elem_of_difference, !elem_of_list_to_set.
  by rewrite (bij_keys d Hbij).
Qed.

Lemma cycle_factor_keys : PyDict.keys (cycle_factor set_order d c) ≡ₚ seqZ 1 n.
Proof.
  destruct (cycle_of_spec d Hbij k Hk) as (_ & Hnd & Hr & _).
  rewrite cycle_factor_keys_eq.
  apply NoDup_Permutation; [|apply NoDup_seqZ|].
  - apply NoDup_app. split; [done|]. split; [|apply Horder].
    intros x Hx [_ Hx']%rest_spec. done.
  - intros x. rewrite elem_of_app, elem_of_seqZ, rest_spec. split.
    + intros [Hx%Hr|[? _]]; lia.
    + intros Hx. destruct (decide (x ∈ c)); [by left|right]. split; [lia|done].
Qed.

Lemma cycle_factor_len : PyDict.len (cycle_factor set_order d c) = n.
Proof.
  pose proof cycle_factor_keys as Hkeys. apply Permutation_length in Hkeys.
  unfold PyDict.keys in Hkeys. rewrite length_fmap, length_seqZ in Hkeys.
  unfold PyDict.len in *. lia.
Qed.

Lemma cycle_factor_wf : PyDict.wf (cycle_factor set_order d c).
Proof. unfold PyDict.wf. rewrite cycle_factor_keys. apply NoDup_seqZ. Qed.

Lemma cycle_factor_get i :
  1 ≤ i ≤ n → PyDict.get (cycle_factor set_order d c) i = Some (cycle_map d c i).
Proof.
  intros Hi. apply elem_of_get; [apply cycle_factor_wf|].
  unfold cycle_factor, cycle_map. apply elem_of_app. case_decide as Hic.
  - left. apply list_elem_of_fmap. by exists i.
  - right. apply list_elem_of_fmap. exists i. split; [done|]. by apply rest_spec.
Qed.

Lemma cycle_factor_acts : acts n (cycle_factor_obj set_order d c) (cycle_map d c).
Proof.
  split; [apply cycle_factor_len|]. split; [apply cycle_factor_keys|].
  apply cycle_factor_get.
Qed.

Lemma cycle_image_perm : image d <$> c ≡ₚ c.
Proof.
  destruct (cycle_of_spec d Hbij k Hk) as (_ & Hnd & Hr & _).
  apply submseteq_length_Permutation; [|by rewrite length_fmap].
  apply NoDup_submseteq.
  - apply NoDup_fmap_2_strong; [|done].
    intros x y Hx Hy. apply (image_inj d Hbij); by apply Hr.
  - intros y (x & -> & Hx)%list_elem_of_fmap. by apply (cycle_of_closed d Hbij).
Qed.

Lemma cycle_factor_valid : valid (cycle_factor_obj set_order d c).
Proof.
  unfold valid, cycle_factor_obj, bijection.
  cbn [Permutation.permutation Permutation.num_letters].
  split; [done|]. rewrite cycle_factor_len. split; [apply cycle_factor_keys|].
  rewrite <-cycle_factor_keys, cycle_factor_keys_eq, cycle_factor_values_eq.
  by rewrite cycle_image_perm.
Qed.

Lemma cycle_factor_cycle :
  (1 < length c)%nat → acts_as_cycle n (cycle_factor set_order d c) c.
Proof.
  intros Hlen. destruct (cycle_of_spec d Hbij k Hk) as ((l & Hl) & Hnd & Hr & Hp).
  split; [done|]. split; [done|]. split.
  - assert (Hh : default 0 (head c) = k) by (by rewrite Hl).
    rewrite Hh. apply (is_path_ext (image d)); [|done].
    intros x Hx. unfold image at 2.
    rewrite cycle_factor_get by by apply Hr. simpl.
    unfold cycle_map. by rewrite decide_True.
  - intros i Hi Hic. rewrite cycle_factor_get by done.
    unfold cycle_map. by rewrite decide_False.
Qed.

End Factor.

Lemma product_acts : ∀ (cs : list (list Z)) (q : Permutation.t) (h : Z → Z),
  acts n q h →
  Forall (λ c, ∃ k, 1 ≤ k ≤ n ∧ c = cycle_of d k) cs →
  ∃ q', for_each Permutation.__mul__ (cycle_factor_obj set_order d <$> cs) q = Ok q'
      ∧ acts n q' (λ i, h (apply_cycles d cs i)).
Proof.
  induction cs as [|c cs IH]; intros q h Hq Hcs.
  - exists q. split; [done|]. destruct Hq as (? & ? & ?). by split.
  - apply Forall_cons in Hcs as [(k & Hk & ->) Hcs].
    destruct (mul_acts n q (cycle_factor_obj set_order d (cycle_of d k)) h (cycle_map d (cycle_of d k)))
      as (q1 & Hq1 & Hacts); [apply len_nonneg|done|by apply cycle_factor_acts| |].
    { intros i Hi. apply cycle_map_range; [|done].
      apply (cycle_of_spec d Hbij k Hk). }
    destruct (IH q1 _ Hacts Hcs) as (q' & Hq' & Hacts').
    exists q'. split; [|done].
    rewrite fmap_cons. cbn [for_each]. by rewrite Hq1, Ok_bind.
Qed.

Lemma apply_nontrivial_cycles i :
  1 ≤ i ≤ n → apply_cycles d (nontrivial_cycles d) i = image d i.
Proof.
  intros Hi. destruct nontrivial_cycles_spec as [Hnd Hall].
  rewrite apply_cycles_spec; [|done|].
  - case_decide as Hin; [done|]. symmetry.
    assert (Hc : i ∈ concat (cycles d)).
    { rewrite cycles_partition. apply elem_of_seqZ. lia. }
    apply elem_of_concat in Hc as (c & Hic & Hc).
    destruct cycles_spec as [_ Hcyc]. rewrite Forall_forall in Hcyc.
    destruct (Hcyc c Hc) as (k & Hk & ->).
    assert (Hlen : (length (cycle_of d k) ≤ 1)%nat).
    { destruct (decide (1 < length (cycle_of d k))%nat) as [Hlt|]; [|lia].
      exfalso. apply Hin, elem_of_concat. exists (cycle_of d k).
      split; [done|]. by apply list_elem_of_filter. }
    destruct (cycle_of_spec d Hbij k Hk) as ((l & Hl) & _).
    rewrite Hl in Hic, Hlen. destruct l; [|simpl in Hlen; lia].
    apply list_elem_of_singleton in Hic. subst i.
    apply (cycle_of_trivial d Hbij k Hk). by rewrite Hl.
  - eapply Forall_impl; [exact Hall|]. intros c [_ (k & Hk & ->)] x.
    by apply cycle_of_closed.
Qed.

End Product.

(** An object that acts as [d] on [1..n] compares equal to [p]. *)
Lemma eq_of_acts (p q : Permutation.t) :
  valid p →
  acts (PyDict.len (Permutation.permutation p)) q (image (Permutation.permutation p)) →
  Permutation.__eq__ q p = true.
Proof.
  intros [Hn Hbij] (Hnq & Hkeys & Hget). unfold Permutation.__eq__.
  apply eqb_true. split.
  - apply Permutation_length in Hkeys. unfold PyDict.keys in Hkeys.
    rewrite length_fmap, length_seqZ in Hkeys. unfold PyDict.len in Hkeys. lia.
  - intros k v Hkv.
    assert (Hk : 1 ≤ k ≤ PyDict.len (Permutation.permutation p)).
    { assert (Hin : k ∈ PyDict.keys (Permutation.permutation q)).
      { apply list_elem_of_fmap. by exists (k, v). }
      rewrite Hkeys in Hin. apply elem_of_seqZ in Hin. lia. }
    apply elem_of_get in Hkv; [|unfold PyDict.wf; rewrite Hkeys; apply NoDup_seqZ].
    rewrite Hget in Hkv by done. rewrite <-Hkv. by apply image_get.
Qed.

Lemma nontrivial_cycles_nil (p : Permutation.t) :
  valid p →
  nontrivial_cycles (Permutation.permutation p) = [] ↔ Permutation.is_identity p = true.
Proof.
  intros Hp. pose proof Hp as [Hn Hbij]. rewrite (is_identity_spec p Hn Hbij), Forall_seqZ.
  set (d := Permutation.permutation p) in *. split.
  - intros Hnil i Hi. rewrite <-(apply_nontrivial_cycles d Hbij i) by lia.
    by rewrite Hnil.
  - intros Hid. destruct (nontrivial_cycles d) as [|c cs] eqn:Hcs; [done|exfalso].
    assert (Hc : c ∈ nontrivial_cycles d) by (rewrite Hcs; left).
    apply list_elem_of_filter in Hc as [Hlen Hc].
    destruct (cycles_spec d Hbij) as [_ Hall]. rewrite Forall_forall in Hall.
    destruct (Hall c Hc) as (k & Hk & ->).
    rewrite cycle_of_fixed in Hlen by (apply Hid; lia).
    destruct (length d); simpl in Hlen; lia.
Qed.

(** C5: for a valid permutation [p], [get_cycle_decomposition] returns a
    sequence of valid permutations of the degree of [p], each of which is
    one non-trivial cycle of [p] and fixes every other point; the sequence
    is empty exactly when [p] is the identity, and otherwise the product of
    its members equals [p]. This holds in whatever order the sets of fixed
    points are iterated. *)
Theorem C5_cycle_decomposition (set_order : gset Z → list Z) (p : Permutation.t)
    (fuel : nat) :
  enumerates set_order →
  valid p →
  (length (Permutation.permutation p) ≤ fuel)%nat →
  ∃ cs, Permutation.get_cycle_decomposition set_order fuel p = Ok cs
      ∧ Forall (λ c, valid c
                   ∧ Permutation.num_letters c = Permutation.num_letters p
                   ∧ ∃ o, acts_as_cycle (Permutation.num_letters p)
                            (Permutation.permutation c) o
                        ∧ ∀ i, i ∈ o →
                            PyDict.get (Permutation.permutation c) i
                            = PyDict.get (Permutation.permutation p) i) cs
      ∧ (cs = [] ↔ Permutation.is_identity p = true)
      ∧ (cs ≠ [] →
           ∃ q, reduce Permutation.__mul__ cs = Ok q
              ∧ Permutation.__eq__ q p = true
              ∧ Permutation.num_letters q = Permutation.num_letters p).
Proof.
  intros Horder Hp Hfuel. pose proof Hp as [Hn Hbij].
  set (d := Permutation.permutation p) in *.
  exists (cycle_factors set_order d). split; [by apply get_cycle_decomposition_spec|].
  destruct (nontrivial_cycles_spec d Hbij) as [Hnd Hall].
  split; [|split].
  - unfold cycle_factors. apply Forall_fmap.
    eapply Forall_impl; [exact Hall|]. intros c [Hlen (k & Hk & ->)]. simpl.
    split; [by apply cycle_factor_valid|]. rewrite Hn.
    split; [by apply cycle_factor_len|].
    exists (cycle_of d k). split; [by apply cycle_factor_cycle|].
    intros i Hi.
    assert (Hir : 1 ≤ i ≤ PyDict.len d) by by apply (cycle_of_spec d Hbij k Hk).
    rewrite cycle_factor_get, (image_get d Hbij) by done.
    unfold cycle_map. by rewrite decide_True.
  - rewrite <-(nontrivial_cycles_nil p Hp). unfold cycle_factors. fold d.
    split; [apply fmap_nil_inv|by intros ->].
  - unfold cycle_factors. destruct (nontrivial_cycles d) as [|c cs] eqn:Hcs; [done|].
    intros _. apply Forall_cons in Hall as [[_ (k & Hk & ->)] Hall].
    destruct (product_acts d Hbij set_order Horder cs
                (cycle_factor_obj set_order d (cycle_of d k))
                (cycle_map d (cycle_of d k))) as (q & Hq & Hacts).
    { by apply cycle_factor_acts. }
    { eapply Forall_impl; [exact Hall|]. by intros c [_ ?]. }
    exists q. split; [exact Hq|]. split; [|by rewrite Hn; apply Hacts].
    apply eq_of_acts; [done|]. fold d.
    destruct Hacts as (H1 & H2 & H3). split; [done|]. split; [done|].
    intros i Hi. rewrite H3 by done. f_equal.
    rewrite <-(apply_nontrivial_cycles d Hbij i Hi), Hcs. done.
Qed.

Lemma C5_cycle_decomposition_witness :
  ∃ cs, Permutation.get_cycle_decomposition PySet.iter 2 swap12 = Ok cs
      ∧ Forall (λ c, valid c
                   ∧ Permutation.num_letters c = Permutation.num_letters swap12
                   ∧ ∃ o, acts_as_cycle (Permutation.num_letters swap12)
                            (Permutation.permutation c) o
                        ∧ ∀ i, i ∈ o →
                            PyDict.get (Permutation.permutation c) i
                            = PyDict.get (Permutation.permutation swap12) i) cs
      ∧ (cs = [] ↔ Permutation.is_identity swap12 = true)
      ∧ (cs ≠ [] →
           ∃ q, reduce Permutation.__mul__ cs = Ok q
              ∧ Permutation.__eq__ q swap12 = true
              ∧ Permutation.num_letters q = Permutation.num_letters swap12).
Proof.
  apply (C5_cycle_decomposition PySet.iter swap12 2%nat iter_enumerates swap12_valid).
  simpl. lia.
Defined.

Lemma cycle123_valid : valid cycle123.
Proof.
  split; [done|]. split; simpl; by refine (bool_decide_unpack _ _).
Defined.

(** C8: the cycle notation of a valid permutation is ["1"] when it maps
    every point of [{1..n}] to itself; for every other permutation it is
    the concatenation, in reverse order of discovery, of its non-trivial
    cycles, each written as its points in traversal order, separated by
    spaces and in parentheses. The cycles partition [{1..n}], each is
    traversed from its least point, and they are discovered by increasing
    least point. The permutation [{1: 2, 2: 3, 3: 1, 4: 4}] is written
    ["(1 2 3)"]. *)
Theorem C8_cycle_notation :
  (∀ (p : Permutation.t) (fuel : nat),
     valid p →
     (length (Permutation.permutation p) ≤ fuel)%nat →
     Permutation.get_cycle_notation fuel p
     = Ok (cycle_notation (Permutation.permutation p))
     ∧ ((∀ i, 1 ≤ i ≤ Permutation.num_letters p →
              PyDict.get (Permutation.permutation p) i = Some i) →
        Permutation.get_cycle_notation fuel p = Ok "1")
     ∧ ((∃ i, 1 ≤ i ≤ Permutation.num_letters p
              ∧ PyDict.get (Permutation.permutation p) i ≠ Some i) →
        Permutation.get_cycle_notation fuel p
        = Ok (join "" (reverse (render_cycle
                                  <$> nontrivial_cycles (Permutation.permutation p)))))
     ∧ concat (cycles (Permutation.permutation p)) ≡ₚ seqZ 1 (Permutation.num_letters p)
     ∧ Forall (λ c, ∃ k l, c = k :: l
                         ∧ is_path (image (Permutation.permutation p)) c k
                         ∧ ∀ x, x ∈ c → k ≤ x)
         (cycles (Permutation.permutation p))
     ∧ Sorted (λ c1 c2, default 0 (head c1) < default 0 (head c2))
         (cycles (Permutation.permutation p)))
  ∧ Permutation.get_cycle_notation 4 cycle123 = Ok "(1 2 3)".
Proof.
  split; [|by vm_compute].
  intros p fuel [Hn Hbij] Hfuel.
  rewrite (get_cycle_notation_spec p Hn Hbij fuel Hfuel).
  split; [done|]. unfold cycle_notation. rewrite Hn. split; [|split].
  - intros Hid. rewrite decide_True; [done|].
    apply Forall_seqZ. intros i Hi. unfold image. rewrite Hid by lia. done.
  - intros (i & Hi & Hne). rewrite decide_False; [done|].
    intros Hid. rewrite Forall_seqZ in Hid. apply Hne.
    rewrite (image_get (Permutation.permutation p) Hbij i Hi).
    f_equal. apply Hid. lia.
  - by apply cycles_canonical.
Qed.

Lemma C8_cycle_notation_witness :
  Permutation.get_cycle_notation 4 cycle123
  = Ok (cycle_notation (Permutation.permutation cycle123))
  ∧ ((∀ i, 1 ≤ i ≤ Permutation.num_letters cycle123 →
           PyDict.get (Permutation.permutation cycle123) i = Some i) →
     Permutation.get_cycle_notation 4 cycle123 = Ok "1")
  ∧ ((∃ i, 1 ≤ i ≤ Permutation.num_letters cycle123
           ∧ PyDict.get (Permutation.permutation cycle123) i ≠ Some i) →
     Permutation.get_cycle_notation 4 cycle123
     = Ok (join "" (reverse (render_cycle
                               <$> nontrivial_cycles (Permutation.permutation cycle123)))))
  ∧ concat (cycles (Permutation.permutation cycle123))
    ≡ₚ seqZ 1 (Permutation.num_letters cycle123)
  ∧ Forall (λ c, ∃ k l, c = k :: l
                      ∧ is_path (image (Permutation.permutation cycle123)) c k
                      ∧ ∀ x, x ∈ c → k ≤ x)
      (cycles (Permutation.permutation cycle123))
  ∧ Sorted (λ c1 c2, default 0 (head c1) < default 0 (head c2))
      (cycles (Permutation.permutation cycle123)).
Proof.
  apply (proj1 C8_cycle_notation cycle123 4%nat cycle123_valid). simpl. lia.
Defined.

(** * Further properties *)

(** ** Permutations as group elements *)

(** ** Equality of permutations *)

Lemma wf_NoDup d : PyDict.wf d → NoDup d.
Proof. unfold PyDict.wf, PyDict.keys. apply NoDup_fmap_1. Qed.

Lemma eqb_Permutation (d1 d2 : dict) :
  PyDict.wf d1 → PyDict.wf d2 → PyDict.eqb d1 d2 = true ↔ d1 ≡ₚ d2.
Proof.
  intros Ha Hb. rewrite eqb_true. split.
  - intros [Hlen Hget]. apply submseteq_length_Permutation; [|lia].
    apply NoDup_submseteq; [by apply wf_NoDup|].
    intros [k v] Hkv. by apply get_elem_of, Hget.
  - intros Hperm. split; [by rewrite Hperm|].
    intros k v Hkv. apply elem_of_get; [done|]. by rewrite <-Hperm.
Qed.

(** X1: two permutation objects are [==] exactly when their mappings have
    the same entries, in whatever order they were inserted; [==] is
    symmetric, and equal objects have equal hashes. *)
Theorem eq_iff_same_entries (py_hash : gset (Z * Z) → Z) (a b : Permutation.t) :
  PyDict.wf (Permutation.permutation a) →
  PyDict.wf (Permutation.permutation b) →
  (Permutation.__eq__ a b = true
   ↔ Permutation.permutation a ≡ₚ Permutation.permutation b)
  ∧ Permutation.__eq__ a b = Permutation.__eq__ b a
  ∧ (Permutation.__eq__ a b = true →
     Permutation.__hash__ py_hash a = Permutation.__hash__ py_hash b).
Proof.
  intros Ha Hb. unfold Permutation.__eq__.
  split; [by apply eqb_Permutation|]. split.
  - apply eq_true_iff_eq. rewrite !eqb_Permutation by done. split; intros H; by symmetry.
  - intros Heq%eqb_Permutation; [|done..]. unfold Permutation.__hash__, PyDict.items.
    f_equal. apply set_eq. intros x. rewrite !elem_of_list_to_set. by rewrite Heq.
Qed.

Lemma eq_iff_same_entries_witness :
  (Permutation.__eq__ swap12 (Permutation.mk [(2, 1); (1, 2)] 2 None None None) = true
   ↔ Permutation.permutation swap12 ≡ₚ [(2, 1); (1, 2)])
  ∧ Permutation.__eq__ swap12 (Permutation.mk [(2, 1); (1, 2)] 2 None None None)
    = Permutation.__eq__ (Permutation.mk [(2, 1); (1, 2)] 2 None None None) swap12
  ∧ (Permutation.__eq__ swap12 (Permutation.mk [(2, 1); (1, 2)] 2 None None None) = true →
     Permutation.__hash__ (λ _, 0) swap12
     = Permutation.__hash__ (λ _, 0) (Permutation.mk [(2, 1); (1, 2)] 2 None None None)).
Proof.
  apply (eq_iff_same_entries (λ _, 0) swap12
           (Permutation.mk [(2, 1); (1, 2)] 2 None None None));
    unfold PyDict.wf; simpl; by refine (bool_decide_unpack _ _).
Defined.

(** ** Objects that act as a function *)

Lemma valid_acts p :
  valid p →
  acts (Permutation.num_letters p) p (image (Permutation.permutation p))
  ∧ bijective_on (Permutation.num_letters p) (image (Permutation.permutation p)).
Proof.
  intros [Hn Hbij]. rewrite Hn. split; [split; [done|split; [apply Hbij|]]|split].
  - by apply image_get.
  - by apply image_range.
  - by apply image_inj.
Qed.

Lemma values_image d : PyDict.wf d → PyDict.values d = image d <$> PyDict.keys d.
Proof.
  intros Hwf. unfold PyDict.keys, PyDict.values. rewrite <-list_fmap_compose.
  apply list_fmap_ext. intros i [k v] Hi. simpl.
  apply list_elem_of_lookup_2 in Hi. unfold image.
  by rewrite (elem_of_get d k v Hwf Hi).
Qed.

Lemma bijective_fmap_perm n h : bijective_on n h → h <$> seqZ 1 n ≡ₚ seqZ 1 n.
Proof.
  intros [Hr Hinj]. apply submseteq_length_Permutation; [|by rewrite length_fmap].
  apply NoDup_submseteq.
  - apply NoDup_fmap_2_strong; [|apply NoDup_seqZ].
    intros x y Hx%elem_of_seqZ Hy%elem_of_seqZ. apply Hinj; lia.
  - intros y (x & -> & Hx%elem_of_seqZ)%list_elem_of_fmap.
    apply elem_of_seqZ. specialize (Hr x). lia.
Qed.

Lemma acts_image n q h i :
  acts n q h → 1 ≤ i ≤ n → image (Permutation.permutation q) i = h i.
Proof. intros (_ & _ & Hget) Hi. unfold image. by rewrite Hget. Qed.

Lemma acts_len n q h :
  0 ≤ n → acts n q h → PyDict.len (Permutation.permutation q) = n.
Proof.
  intros Hn (_ & Hkeys & _). apply Permutation_length in Hkeys.
  unfold PyDict.keys in Hkeys. rewrite length_fmap, length_seqZ in Hkeys.
  unfold PyDict.len. lia.
Qed.

Lemma acts_wf n q h : acts n q h → PyDict.wf (Permutation.permutation q).
Proof. intros (_ & Hkeys & _). unfold PyDict.wf. rewrite Hkeys. apply NoDup_seqZ. Qed.

Lemma acts_valid n q h : 0 ≤ n → acts n q h → bijective_on n h → valid q.
Proof.
  intros Hn Hacts Hb. pose proof (acts_len n q h Hn Hacts) as Hlen.
  pose proof (acts_wf n q h Hacts) as Hwf.
  destruct Hacts as (Hnum & Hkeys & Hget).
  split; [by rewrite Hlen|]. unfold bijection. rewrite Hlen. split; [done|].
  rewrite values_image by done. rewrite Hkeys.
  rewrite (Forall_fmap_ext_1 (image (Permutation.permutation q)) h).
  - by apply bijective_fmap_perm.
  - apply Forall_seqZ. intros i Hi. unfold image. rewrite Hget by lia. done.
Qed.

Lemma diag_acts n h : 0 ≤ n → acts n (diag_obj n h) h.
Proof.
  intros Hn. split; [done|]. split; simpl.
  - by rewrite keys_fmap_diag.
  - intros i Hi. apply get_fmap_diag, elem_of_seqZ. lia.
Qed.

Lemma diag_ext n h h' :
  (∀ i, 1 ≤ i ≤ n → h i = h' i) → diag_obj n h = diag_obj n h'.
Proof.
  intros Hext. unfold diag_obj. f_equal.
  apply Forall_fmap_ext_1, Forall_seqZ. intros i Hi. rewrite Hext by lia. done.
Qed.

(** Composition of objects that act as functions is the object of the
    composed function. *)
Lemma mul_diag n a b h1 h2 :
  0 ≤ n → acts n a h1 → acts n b h2 →
  (∀ i, 1 ≤ i ≤ n → 1 ≤ h2 i ≤ n) →
  Permutation.__mul__ a b = Ok (diag_obj n (λ i, h1 (h2 i))).
Proof.
  intros Hn (Hna & _ & Ha) (Hnb & _ & Hb) Hr.
  rewrite (mul_spec a b h2 (λ i, h1 (h2 i))).
  - rewrite Hna. unfold Permutation.__init__, diag_obj.
    by rewrite len_fmap_seqZ.
  - intros i Hi. apply Hb. lia.
  - intros i Hi. apply Ha, Hr. lia.
Qed.

(** Two objects that act as the same function compare equal. *)
Lemma acts_eq n a b h :
  0 ≤ n → acts n a h → acts n b h → Permutation.__eq__ a b = true.
Proof.
  intros Hn Ha Hb. unfold Permutation.__eq__. apply eqb_true. split.
  - pose proof (acts_len n a h Hn Ha). pose proof (acts_len n b h Hn Hb).
    unfold PyDict.len in *. lia.
  - intros k v Hkv.
    assert (Hk : 1 ≤ k ≤ n).
    { destruct Ha as (_ & Hkeys & _).
      assert (Hin : k ∈ PyDict.keys (Permutation.permutation a)).
      { apply list_elem_of_fmap. by exists (k, v). }
      rewrite Hkeys in Hin. apply elem_of_seqZ in Hin. lia. }
    apply elem_of_get in Hkv; [|by eapply acts_wf].
    destruct Ha as (_ & _ & Hga), Hb as (_ & _ & Hgb).
    rewrite Hga in Hkv by done. rewrite Hgb by done. done.
Qed.

Lemma acts_ext n q h h' :
  (∀ i, 1 ≤ i ≤ n → h i = h' i) → acts n q h → acts n q h'.
Proof.
  intros Hext (H1 & H2 & H3). split; [done|]. split; [done|].
  intros i Hi. rewrite H3 by done. by rewrite Hext.
Qed.

Lemma is_identity_acts n q h :
  0 ≤ n → acts n q h →
  Permutation.is_identity q = true ↔ ∀ i, 1 ≤ i ≤ n → h i = i.
Proof.
  intros Hn Hacts.
  assert (Hid : acts n (diag_obj n (λ i, i)) (λ i, i)) by by apply diag_acts.
  unfold Permutation.is_identity.
  destruct Hacts as (Hnum & Hkeys & Hget). rewrite Hnum, identity_dict_spec.
  change (PyDict.eqb (Permutation.permutation q) ((λ i, (i, i)) <$> seqZ 1 n))
    with (Permutation.__eq__ q (diag_obj n (λ i, i))).
  split.
  - intros Heq i Hi. unfold Permutation.__eq__ in Heq. apply eqb_true in Heq as [_ Heq].
    specialize (Hget i Hi). apply get_elem_of, Heq in Hget. simpl in Hget.
    rewrite (get_fmap_diag (λ i, i)) in Hget by (apply elem_of_seqZ; lia). congruence.
  - intros Hfix. apply (acts_eq n _ _ (λ i, i)); [done| |done].
    split; [done|]. split; [done|]. intros i Hi. rewrite Hget by done. by rewrite Hfix.
Qed.


(** ** Inverse *)

Lemma invert_acts p :
  valid p →
  ∃ q, Permutation.__invert__ p = Ok q
     ∧ acts (Permutation.num_letters p) q (image (Permutation.permutation q))
     ∧ (∀ i, 1 ≤ i ≤ Permutation.num_letters p →
          image (Permutation.permutation q) (image (Permutation.permutation p) i) = i)
     ∧ bijective_on (Permutation.num_letters p) (image (Permutation.permutation q)).
Proof.
  intros Hp. pose proof Hp as [Hn Hbij].
  set (d := Permutation.permutation p) in *.
  set (n := Permutation.num_letters p) in *.
  eexists. split; [by rewrite invert_spec|]. fold d.
  set (qd := (λ k, (default 0 (PyDict.get d k), k)) <$> PyDict.keys d).
  assert (Hinv : ∀ k v, PyDict.get d k = Some v → PyDict.get qd v = Some k).
  { intros k v. by apply get_invert. }
  assert (Hpre : ∀ i, 1 ≤ i ≤ n → ∃ k, 1 ≤ k ≤ n ∧ PyDict.get d k = Some i
                                    ∧ PyDict.get qd i = Some k).
  { intros i Hi. rewrite Hn in *. destruct (bij_surj d Hbij i Hi) as (k & Hk & Hkr).
    exists k. split; [done|]. split; [done|by apply Hinv]. }
  assert (Hkeys : PyDict.keys qd ≡ₚ seqZ 1 n).
  { unfold qd, PyDict.keys. rewrite <-list_fmap_compose.
    etrans; [|rewrite Hn; apply Hbij].
    rewrite values_image by apply (bij_wf d Hbij). unfold image.
    apply Permutation_refl'. apply list_fmap_ext. intros j k Hk. simpl.
    apply list_elem_of_lookup_2, get_is_Some in Hk as [v Hv]. by rewrite Hv. }
  assert (Hleft : ∀ i, 1 ≤ i ≤ n → image qd (image d i) = i).
  { intros i Hi. unfold image at 1.
    rewrite (Hinv i (image d i)); [done|]. apply (image_get d Hbij). by rewrite <-Hn. }
  simpl. split; [|split; [done|split]].
  - split; [|split; [done|]]; simpl.
    + apply Permutation_length in Hkeys. unfold PyDict.keys in Hkeys.
      rewrite length_fmap, length_seqZ in Hkeys. unfold PyDict.len.
      pose proof (len_nonneg d). lia.
    + intros i Hi. destruct (Hpre i Hi) as (k & _ & _ & Hk). unfold image. by rewrite Hk.
  - intros i Hi. destruct (Hpre i Hi) as (k & Hk & _ & Hg). unfold image. by rewrite Hg.
  - intros i j Hi Hj Heq.
    destruct (Hpre i Hi) as (k & _ & Hki & Hgi), (Hpre j Hj) as (k' & _ & Hkj & Hgj).
    unfold image in Heq. rewrite Hgi, Hgj in Heq. simpl in Heq. subst k'. congruence.
Qed.

(** The inverse on the other side. *)
Lemma invert_right p q :
  valid p → Permutation.__invert__ p = Ok q →
  ∀ i, 1 ≤ i ≤ Permutation.num_letters p →
    image (Permutation.permutation p) (image (Permutation.permutation q) i) = i.
Proof.
  intros Hp Hq i Hi. pose proof Hp as [Hn Hbij].
  destruct (invert_acts p Hp) as (q' & Hq' & _ & Hleft & _).
  assert (q' = q) as -> by congruence.
  rewrite Hn in Hi. destruct (bij_surj _ Hbij i Hi) as (k & Hk & Hkr).
  assert (Hik : i = image (Permutation.permutation p) k) by (unfold image; by rewrite Hk).
  rewrite Hik, Hleft; [done|]. by rewrite Hn.
Qed.

(** X2: the inverse of a valid permutation is returned and is a valid
    permutation of the same degree that sends [p[i]] back to [i]; inverting
    twice gives a permutation equal to [p], and [~p * p] is the identity. *)
Theorem invert_involutive (p : Permutation.t) :
  valid p →
  ∃ q r e, Permutation.__invert__ p = Ok q
         ∧ valid q
         ∧ Permutation.num_letters q = Permutation.num_letters p
         ∧ (∀ i j, PyDict.get (Permutation.permutation p) i = Some j →
                   PyDict.get (Permutation.permutation q) j = Some i)
         ∧ Permutation.__invert__ q = Ok r
         ∧ Permutation.__eq__ r p = true
         ∧ Permutation.__mul__ q p = Ok e
         ∧ Permutation.is_identity e = true.
Proof.
  intros Hp. pose proof Hp as [Hn Hbij].
  assert (H0 : 0 ≤ Permutation.num_letters p) by (rewrite Hn; apply len_nonneg).
  destruct (invert_acts p Hp) as (q & Hq & Hqa & Hleft & Hqb).
  pose proof (acts_valid _ q _ H0 Hqa Hqb) as Hqv.
  assert (Hqn : Permutation.num_letters q = Permutation.num_letters p) by apply Hqa.
  destruct (invert_acts q Hqv) as (r & Hr & Hra & Hleft' & Hrb).
  rewrite Hqn in Hra, Hleft', Hrb.
  destruct (valid_acts p Hp) as [Hpa Hpb].
  exists q, r, (diag_obj (Permutation.num_letters p)
                  (λ i, image (Permutation.permutation q) (image (Permutation.permutation p) i))).
  split; [done|]. split; [done|]. split; [done|]. split; [|split; [done|split; [|split]]].
  - intros i j Hij. destruct (bij_get_range _ Hbij i j Hij) as [Hi Hj].
    rewrite <-Hn in Hi, Hj. destruct Hqa as (_ & _ & Hget). rewrite Hget by done.
    assert (Himg : image (Permutation.permutation p) i = j)
      by (unfold image; by rewrite Hij).
    f_equal. rewrite <-Himg. apply Hleft, Hi.
  - apply (acts_eq (Permutation.num_letters p) r p
             (image (Permutation.permutation p))); [done| |done].
    eapply acts_ext; [|exact Hra]. intros i Hi. simpl.
    rewrite <-(Hleft i Hi) at 1.
    apply Hleft'. by apply Hpb.
  - apply mul_diag; [done..|]. apply Hpb.
  - apply (is_identity_acts (Permutation.num_letters p) _ _ H0 (diag_acts _ _ H0)).
    apply Hleft.
Qed.

Lemma invert_involutive_witness :
  ∃ q r e, Permutation.__invert__ cycle123 = Ok q
         ∧ valid q
         ∧ Permutation.num_letters q = Permutation.num_letters cycle123
         ∧ (∀ i j, PyDict.get (Permutation.permutation cycle123) i = Some j →
                   PyDict.get (Permutation.permutation q) j = Some i)
         ∧ Permutation.__invert__ q = Ok r
         ∧ Permutation.__eq__ r cycle123 = true
         ∧ Permutation.__mul__ q cycle123 = Ok e
         ∧ Permutation.is_identity e = true.
Proof. apply (invert_involutive cycle123 cycle123_valid). Defined.

(** ** Composition *)

Lemma mul_valid_diag (a b : Permutation.t) :
  valid a → valid b →
  Permutation.num_letters a = Permutation.num_letters b →
  Permutation.__mul__ a b
  = Ok (diag_obj (Permutation.num_letters a)
          (λ i, image (Permutation.permutation a) (image (Permutation.permutation b) i)))
  ∧ bijective_on (Permutation.num_letters a)
      (λ i, image (Permutation.permutation a) (image (Permutation.permutation b) i)).
Proof.
  intros Ha Hb Hn.
  assert (H0 : 0 ≤ Permutation.num_letters a) by (rewrite (proj1 Ha); apply len_nonneg).
  destruct (valid_acts a Ha) as [Haa [Har Hai]].
  destruct (valid_acts b Hb) as [Hba [Hbr Hbi]]. rewrite <-Hn in Hba, Hbr, Hbi.
  split; [by apply mul_diag|]. split.
  - intros i Hi. by apply Har, Hbr.
  - intros i j Hi Hj Heq. apply Hbi; [done..|]. apply Hai; [by apply Hbr..|done].
Qed.

(** X3: composition of valid permutations of one degree returns a valid
    permutation of that degree, it is associative, and the zeroth power is
    neutral on both sides. *)
Theorem mul_group_laws (a b c : Permutation.t) :
  valid a → valid b → valid c →
  Permutation.num_letters a = Permutation.num_letters b →
  Permutation.num_letters b = Permutation.num_letters c →
  ∃ ab bc abc e ae ea,
    Permutation.__mul__ a b = Ok ab
    ∧ valid ab
    ∧ Permutation.num_letters ab = Permutation.num_letters a
    ∧ Permutation.__mul__ b c = Ok bc
    ∧ Permutation.__mul__ ab c = Ok abc
    ∧ Permutation.__mul__ a bc = Ok abc
    ∧ Permutation.__pow__ a 0 = Ok e
    ∧ Permutation.__mul__ a e = Ok ae
    ∧ Permutation.__mul__ e a = Ok ea
    ∧ Permutation.__eq__ ae a = true
    ∧ Permutation.__eq__ ea a = true.
Proof.
  intros Ha Hb Hc Hab Hbc.
  set (n := Permutation.num_letters a) in *.
  assert (H0 : 0 ≤ n) by (unfold n; rewrite (proj1 Ha); apply len_nonneg).
  destruct (valid_acts a Ha) as [Haa Hfa]. fold n in Haa, Hfa.
  destruct (mul_valid_diag a b Ha Hb Hab) as [Hmab Hfab]. fold n in Hmab, Hfab.
  destruct (mul_valid_diag b c Hb Hc Hbc) as [Hmbc Hfbc].
  rewrite <-Hab in Hmbc, Hfbc. fold n in Hmbc, Hfbc.
  pose proof (acts_valid n _ _ H0 (diag_acts n _ H0) Hfab) as Hvab.
  pose proof (acts_valid n _ _ H0 (diag_acts n _ H0) Hfbc) as Hvbc.
  destruct (valid_acts c Hc) as [Hca Hfc]. rewrite <-Hbc, <-Hab in Hca, Hfc. fold n in Hca, Hfc.
  do 2 eexists.
  exists (diag_obj n (λ i, image (Permutation.permutation a)
                             (image (Permutation.permutation b)
                                (image (Permutation.permutation c) i)))).
  exists (diag_obj n (λ i, i)).
  exists (diag_obj n (λ i, image (Permutation.permutation a) i)).
  exists (diag_obj n (λ i, image (Permutation.permutation a) i)).
  split; [exact Hmab|]. split; [done|]. split; [done|]. split; [exact Hmbc|].
  split; [|split; [|split; [|split; [|split; [|split]]]]].
  - apply (mul_diag n _ c (λ i, image (Permutation.permutation a)
                                  (image (Permutation.permutation b) i))
             _ H0 (diag_acts n _ H0) Hca). apply Hfc.
  - apply (mul_diag n a _ _ (λ i, image (Permutation.permutation b)
                                    (image (Permutation.permutation c) i))
             H0 Haa (diag_acts n _ H0)). apply Hfbc.
  - unfold Permutation.__pow__. rewrite decide_True by done.
    fold n. rewrite identity_dict_spec. unfold Permutation.__init__, diag_obj.
    by rewrite len_fmap_seqZ.
  - apply (mul_diag n a _ _ (λ i, i) H0 Haa (diag_acts n _ H0)). done.
  - apply (mul_diag n _ a (λ i, i) _ H0 (diag_acts n _ H0) Haa). apply Hfa.
  - apply (acts_eq n _ a _ H0 (diag_acts n _ H0) Haa).
  - apply (acts_eq n _ a _ H0 (diag_acts n _ H0) Haa).
Qed.

Lemma mul_group_laws_witness :
  ∃ ab bc abc e ae ea,
    Permutation.__mul__ cycle123 identity4 = Ok ab
    ∧ valid ab
    ∧ Permutation.num_letters ab = Permutation.num_letters cycle123
    ∧ Permutation.__mul__ identity4 cycle123 = Ok bc
    ∧ Permutation.__mul__ ab cycle123 = Ok abc
    ∧ Permutation.__mul__ cycle123 bc = Ok abc
    ∧ Permutation.__pow__ cycle123 0 = Ok e
    ∧ Permutation.__mul__ cycle123 e = Ok ae
    ∧ Permutation.__mul__ e cycle123 = Ok ea
    ∧ Permutation.__eq__ ae cycle123 = true
    ∧ Permutation.__eq__ ea cycle123 = true.
Proof.
  apply (mul_group_laws cycle123 identity4 cycle123 cycle123_valid);
    [|apply cycle123_valid|reflexivity|reflexivity].
  split; [done|]. split; simpl; by refine (bool_decide_unpack _ _).
Defined.

(** X4: the inverse of a product is the product of the inverses in the
    opposite order. *)
Theorem invert_mul (a b : Permutation.t) :
  valid a → valid b →
  Permutation.num_letters a = Permutation.num_letters b →
  ∃ ab ab' a' b' c,
    Permutation.__mul__ a b = Ok ab
    ∧ Permutation.__invert__ ab = Ok ab'
    ∧ Permutation.__invert__ a = Ok a'
    ∧ Permutation.__invert__ b = Ok b'
    ∧ Permutation.__mul__ b' a' = Ok c
    ∧ Permutation.__eq__ ab' c = true.
Proof.
  intros Ha Hb Hn.
  set (n := Permutation.num_letters a) in *.
  assert (H0 : 0 ≤ n) by (unfold n; rewrite (proj1 Ha); apply len_nonneg).
  destruct (valid_acts a Ha) as [Haa Hfa]. fold n in Haa, Hfa.
  destruct (valid_acts b Hb) as [Hba Hfb]. rewrite <-Hn in Hba, Hfb.
  destruct (mul_valid_diag a b Ha Hb Hn) as [Hmab Hfab]. fold n in Hmab, Hfab.
  pose proof (diag_acts n (λ i, image (Permutation.permutation a)
                                  (image (Permutation.permutation b) i)) H0) as Haab.
  pose proof (acts_valid n _ _ H0 Haab Hfab) as Hvab.
  destruct (invert_acts a Ha) as (a' & Ha' & Haa' & Hla & Hfa'). fold n in Haa', Hla, Hfa'.
  destruct (invert_acts b Hb) as (b' & Hb' & Hba' & Hlb & Hfb').
  rewrite <-Hn in Hba', Hlb, Hfb'.
  destruct (invert_acts _ Hvab) as (ab' & Hab' & Haab' & Hlab & Hfab').
  cbn [diag_obj Permutation.num_letters] in Haab', Hlab, Hfab'.
  exists (diag_obj n (λ i, image (Permutation.permutation a)
                             (image (Permutation.permutation b) i))), ab', a', b',
    (diag_obj n (λ i, image (Permutation.permutation b')
                        (image (Permutation.permutation a') i))).
  split; [done|]. split; [done|]. split; [done|]. split; [done|]. split.
  - apply (mul_diag n b' a' _ _ H0 Hba' Haa'). apply Hfa'.
  - apply (acts_eq n ab' _ (image (Permutation.permutation ab')) H0 Haab').
    eapply acts_ext; [|apply (diag_acts n _ H0)].
    intros i Hi. simpl.
    (* i = ab (ab' i) by the right inverse law *)
    pose proof (invert_right _ ab' Hvab Hab' i Hi) as Hr.
    cbn [diag_obj Permutation.num_letters] in Hr.
    rewrite (acts_image n _ _ _ Haab) in Hr by (by apply Hfab').
    simpl in Hr.
    assert (Hx : 1 ≤ image (Permutation.permutation ab') i ≤ n) by apply Hfab', Hi.
    remember (image (Permutation.permutation ab') i) as x eqn:Ex. clear Ex.
    rewrite <-Hr.
    rewrite Hla by (apply Hfb, Hx).
    by rewrite Hlb.
Qed.

Lemma invert_mul_witness :
  ∃ ab ab' a' b' c,
    Permutation.__mul__ cycle123 swap34 = Ok ab
    ∧ Permutation.__invert__ ab = Ok ab'
    ∧ Permutation.__invert__ cycle123 = Ok a'
    ∧ Permutation.__invert__ swap34 = Ok b'
    ∧ Permutation.__mul__ b' a' = Ok c
    ∧ Permutation.__eq__ ab' c = true.
Proof.
  apply (invert_mul cycle123 swap34 cycle123_valid); [|reflexivity].
  split; [done|]. split; simpl; by refine (bool_decide_unpack _ _).
Defined.

(** ** Composition that fails *)

Lemma for_each_raise {S A} (body : S → A → Result S) (e : exn) xs x st :
  x ∈ xs →
  (∀ st, body st x = Raise e) →
  (∀ st y, y ∈ xs → (∃ st', body st y = Ok st') ∨ body st y = Raise e) →
  for_each body xs st = Raise e.
Proof.
  revert st. induction xs as [|y xs IH]; intros st Hx Hr Hall.
  - by apply elem_of_nil in Hx.
  - simpl. apply elem_of_cons in Hx as [->|Hx].
    + by rewrite Hr.
    + destruct (Hall st y) as [[st' ->]| ->]; [left| |done].
      simpl. apply IH; [done..|]. intros; apply Hall. by right.
Qed.

Lemma mul_body_cases (a b : Permutation.t) (st : dict) (i : Z) :
  let body := λ (d : dict) (i : Z),
         k ← Ok i;
         v ← (j ← PyDict.getitem (Permutation.permutation b) i;
              PyDict.getitem (Permutation.permutation a) j);
         mret (PyDict.setitem d k v) in
  (∃ st', body st i = Ok st' ∧ ¬ undefined_at a b i)
  ∨ (body st i = Raise KeyError ∧ undefined_at a b i).
Proof.
  unfold undefined_at, PyDict.getitem. simpl.
  destruct (PyDict.get (Permutation.permutation b) i) as [j|] eqn:Hj; simpl.
  - destruct (PyDict.get (Permutation.permutation a) j) as [v|] eqn:Hv; simpl.
    + left. eexists. split; done.
    + right. done.
  - right. done.
Qed.

Lemma mul_undefined_raises (a b : Permutation.t) (i : Z) :
  1 ≤ i ≤ Permutation.num_letters a → undefined_at a b i →
  Permutation.__mul__ a b = Raise KeyError.
Proof.
  intros Hi Hu. unfold Permutation.__mul__, PyDict.comprehensionM.
  erewrite (for_each_raise _ KeyError (seqZ 1 (Permutation.num_letters a)) i []);
    [done| | |].
  - apply elem_of_seqZ. lia.
  - intros st. destruct (mul_body_cases a b st i) as [(? & _ & Hn)|[? _]];
      [by destruct Hn|done].
  - intros st y _. destruct (mul_body_cases a b st y) as [(st' & ? & _)|[? _]]; eauto.
Qed.

Lemma mul_defined_returns (a b : Permutation.t) :
  (∀ i, 1 ≤ i ≤ Permutation.num_letters a → ¬ undefined_at a b i) →
  Permutation.__mul__ a b
  = Permutation.__init__
      ((λ i, (i, image (Permutation.permutation a)
                   (image (Permutation.permutation b) i)))
         <$> seqZ 1 (Permutation.num_letters a)).
Proof.
  intros Hall.
  apply (mul_spec a b (image (Permutation.permutation b))); intros i Hi;
    specialize (Hall i Hi); unfold undefined_at, image in *.
  - destruct (PyDict.get (Permutation.permutation b) i); [done|]. by destruct Hall.
  - destruct (PyDict.get (Permutation.permutation b) i) as [j|] eqn:Hj;
      [|by destruct Hall]. simpl.
    destruct (PyDict.get (Permutation.permutation a) j) eqn:Hv; [done|].
    by destruct Hall.
Qed.

(** X5: [self * other] never validates its operands: it raises [KeyError]
    exactly when for some [i] of [1..num_letters] the entry [other[i]] or
    [self[other[i]]] is missing, and otherwise returns a permutation on the
    keys [1..num_letters] of [self], whatever else the operands hold. *)
Theorem mul_key_error (a b : Permutation.t) :
  (Permutation.__mul__ a b = Raise KeyError
   ↔ ∃ i, 1 ≤ i ≤ Permutation.num_letters a ∧ undefined_at a b i)
  ∧ (Permutation.__mul__ a b = Raise KeyError
     ∨ ∃ c, Permutation.__mul__ a b = Ok c
            ∧ PyDict.keys (Permutation.permutation c)
              = seqZ 1 (Permutation.num_letters a)).
Proof.
  set (n := Permutation.num_letters a).
  destruct (decide (Exists (undefined_at a b) (seqZ 1 n))) as [Hex|Hnex].
  - apply Exists_exists in Hex as (i & Hi & Hu).
    apply elem_of_seqZ in Hi.
    assert (Hr : Permutation.__mul__ a b = Raise KeyError)
      by (apply (mul_undefined_raises a b i); [fold n; lia|done]).
    split; [|by left]. split; [|done]. intros _. exists i. split; [lia|done].
  - assert (Hall : ∀ i, 1 ≤ i ≤ n → ¬ undefined_at a b i).
    { intros i Hi Hu. apply Hnex, Exists_exists. exists i. split; [|done].
      apply elem_of_seqZ. lia. }
    pose proof (mul_defined_returns a b Hall) as Hok. fold n in Hok.
    split.
    + rewrite Hok. split; [done|]. intros (i & Hi & Hu). by destruct (Hall i Hi).
    + right. eexists. split; [exact Hok|]. simpl. apply keys_fmap_diag.
Qed.

(** X6: a product whose right factor is a valid permutation of smaller
    degree raises [KeyError]. *)
Theorem mul_smaller_degree (a b : Permutation.t) :
  valid b →
  Permutation.num_letters b < Permutation.num_letters a →
  Permutation.__mul__ a b = Raise KeyError.
Proof.
  intros [Hn Hbij] Hlt.
  apply (mul_undefined_raises a b (Permutation.num_letters a)).
  - assert (0 ≤ Permutation.num_letters b) by (rewrite Hn; apply len_nonneg). lia.
  - unfold undefined_at.
    assert (Hnone : PyDict.get (Permutation.permutation b) (Permutation.num_letters a) = None)
      by (apply get_None; rewrite (bij_keys _ Hbij); lia).
    by rewrite Hnone.
Qed.

Lemma mul_smaller_degree_witness :
  Permutation.__mul__ cycle123 swap12 = Raise KeyError.
Proof.
  apply (mul_smaller_degree cycle123 swap12 swap12_valid). reflexivity.
Defined.

(** ** Powers *)

Lemma for_each_mul_acts n (p : Permutation.t) f k : ∀ a h,
  0 ≤ n → acts n p f → (∀ i, 1 ≤ i ≤ n → 1 ≤ f i ≤ n) →
  acts n a h →
  ∃ c, for_each Permutation.__mul__ (replicate k p) a = Ok c
       ∧ acts n c (λ i, h (Nat.iter k f i)).
Proof.
  induction k as [|k IH]; intros a h H0 Hp Hf Ha.
  - exists a. split; [done|]. eapply acts_ext; [|exact Ha]. done.
  - cbn [replicate for_each].
    rewrite (mul_diag n a p h f H0 Ha Hp Hf), Ok_bind.
    destruct (IH _ (λ i, h (f i)) H0 Hp Hf (diag_acts n _ H0)) as (c & Hc & Hca).
    exists c. split; [done|]. eapply acts_ext; [|exact Hca].
    intros i Hi. done.
Qed.

Lemma iter_range n (f : Z → Z) k i :
  (∀ i, 1 ≤ i ≤ n → 1 ≤ f i ≤ n) → 1 ≤ i ≤ n → 1 ≤ Nat.iter k f i ≤ n.
Proof. intros Hf Hi. induction k; simpl; auto. Qed.

Lemma iter_inj n (f : Z → Z) k :
  bijective_on n f → bijective_on n (Nat.iter k f).
Proof.
  intros [Hr Hi]. split.
  - intros i ?. by apply iter_range.
  - induction k as [|k IH]; intros i j ? ? Heq; [done|]. simpl in Heq.
    apply IH; [done..|]. apply Hi; [by apply iter_range..|done].
Qed.

Lemma reduce_mul_acts n (p : Permutation.t) f k :
  0 ≤ n → acts n p f → (∀ i, 1 ≤ i ≤ n → 1 ≤ f i ≤ n) →
  ∃ c, reduce Permutation.__mul__ (replicate (S k) p) = Ok c
       ∧ acts n c (Nat.iter (S k) f).
Proof.
  intros H0 Hp Hf. cbn [replicate reduce].
  destruct (for_each_mul_acts n p f k p f H0 Hp Hf Hp) as (c & Hc & Hca).
  exists c. split; [done|]. done.
Qed.

Lemma pow_pos_acts (p : Permutation.t) (N : Z) :
  valid p → 0 < N →
  ∃ c, Permutation.__pow__ p N = Ok c
       ∧ acts (Permutation.num_letters p) c
           (Nat.iter (Z.to_nat N) (image (Permutation.permutation p))).
Proof.
  intros Hp HN. destruct (valid_acts p Hp) as [Ha [Hr _]].
  assert (H0 : 0 ≤ Permutation.num_letters p) by (rewrite (proj1 Hp); apply len_nonneg).
  unfold Permutation.__pow__. rewrite decide_False by lia. rewrite decide_True by lia.
  destruct (Z.to_nat N) as [|k] eqn:Hk; [lia|].
  by apply reduce_mul_acts.
Qed.

Lemma pow_zero_acts (p : Permutation.t) :
  0 ≤ Permutation.num_letters p →
  Permutation.__pow__ p 0 = Ok (diag_obj (Permutation.num_letters p) (λ i, i)).
Proof.
  intros H0. unfold Permutation.__pow__. rewrite decide_True by done.
  rewrite identity_dict_spec. unfold Permutation.__init__, diag_obj.
  by rewrite len_fmap_seqZ.
Qed.

Lemma pow_neg_acts (p : Permutation.t) (N : Z) :
  valid p → N < 0 →
  ∃ q c, Permutation.__invert__ p = Ok q
       ∧ Permutation.__pow__ p N = Ok c
       ∧ acts (Permutation.num_letters p) c
           (Nat.iter (Z.to_nat (- N)) (image (Permutation.permutation q))).
Proof.
  intros Hp HN.
  assert (H0 : 0 ≤ Permutation.num_letters p) by (rewrite (proj1 Hp); apply len_nonneg).
  destruct (invert_acts p Hp) as (q & Hq & Hqa & _ & [Hr _]).
  exists q. unfold Permutation.__pow__.
  rewrite decide_False by lia. rewrite decide_False by lia.
  rewrite Hq, Ok_bind. rewrite Z.abs_neq by lia.
  destruct (Z.to_nat (- N)) as [|k] eqn:Hk; [lia|].
  destruct (reduce_mul_acts _ q _ k H0 Hqa Hr) as (c & Hc & Hca).
  by exists c.
Qed.

Lemma iter_left_inverse n (f g : Z → Z) k i :
  (∀ i, 1 ≤ i ≤ n → 1 ≤ f i ≤ n) →
  (∀ i, 1 ≤ i ≤ n → g (f i) = i) →
  1 ≤ i ≤ n → Nat.iter k g (Nat.iter k f i) = i.
Proof.
  intros Hf Hgf Hi. induction k as [|k IH]; [done|].
  rewrite Nat.iter_succ_r. simpl. rewrite Hgf by (by apply iter_range). done.
Qed.

(** X7: for [N > 0] the power [p ** N] of a valid permutation is returned,
    is a valid permutation of the same degree and maps [i] to the [N]-fold
    image of [i]; powers add up: [p ** (M + N)] equals [p ** M * p ** N]. *)
Theorem pow_positive (p : Permutation.t) (M N : Z) :
  valid p → 0 < M → 0 < N →
  ∃ pM pN pMN c,
    Permutation.__pow__ p M = Ok pM
    ∧ Permutation.__pow__ p N = Ok pN
    ∧ Permutation.__pow__ p (M + N) = Ok pMN
    ∧ valid pN
    ∧ Permutation.num_letters pN = Permutation.num_letters p
    ∧ (∀ i, 1 ≤ i ≤ Permutation.num_letters p →
         PyDict.get (Permutation.permutation pN) i
         = Some (Nat.iter (Z.to_nat N) (image (Permutation.permutation p)) i))
    ∧ Permutation.__mul__ pM pN = Ok c
    ∧ Permutation.__eq__ pMN c = true.
Proof.
  intros Hp HM HN.
  set (n := Permutation.num_letters p).
  set (f := image (Permutation.permutation p)).
  assert (H0 : 0 ≤ n) by (unfold n; rewrite (proj1 Hp); apply len_nonneg).
  destruct (valid_acts p Hp) as [_ Hf]. fold n f in Hf.
  destruct (pow_pos_acts p M Hp HM) as (pM & HpM & HaM).
  destruct (pow_pos_acts p N Hp HN) as (pN & HpN & HaN).
  destruct (pow_pos_acts p (M + N) Hp) as (pMN & HpMN & HaMN); [lia|].
  fold n f in HaM, HaN, HaMN.
  exists pM, pN, pMN,
    (diag_obj n (λ i, Nat.iter (Z.to_nat M) f (Nat.iter (Z.to_nat N) f i))).
  split; [done|]. split; [done|]. split; [done|].
  split; [|split; [|split; [|split]]].
  - apply (acts_valid n pN _ H0 HaN). by apply iter_inj.
  - apply HaN.
  - apply HaN.
  - apply (mul_diag n pM pN _ _ H0 HaM HaN). intros i Hi. apply iter_range; [apply Hf|done].
  - apply (acts_eq n pMN _ _ H0 HaMN). eapply acts_ext; [|apply (diag_acts n _ H0)].
    intros i Hi. simpl. rewrite Z2Nat.inj_add by lia. by rewrite Nat.iter_add.
Qed.

Lemma pow_positive_witness :
  ∃ pM pN pMN c,
    Permutation.__pow__ cycle123 1 = Ok pM
    ∧ Permutation.__pow__ cycle123 2 = Ok pN
    ∧ Permutation.__pow__ cycle123 (1 + 2) = Ok pMN
    ∧ valid pN
    ∧ Permutation.num_letters pN = Permutation.num_letters cycle123
    ∧ (∀ i, 1 ≤ i ≤ Permutation.num_letters cycle123 →
         PyDict.get (Permutation.permutation pN) i
         = Some (Nat.iter (Z.to_nat 2) (image (Permutation.permutation cycle123)) i))
    ∧ Permutation.__mul__ pM pN = Ok c
    ∧ Permutation.__eq__ pMN c = true.
Proof. apply (pow_positive cycle123 1 2 cycle123_valid); lia. Defined.

(** X8: a negative power of a valid permutation is the power of its inverse:
    [p ** (-1)] is [~p], and [p ** (-N) * p ** N] is the identity. *)
Theorem pow_negative (p : Permutation.t) (N : Z) :
  valid p → 0 < N →
  ∃ pN qN e,
    Permutation.__pow__ p (-1) = Permutation.__invert__ p
    ∧ Permutation.__pow__ p N = Ok pN
    ∧ Permutation.__pow__ p (- N) = Ok qN
    ∧ valid qN
    ∧ Permutation.__mul__ qN pN = Ok e
    ∧ Permutation.is_identity e = true.
Proof.
  intros Hp HN.
  set (n := Permutation.num_letters p).
  set (f := image (Permutation.permutation p)).
  assert (H0 : 0 ≤ n) by (unfold n; rewrite (proj1 Hp); apply len_nonneg).
  destruct (valid_acts p Hp) as [_ Hf]. fold n f in Hf.
  destruct (pow_pos_acts p N Hp HN) as (pN & HpN & HaN).
  destruct (pow_neg_acts p (- N) Hp) as (q & qN & Hq & HqN & HaqN); [lia|].
  rewrite Z.opp_involutive in HaqN.
  destruct (invert_acts p Hp) as (q' & Hq' & Hqa & Hleft & Hqb).
  rewrite Hq in Hq'. injection Hq' as <-.
  fold n f in HaN, HaqN, Hqa, Hleft, Hqb.
  set (g := image (Permutation.permutation q)) in *.
  exists pN, qN, (diag_obj n (λ i, Nat.iter (Z.to_nat N) g (Nat.iter (Z.to_nat N) f i))).
  split; [|split; [done|split; [done|split; [|split]]]].
  - unfold Permutation.__pow__. simpl. by destruct (Permutation.__invert__ p).
  - apply (acts_valid n qN _ H0 HaqN). by apply iter_inj.
  - apply (mul_diag n qN pN _ _ H0 HaqN HaN). intros i Hi.
    apply iter_range; [apply Hf|done].
  - apply (is_identity_acts n _ _ H0 (diag_acts n _ H0)).
    intros i Hi. apply (iter_left_inverse n); [apply Hf|done..].
Qed.

Lemma pow_negative_witness :
  ∃ pN qN e,
    Permutation.__pow__ cycle123 (-1) = Permutation.__invert__ cycle123
    ∧ Permutation.__pow__ cycle123 2 = Ok pN
    ∧ Permutation.__pow__ cycle123 (- 2) = Ok qN
    ∧ valid qN
    ∧ Permutation.__mul__ qN pN = Ok e
    ∧ Permutation.is_identity e = true.
Proof. apply (pow_negative cycle123 2 cycle123_valid); lia. Defined.

(** ** The order of a permutation *)

Lemma path_iter (f : Z → Z) l x target :
  is_path f (x :: l) target → Nat.iter (S (length l)) f x = target.
Proof.
  revert x. induction l as [|y l IH]; intros x Hp; [done|].
  destruct Hp as [Hxy Hp]. rewrite Nat.iter_succ_r, Hxy. by apply IH.
Qed.

Lemma iter_mul_fixed (f : Z → Z) L m x :
  Nat.iter L f x = x → Nat.iter (m * L) f x = x.
Proof.
  intros HL. induction m as [|m IH]; [done|].
  replace (S m * L)%nat with (m * L + L)%nat by lia.
  by rewrite Nat.iter_add, HL.
Qed.

Lemma divide_fact (L n : nat) : (1 ≤ L ≤ n)%nat → ∃ m, fact n = (m * L)%nat.
Proof.
  induction n as [|n IH]; intros HL; [lia|].
  destruct (decide (L = S n)) as [->|Hne].
  - exists (fact n). simpl. lia.
  - destruct IH as [m Hm]; [lia|]. exists (S n * m)%nat.
    change (fact (S n)) with (S n * fact n)%nat. rewrite Hm. lia.
Qed.

Lemma fact_pos (n : nat) : (1 ≤ fact n)%nat.
Proof. induction n; simpl; lia. Qed.

(** Every point returns to itself after [n!] steps. *)
Lemma iter_fact_fixed (d : dict) i :
  bijection d → 1 ≤ i ≤ PyDict.len d →
  Nat.iter (fact (length d)) (image d) i = i.
Proof.
  intros Hbij Hi.
  destruct (cycle_of_spec d Hbij i Hi) as ((l & Hl) & Hnd & Hr & Hp).
  rewrite Hl in Hp. apply path_iter in Hp.
  assert (Hlen : (S (length l) ≤ length d)%nat).
  { change (S (length l)) with (length (i :: l)). rewrite <-Hl.
    apply (bounded_NoDup_length d); [done|]. exact Hr. }
  destruct (divide_fact (S (length l)) (length d)) as [m Hm]; [lia|].
  rewrite Hm. by apply iter_mul_fixed.
Qed.

(** The least number with a decidable property, below a number that has it. *)
Lemma least_below (P : nat → Prop) `{∀ k, Decision (P k)} (K : nat) :
  P K → ∃ k, (k ≤ K)%nat ∧ P k ∧ ∀ j, (j < k)%nat → ¬ P j.
Proof.
  induction K as [K IH] using lt_wf_ind. intros HK.
  destruct (decide (Exists P (seq 0 K))) as [Hex|Hnex].
  - apply Exists_exists in Hex as (j & Hj & HPj). apply elem_of_seq in Hj.
    destruct (IH j) as (k & Hk & HPk & Hleast); [lia|done|].
    exists k. split; [lia|done].
  - exists K. split; [done|]. split; [done|]. intros j Hj HPj.
    apply Hnex, Exists_exists. exists j. split; [|done]. apply elem_of_seq. lia.
Qed.

Lemma iter_identity_spec n f k :
  iter_identity n f k ↔ ∀ i, 1 ≤ i ≤ n → Nat.iter k f i = i.
Proof.
  unfold iter_identity. rewrite Forall_forall. split; intros H i Hi.
  - apply H, elem_of_seqZ. lia.
  - apply H. apply elem_of_seqZ in Hi. lia.
Qed.

Lemma get_order_loop n (p : Permutation.t) f :
  0 ≤ n → acts n p f → (∀ i, 1 ≤ i ≤ n → 1 ≤ f i ≤ n) →
  ∀ (m : nat) (fuel : nat) (product : Permutation.t) (count : nat),
    acts n product (Nat.iter count f) →
    (∀ j, (count ≤ j < count + m)%nat → ¬ iter_identity n f j) →
    iter_identity n f (count + m) →
    (m ≤ fuel)%nat →
    ∃ product',
      while_loop fuel
        (λ st : Permutation.t * Z, Ok (negb (Permutation.is_identity st.1)))
        (λ st, product ← Permutation.__mul__ st.1 p; mret (product, st.2 + 1))
        (product, Z.of_nat count)
      = Ok (product', Z.of_nat (count + m)).
Proof.
  intros H0 Hp Hf. induction m as [|m IH]; intros fuel product count Ha Hlt Hid Hfuel.
  - exists product. rewrite Nat.add_0_r in *.
    rewrite while_loop_false; [done|]. simpl.
    rewrite (proj2 (is_identity_acts n product _ H0 Ha)); [done|].
    by apply iter_identity_spec.
  - destruct fuel as [|fuel]; [lia|].
    rewrite while_loop_true.
    2:{ simpl. destruct (Permutation.is_identity product) eqn:Hi; [|done].
        pose proof (proj1 (is_identity_acts n product _ H0 Ha) Hi) as Hid'.
        apply iter_identity_spec in Hid'.
        destruct (Hlt count); [lia|done]. }
    cbn [fst snd].
    rewrite (mul_diag n product p _ f H0 Ha Hp Hf), !Ok_bind.
    destruct (IH fuel (diag_obj n (λ i, Nat.iter count f (f i))) (S count))
      as (product' & Hloop).
    + eapply acts_ext; [|apply (diag_acts n _ H0)].
      intros i Hi. symmetry. apply Nat.iter_succ_r.
    + intros j Hj. apply Hlt. lia.
    + by replace (S count + m)%nat with (count + S m)%nat by lia.
    + lia.
    + exists product'.
      replace (Z.of_nat count + 1) with (Z.of_nat (S count)) by lia.
      rewrite Hloop. f_equal. f_equal. lia.
Qed.

(** X9: [get_order] of a valid permutation terminates, after fewer loop
    iterations than its result, with the least [k ≥ 1] for which [p ** k] is
    the identity; [k] is at most the factorial of the degree. *)
Theorem get_order_least (p : Permutation.t) :
  valid p →
  ∃ k : Z,
    1 ≤ k ≤ Z.of_nat (fact (Z.to_nat (Permutation.num_letters p)))
    ∧ (∀ fuel, (Z.to_nat k - 1 ≤ fuel)%nat → Permutation.get_order fuel p = Ok k)
    ∧ (∃ q, Permutation.__pow__ p k = Ok q ∧ Permutation.is_identity q = true)
    ∧ (∀ j, 1 ≤ j < k →
         ∃ q, Permutation.__pow__ p j = Ok q ∧ Permutation.is_identity q = false).
Proof.
  intros Hp. pose proof Hp as [Hn Hbij].
  set (n := Permutation.num_letters p) in *.
  set (f := image (Permutation.permutation p)).
  assert (H0 : 0 ≤ n) by (rewrite Hn; apply len_nonneg).
  destruct (valid_acts p Hp) as [Ha [Hf Hinj]]. fold n f in Ha, Hf, Hinj.
  assert (Hlen : Z.to_nat n = length (Permutation.permutation p))
    by (rewrite Hn; unfold PyDict.len; lia).
  set (P := λ k : nat, (1 ≤ k)%nat ∧ iter_identity n f k).
  assert (HK : P (fact (Z.to_nat n))).
  { split; [apply fact_pos|]. apply iter_identity_spec. intros i Hi.
    rewrite Hlen. apply iter_fact_fixed; [done|]. by rewrite <-Hn. }
  destruct (least_below P _ HK) as (k & HkK & [Hk1 Hkid] & Hleast).
  assert (Hpow : ∀ j : nat, (1 ≤ j)%nat →
            ∃ q, Permutation.__pow__ p (Z.of_nat j) = Ok q
                 ∧ (Permutation.is_identity q = true ↔ iter_identity n f j)).
  { intros j Hj. destruct (pow_pos_acts p (Z.of_nat j) Hp) as (q & Hq & Hqa); [lia|].
    rewrite Nat2Z.id in Hqa. exists q. split; [done|].
    rewrite (is_identity_acts n q _ H0 Hqa). symmetry. apply iter_identity_spec. }
  exists (Z.of_nat k). split; [lia|]. split; [|split].
  - intros fuel Hfuel. unfold Permutation.get_order.
    destruct (get_order_loop n p f H0 Ha Hf (k - 1) fuel p 1) as (product' & Hloop).
    + done.
    + intros j Hj Hid. apply (Hleast j); [lia|]. split; [lia|done].
    + by replace (1 + (k - 1))%nat with k by lia.
    + lia.
    + change (Z.of_nat 1) with 1 in Hloop. rewrite Hloop. simpl. f_equal. lia.
  - destruct (Hpow k Hk1) as (q & Hq & Hiff). exists q. split; [done|]. by apply Hiff.
  - intros j Hj. destruct (Hpow (Z.to_nat j)) as (q & Hq & Hiff); [lia|].
    rewrite Z2Nat.id in Hq by lia. exists q. split; [done|].
    destruct (Permutation.is_identity q) eqn:Hi; [|done].
    destruct (Hleast (Z.to_nat j)); [lia|]. split; [lia|]. by apply Hiff.
Qed.

Lemma get_order_least_witness :
  ∃ k : Z,
    1 ≤ k ≤ Z.of_nat (fact (Z.to_nat (Permutation.num_letters cycle123)))
    ∧ (∀ fuel, (Z.to_nat k - 1 ≤ fuel)%nat → Permutation.get_order fuel cycle123 = Ok k)
    ∧ (∃ q, Permutation.__pow__ cycle123 k = Ok q ∧ Permutation.is_identity q = true)
    ∧ (∀ j, 1 ≤ j < k →
         ∃ q, Permutation.__pow__ cycle123 j = Ok q ∧ Permutation.is_identity q = false).
Proof. apply (get_order_least cycle123 cycle123_valid). Defined.

(** ** Tracing a cycle *)

Lemma path_iter_list (f : Z → Z) l x target :
  is_path f (x :: l) target →
  x :: l = (λ j, Nat.iter j f x) <$> seq 0 (S (length l)).
Proof.
  revert x. induction l as [|y l IH]; intros x Hp; [done|].
  destruct Hp as [Hxy Hp]. specialize (IH y Hp).
  cbn [length]. rewrite <-cons_seq, <-fmap_S_seq. rewrite fmap_cons.
  f_equal. rewrite IH at 1. rewrite <-list_fmap_compose. apply list_fmap_ext.
  intros ? j _. simpl. rewrite <-Hxy. symmetry. apply (Nat.iter_succ_r j f x).
Qed.

Lemma iter_image_succ (f : Z → Z) j x : f (Nat.iter j f x) = Nat.iter (S j) f x.
Proof. done. Qed.

(** X10: for a start [k] among the letters of a valid permutation,
    [find_cycle_dict] returns the restriction of the permutation to the
    orbit of [k]: its entries are [k], [p[k]], [p[p[k]]], ... in this order,
    each with its image, up to the first return to [k]. For a start that is
    no key of the mapping it raises [KeyError], whatever the mapping. *)
Theorem find_cycle_dict_orbit (p : Permutation.t) (fuel : nat) :
  let f := image (Permutation.permutation p) in
  (∀ k, valid p →
        1 ≤ k ≤ Permutation.num_letters p →
        (length (Permutation.permutation p) ≤ fuel)%nat →
        ∃ L : nat,
          (1 ≤ L ≤ length (Permutation.permutation p))%nat
          ∧ Permutation.find_cycle_dict fuel p k
            = Ok ((λ j, (Nat.iter j f k, Nat.iter (S j) f k)) <$> seq 0 L)
          ∧ Nat.iter L f k = k
          ∧ ∀ j, (0 < j < L)%nat → Nat.iter j f k ≠ k)
  ∧ (∀ k, PyDict.get (Permutation.permutation p) k = None →
          Permutation.find_cycle_dict fuel p k = Raise KeyError).
Proof.
  intros f. split.
  - intros k [Hn Hbij] Hk Hfuel. rewrite Hn in Hk.
    destruct (cycle_of_spec _ Hbij k Hk) as ((l & Hl) & Hnd & Hr & Hp).
    rewrite Hl in Hp. pose proof (path_iter_list _ _ _ _ Hp) as Hlist.
    pose proof (path_iter _ _ _ _ Hp) as Hret. fold f in Hlist, Hret.
    exists (S (length l)). split; [|split; [|split; [done|]]].
    + split; [lia|]. change (S (length l)) with (length (k :: l)). rewrite <-Hl.
      by apply (bounded_NoDup_length _ (cycle_of _ k)).
    + rewrite (find_cycle_dict_spec p Hbij fuel k Hk Hfuel), Hl, Hlist.
      rewrite <-list_fmap_compose. done.
    + intros j Hj Heq. rewrite Hl, Hlist in Hnd.
      assert (H0 : ((λ j, Nat.iter j f k) <$> seq 0 (S (length l))) !! 0%nat = Some k) by done.
      assert (Hj' : ((λ j, Nat.iter j f k) <$> seq 0 (S (length l))) !! j = Some k).
      { rewrite list_lookup_fmap, lookup_seq_lt by lia. simpl. by rewrite Heq. }
      pose proof (NoDup_lookup _ _ _ _ Hnd H0 Hj'). lia.
  - intros k Hk. unfold Permutation.find_cycle_dict.
    destruct fuel; simpl; unfold PyDict.getitem; by rewrite Hk.
Qed.

Lemma find_cycle_dict_orbit_witness :
  ∃ L : nat,
    (1 ≤ L ≤ length (Permutation.permutation cycle123))%nat
    ∧ Permutation.find_cycle_dict 4 cycle123 2
      = Ok ((λ j, (Nat.iter j (image (Permutation.permutation cycle123)) 2,
                   Nat.iter (S j) (image (Permutation.permutation cycle123)) 2))
              <$> seq 0 L)
    ∧ Nat.iter L (image (Permutation.permutation cycle123)) 2 = 2
    ∧ ∀ j, (0 < j < L)%nat → Nat.iter j (image (Permutation.permutation cycle123)) 2 ≠ 2.
Proof.
  apply (proj1 (find_cycle_dict_orbit cycle123 4) 2 cycle123_valid); [simpl; lia|simpl; lia].
Defined.

(** ** Transpositions *)

Lemma length_two_inv {A} (l : list A) : length l = 2%nat → ∃ a b, l = [a; b].
Proof. destruct l as [|a [|b [|c l]]]; intros [=]. by exists a, b. Qed.

(** X11: [is_transposition] holds of a valid permutation exactly when it
    swaps two different letters and fixes every other one; such a
    permutation is its own inverse: [p * p] is the identity. *)
Theorem is_transposition_swap (p : Permutation.t) :
  valid p →
  (Permutation.is_transposition p = true
   ↔ ∃ a b, a ≠ b
          ∧ PyDict.get (Permutation.permutation p) a = Some b
          ∧ PyDict.get (Permutation.permutation p) b = Some a
          ∧ ∀ i, 1 ≤ i ≤ Permutation.num_letters p → i ≠ a → i ≠ b →
                 PyDict.get (Permutation.permutation p) i = Some i)
  ∧ (Permutation.is_transposition p = true →
     ∃ e, Permutation.__mul__ p p = Ok e ∧ Permutation.is_identity e = true).
Proof.
  intros Hp. pose proof Hp as [Hn Hbij].
  set (d := Permutation.permutation p) in *.
  set (moved := filter (λ i, PyDict.get d i ≠ Some i) (PyDict.keys d)).
  assert (Hnd : NoDup moved) by (apply NoDup_filter, (bij_wf d Hbij)).
  assert (Hmoved : ∀ i, i ∈ moved ↔ 1 ≤ i ≤ PyDict.len d ∧ PyDict.get d i ≠ Some i).
  { intros i. unfold moved. rewrite list_elem_of_filter, (bij_keys d Hbij). tauto. }
  assert (Hiff : Permutation.is_transposition p = true
   ↔ ∃ a b, a ≠ b ∧ PyDict.get d a = Some b ∧ PyDict.get d b = Some a
          ∧ ∀ i, 1 ≤ i ≤ Permutation.num_letters p → i ≠ a → i ≠ b →
                 PyDict.get d i = Some i).
  { unfold Permutation.is_transposition. rewrite bool_decide_eq_true.
    fold d. fold moved. rewrite Hn. split.
    - intros (a & b & Hab)%length_two_inv.
      assert (Hne : a ≠ b).
      { rewrite Hab in Hnd. apply NoDup_cons in Hnd as [Hnotin _].
        intros ->. apply Hnotin. left. }
      assert (Hstep : ∀ x, x ∈ moved → ∃ y, PyDict.get d x = Some y ∧ y ≠ x ∧ y ∈ moved).
      { intros x [Hx Hmv]%Hmoved.
        destruct (bij_get d Hbij x Hx) as (y & Hy & Hyr).
        exists y. split; [done|]. split; [congruence|].
        apply Hmoved. split; [done|]. intros Hyy.
        apply Hmv. rewrite Hy. f_equal. symmetry. apply (bij_inj d Hbij x y y Hy Hyy). }
      exists a, b. split; [done|]. split; [|split].
      + destruct (Hstep a) as (y & Hy & Hya & Hym); [rewrite Hab; left|].
        rewrite Hab in Hym. apply elem_of_cons in Hym as [->|Hym]; [done|].
        apply list_elem_of_singleton in Hym. by subst y.
      + destruct (Hstep b) as (y & Hy & Hyb & Hym); [rewrite Hab; right; left|].
        rewrite Hab in Hym. apply elem_of_cons in Hym as [->|Hym]; [done|].
        apply list_elem_of_singleton in Hym. by subst y.
      + intros i Hi Hia Hib.
        destruct (decide (PyDict.get d i = Some i)) as [|Hmv]; [done|].
        assert (Him : i ∈ moved) by (by apply Hmoved).
        rewrite Hab in Him. apply elem_of_cons in Him as [->|Him]; [done|].
        apply list_elem_of_singleton in Him. by subst i.
    - intros (a & b & Hne & Ha & Hb & Hfix).
      assert (Hperm : moved ≡ₚ [a; b]).
      { apply NoDup_Permutation; [done| |].
        - apply NoDup_cons. split; [|apply NoDup_singleton].
          intros ?%list_elem_of_singleton. done.
        - intros i. rewrite Hmoved, elem_of_cons, list_elem_of_singleton. split.
          + intros [Hi Hmv]. destruct (decide (i = a)); [by left|].
            destruct (decide (i = b)); [by right|]. destruct Hmv. by apply Hfix.
          + intros [->| ->].
            * split; [apply (bij_get_range d Hbij a b Ha)|congruence].
            * split; [apply (bij_get_range d Hbij b a Hb)|congruence]. }
      by rewrite Hperm. }
  split; [exact Hiff|].
  intros (a & b & Hne & Ha & Hb & Hfix)%Hiff.
  destruct (mul_valid_diag p p Hp Hp eq_refl) as [Hmul _]. fold d in Hmul.
  eexists. split; [exact Hmul|].
  assert (H0 : 0 ≤ Permutation.num_letters p) by (rewrite Hn; apply len_nonneg).
  apply (is_identity_acts _ _ _ H0 (diag_acts _ _ H0)).
  intros i Hi. unfold image.
  destruct (decide (i = a)) as [->|Hia]; [by rewrite Ha; simpl; rewrite Hb|].
  destruct (decide (i = b)) as [->|Hib]; [by rewrite Hb; simpl; rewrite Ha|].
  rewrite (Hfix i Hi Hia Hib). simpl. by rewrite (Hfix i Hi Hia Hib).
Qed.

Lemma is_transposition_swap_witness :
  (Permutation.is_transposition swap12 = true
   ↔ ∃ a b, a ≠ b
          ∧ PyDict.get (Permutation.permutation swap12) a = Some b
          ∧ PyDict.get (Permutation.permutation swap12) b = Some a
          ∧ ∀ i, 1 ≤ i ≤ Permutation.num_letters swap12 → i ≠ a → i ≠ b →
                 PyDict.get (Permutation.permutation swap12) i = Some i)
  ∧ (Permutation.is_transposition swap12 = true →
     ∃ e, Permutation.__mul__ swap12 swap12 = Ok e ∧ Permutation.is_identity e = true).
Proof. apply (is_transposition_swap swap12 swap12_valid). Defined.

(** ** Single cycles *)

Lemma path_moved (f : Z → Z) l target :
  is_path f l target → NoDup l →
  (∀ z, last l = Some z → target ≠ z) →
  ∀ z, z ∈ l → f z ≠ z.
Proof.
  induction l as [|x l IH]; intros Hp Hnd Hlast z Hz; [by apply elem_of_nil in Hz|].
  apply NoDup_cons in Hnd as [Hx Hnd]. destruct l as [|y l].
  - apply list_elem_of_singleton in Hz. subst z. simpl in Hp. rewrite Hp.
    by apply Hlast.
  - destruct Hp as [Hxy Hp]. apply elem_of_cons in Hz as [->|Hz].
    + rewrite Hxy. intros ->. apply Hx. left.
    + by apply IH.
Qed.

Lemma path_all (f : Z → Z) (P : Z → Prop) l target :
  (∀ y, P y → P (f y)) → is_path f l target →
  (∀ x, head l = Some x → P x) → ∀ z, z ∈ l → P z.
Proof.
  intros Hcl. induction l as [|x l IH]; intros Hp Hh z Hz; [by apply elem_of_nil in Hz|].
  assert (Hx : P x) by (by apply Hh).
  apply elem_of_cons in Hz as [->|Hz]; [done|].
  destruct l as [|y l]; [by apply elem_of_nil in Hz|].
  destruct Hp as [Hxy Hp]. apply IH; [done| |done].
  intros ? [= <-]. rewrite <-Hxy. by apply Hcl.
Qed.

Lemma concat_common_length (x : Z) (ls : list (list Z)) :
  NoDup (concat ls) → (∀ l, l ∈ ls → x ∈ l) → (length ls ≤ 1)%nat.
Proof.
  intros Hnd Hall. destruct ls as [|l1 [|l2 ls]]; simpl; [lia..|exfalso].
  cbn [concat] in Hnd. apply NoDup_app in Hnd as (_ & Hdisj & _).
  apply (Hdisj x).
  - apply Hall. left.
  - apply elem_of_app. left. apply Hall. right. left.
Qed.

Lemma last_elem_of (l : list Z) z : last l = Some z → z ∈ l.
Proof.
  induction l as [|x [|y l] IH]; [done| |].
  - intros [= ->]. left.
  - intros H. right. by apply IH.
Qed.

Lemma single_cycle_iff (d : dict) :
  bijection d →
  length (nontrivial_cycles d) = 1%nat ↔ ∃ c, acts_as_cycle (PyDict.len d) d c.
Proof.
  intros Hbij. destruct (nontrivial_cycles_spec d Hbij) as [Hnd Hall].
  rewrite Forall_forall in Hall. split.
  - intros Hlen. destruct (nontrivial_cycles d) as [|c [|c' cs]] eqn:Hcs; try done.
    destruct (Hall c) as (Hc & k & Hk & Hck); [left|].
    destruct (cycle_of_spec d Hbij k Hk) as ((l & Hl) & Hndc & Hr & Hp).
    exists c. split; [done|]. rewrite Hck. split; [done|]. split.
    + by rewrite Hl at 2.
    + intros i Hi Hic. pose proof (apply_nontrivial_cycles d Hbij i Hi) as Happ.
      rewrite Hcs, Hck in Happ. unfold apply_cycles, cycle_map in Happ. simpl in Happ.
      rewrite decide_False in Happ by done.
      rewrite (image_get d Hbij i Hi). by rewrite <-Happ.
  - intros (c & Hlen & Hndc & Hp & Hfix).
    destruct c as [|h c']; [simpl in Hlen; lia|].
    change (is_path (image d) (h :: c') h) in Hp.
    assert (Hmv : ∀ z, z ∈ h :: c' → image d z ≠ z).
    { apply (path_moved _ _ h Hp Hndc). intros z Hz ->.
      destruct c' as [|y c'']; [simpl in Hlen; lia|].
      apply NoDup_cons in Hndc as [Hh _]. apply Hh.
      apply (last_elem_of (y :: c'')). exact Hz. }
    assert (Hin : ∀ z, 1 ≤ z ≤ PyDict.len d → image d z ≠ z → z ∈ h :: c').
    { intros z Hz Hne. destruct (decide (z ∈ h :: c')) as [|Hnot]; [done|].
      destruct Hne. unfold image. by rewrite (Hfix z Hz Hnot). }
    assert (Hrange : ∀ z, z ∈ h :: c' → 1 ≤ z ≤ PyDict.len d).
    { intros z Hz%Hmv. destruct (PyDict.get d z) as [v|] eqn:Hv.
      - apply (bij_get_range d Hbij z v Hv).
      - destruct Hz. unfold image. by rewrite Hv. }
    assert (Hcontains : ∀ l, l ∈ nontrivial_cycles d → h ∈ l).
    { intros l Hl. destruct (Hall l Hl) as (Hll & k & Hk & ->).
      assert (Hkc : k ∈ h :: c').
      { apply Hin; [done|]. intros Hfixk. rewrite (cycle_of_fixed d k Hfixk) in Hll.
        destruct (length d); simpl in Hll; lia. }
      apply (path_reach (image d) (λ x, x ∈ cycle_of d k) (h :: c') h k);
        [|done|done|by apply cycle_of_head].
      intros y Hy. by apply cycle_of_closed. }
    pose proof (concat_common_length h _ Hnd Hcontains) as Hle.
    destruct (nontrivial_cycles d) as [|c1 cs] eqn:Hcs; [exfalso|simpl in *; lia].
    assert (Hh : 1 ≤ h ≤ PyDict.len d) by (apply Hrange; left).
    pose proof (apply_nontrivial_cycles d Hbij h Hh) as Happ.
    rewrite Hcs in Happ. apply (Hmv h); [left|]. by rewrite <-Happ.
Qed.

(** X12: on a valid permutation with an empty cache, [is_cycle] returns
    [True] exactly when the permutation moves the points of one cycle of
    length at least two along it and fixes all others (so the identity is no
    cycle); the decomposition it computed is cached in the object, and a
    second call answers from the cache without tracing again. This holds in
    whatever order the sets of fixed points are iterated. *)
Theorem is_cycle_single_orbit (set_order : gset Z → list Z) (p : Permutation.t)
    (fuel : nat) :
  enumerates set_order →
  valid p →
  Permutation._cycle_decomposition p = None →
  (length (Permutation.permutation p) ≤ fuel)%nat →
  ∃ b p' cs,
    Permutation.is_cycle set_order fuel p = Ok (b, p')
    ∧ (b = true ↔ ∃ c, acts_as_cycle (Permutation.num_letters p)
                         (Permutation.permutation p) c)
    ∧ (Permutation.is_identity p = true → b = false)
    ∧ Permutation.permutation p' = Permutation.permutation p
    ∧ Permutation.get_cycle_decomposition set_order fuel p = Ok cs
    ∧ Permutation._cycle_decomposition p' = Some cs
    ∧ ∀ fuel', Permutation.is_cycle set_order fuel' p' = Ok (b, p').
Proof.
  intros Horder Hp Hcache Hfuel. pose proof Hp as [Hn Hbij].
  unfold Permutation.is_cycle, Permutation.cycle_decomposition.
  rewrite Hcache, (get_cycle_decomposition_spec p Hbij set_order Horder fuel Hfuel). simpl.
  do 3 eexists. split; [done|].
  unfold cycle_factors. rewrite length_fmap.
  split; [|split; [|split; [done|split; [done|split; [done|]]]]].
  - rewrite Hn, <-single_cycle_iff by done. by case_decide.
  - intros Hid%nontrivial_cycles_nil; [|done]. rewrite Hid. done.
  - intros fuel'. simpl. by rewrite length_fmap.
Qed.

Lemma is_cycle_single_orbit_witness :
  ∃ b p' cs,
    Permutation.is_cycle PySet.iter 4 cycle123 = Ok (b, p')
    ∧ (b = true ↔ ∃ c, acts_as_cycle (Permutation.num_letters cycle123)
                         (Permutation.permutation cycle123) c)
    ∧ (Permutation.is_identity cycle123 = true → b = false)
    ∧ Permutation.permutation p' = Permutation.permutation cycle123
    ∧ Permutation.get_cycle_decomposition PySet.iter 4 cycle123 = Ok cs
    ∧ Permutation._cycle_decomposition p' = Some cs
    ∧ ∀ fuel', Permutation.is_cycle PySet.iter fuel' p' = Ok (b, p').
Proof.
  apply (is_cycle_single_orbit PySet.iter cycle123 4 iter_enumerates cycle123_valid);
    [reflexivity|simpl; lia].
Defined.

(** ** Residue classes *)

Lemma new_residue_of (c : residue_cls) (r n : Z) :
  0 < n < 2 ^ 53 → ResidueClass.new c r n = Ok (residue_of c n (r mod n)).
Proof.
  intros Hn. unfold ResidueClass.new, py_mod.
  rewrite decide_False by lia. rewrite Ok_bind.
  destruct c; simpl; [done|..]; unfold math_gcd;
    (rewrite int_true_div_divide; [done|done| |apply Z.gcd_divide_r]);
    (pose proof (Z.gcd_nonneg (r mod n) n);
     assert (Z.gcd (r mod n) n ≠ 0) by (intros [_ ?]%Z.gcd_eq_0; lia); lia).
Qed.

(** X13: every constructor of a residue class raises [ZeroDivisionError]
    for the modulus 0, and that of [AdditiveResidueClass] raises
    [OverflowError] for the modulus [2^1024], where the order is too large
    for a float. For a modulus [0 < n < 2^53] the constructor stores the
    residue reduced modulo [n], in [0, n); two elements built for one
    modulus are equal exactly when their residues are congruent, equal
    elements have equal hashes, and building an element again from its
    stored residue gives the same element. *)
Theorem residue_constructor (c : residue_cls) (r1 r2 n : Z) :
  ResidueClass.new c r1 0 = Raise ZeroDivisionError
  ∧ ResidueClass.new Additive_cls 1 (2 ^ 1024) = Raise OverflowError
  ∧ (0 < n < 2 ^ 53 →
     ∃ x y, ResidueClass.new c r1 n = Ok x
          ∧ ResidueClass.new c r2 n = Ok y
          ∧ cls x = c ∧ modulus x = n ∧ residue x = r1 mod n
          ∧ (0 < n → 0 ≤ residue x < n)
          ∧ (ResidueClass.__eq__ x y = true ↔ (r1 - r2) mod n = 0)
          ∧ (∀ py_hash, ResidueClass.__eq__ x y = true →
               ResidueClass.__hash__ py_hash x = ResidueClass.__hash__ py_hash y)
          ∧ ResidueClass.new c (residue x) n = Ok x).
Proof.
  split; [done|]. split; [by vm_compute|]. intros Hb. assert (Hn : n ≠ 0) by lia.
  exists (residue_of c n (r1 mod n)), (residue_of c n (r2 mod n)).
  rewrite !new_residue_of by done.
  split; [done|]. split; [done|]. split; [done|]. split; [done|]. split; [done|].
  split; [|split; [|split]].
  - intros Hpos. simpl. apply Z.mod_pos_bound. lia.
  - unfold ResidueClass.__eq__. simpl.
    rewrite andb_true_iff, !bool_decide_eq_true.
    rewrite Zminus_mod. split.
    + intros [-> _]. by rewrite Z.sub_diag, Z.mod_0_l.
    + intros H. split; [|done].
      rewrite <-Zminus_mod in H. apply Z.mod_divide in H; [|done].
      destruct H as [q Hq].
      replace r1 with (r2 + q * n) by lia. by rewrite Z.mod_add.
  - intros py_hash. unfold ResidueClass.__eq__, ResidueClass.__hash__.
    rewrite andb_true_iff, !bool_decide_eq_true. by intros [-> ->].
  - simpl. by rewrite Z.mod_mod.
Qed.

Lemma residue_constructor_witness :
  ∃ x y, ResidueClass.new Additive_cls 9 6 = Ok x
       ∧ ResidueClass.new Additive_cls 3 6 = Ok y
       ∧ cls x = Additive_cls ∧ modulus x = 6 ∧ residue x = 9 mod 6
       ∧ (0 < 6 → 0 ≤ residue x < 6)
       ∧ (ResidueClass.__eq__ x y = true ↔ (9 - 3) mod 6 = 0)
       ∧ (∀ py_hash, ResidueClass.__eq__ x y = true →
            ResidueClass.__hash__ py_hash x = ResidueClass.__hash__ py_hash y)
       ∧ ResidueClass.new Additive_cls (residue x) 6 = Ok x.
Proof. apply (proj2 (proj2 (residue_constructor Additive_cls 9 3 6))). lia. Defined.

(** ** The additive group of residues *)

Lemma additive_mul_residue_of (n r s : Z) :
  0 < n < 2 ^ 53 →
  AdditiveResidueClass.__mul__ (residue_of Additive_cls n r) (residue_of Additive_cls n s)
  = Ok (residue_of Additive_cls n ((r + s) mod n)).
Proof.
  intros Hb. assert (Hn : n ≠ 0) by lia. unfold AdditiveResidueClass.__mul__, AdditiveResidueClass.__init__. simpl.
  rewrite decide_False by (intros H; by apply H).
  unfold py_mod. rewrite decide_False by done. rewrite Ok_bind.
  rewrite new_residue_of by done. by rewrite Z.mod_mod.
Qed.

Lemma additive_for_each_mul (n r : Z) (k : nat) : ∀ s,
  0 < n < 2 ^ 53 → s mod n = s →
  for_each AdditiveResidueClass.__mul__ (replicate k (residue_of Additive_cls n r))
    (residue_of Additive_cls n s)
  = Ok (residue_of Additive_cls n ((s + Z.of_nat k * r) mod n)).
Proof.
  induction k as [|k IH]; intros s Hb Hs; assert (Hn : n ≠ 0) by lia.
  - simpl. by rewrite Z.add_0_r, Hs.
  - cbn [replicate for_each]. rewrite additive_mul_residue_of, Ok_bind by done.
    rewrite IH by (by rewrite ?Z.mod_mod). f_equal. f_equal.
    rewrite Zplus_mod_idemp_l. f_equal. lia.
Qed.

Lemma additive_pow_pos (n r N : Z) :
  0 < n < 2 ^ 53 → r mod n = r → 0 < N →
  AdditiveResidueClass.__pow__ (residue_of Additive_cls n r) N
  = Ok (residue_of Additive_cls n ((N * r) mod n)).
Proof.
  intros Hb Hr HN. assert (Hn : n ≠ 0) by lia. unfold AdditiveResidueClass.__pow__.
  rewrite decide_False by lia. rewrite decide_True by lia.
  destruct (Z.to_nat N) as [|k] eqn:Hk; [lia|]. cbn [replicate reduce].
  rewrite additive_for_each_mul by done. f_equal. f_equal. f_equal. lia.
Qed.

(** X14: the elements of [AdditiveResidueClass] for one modulus
    [0 < n < 2^53] form an abelian group under [*]: the product is the residue of the sum,
    it is associative and commutative, [a ** 0] is neutral and [~a] is the
    inverse of [a]. *)
Theorem additive_group_laws (n r1 r2 r3 : Z) :
  0 < n < 2 ^ 53 →
  ∃ a b c ab bc abc e a' z,
    AdditiveResidueClass.__init__ r1 n = Ok a
    ∧ AdditiveResidueClass.__init__ r2 n = Ok b
    ∧ AdditiveResidueClass.__init__ r3 n = Ok c
    ∧ AdditiveResidueClass.__mul__ a b = Ok ab
    ∧ residue ab = (r1 + r2) mod n
    ∧ AdditiveResidueClass.__mul__ b a = Ok ab
    ∧ AdditiveResidueClass.__mul__ b c = Ok bc
    ∧ AdditiveResidueClass.__mul__ ab c = Ok abc
    ∧ AdditiveResidueClass.__mul__ a bc = Ok abc
    ∧ AdditiveResidueClass.__pow__ a 0 = Ok e
    ∧ AdditiveResidueClass.is_identity e = true
    ∧ AdditiveResidueClass.__mul__ a e = Ok a
    ∧ AdditiveResidueClass.__mul__ e a = Ok a
    ∧ AdditiveResidueClass.__invert__ a = Ok a'
    ∧ AdditiveResidueClass.__mul__ a a' = Ok z
    ∧ AdditiveResidueClass.__mul__ a' a = Ok z
    ∧ AdditiveResidueClass.is_identity z = true.
Proof.
  intros Hb. assert (Hn : n ≠ 0) by lia.
  exists (residue_of Additive_cls n (r1 mod n)),
         (residue_of Additive_cls n (r2 mod n)),
         (residue_of Additive_cls n (r3 mod n)),
         (residue_of Additive_cls n ((r1 + r2) mod n)),
         (residue_of Additive_cls n ((r2 + r3) mod n)),
         (residue_of Additive_cls n ((r1 + r2 + r3) mod n)),
         (residue_of Additive_cls n 0),
         (residue_of Additive_cls n ((- (r1 mod n)) mod n)),
         (residue_of Additive_cls n 0).
  unfold AdditiveResidueClass.__init__, AdditiveResidueClass.__invert__,
    AdditiveResidueClass.__pow__.
  rewrite decide_True by done.
  unfold AdditiveResidueClass.__init__. cbn [residue modulus residue_of].
  rewrite !new_residue_of, !additive_mul_residue_of by done.
  rewrite Z.mod_0_l by done.
  repeat split; try done; f_equal; f_equal.
  - by rewrite <-Zplus_mod.
  - by rewrite Z.add_comm, <-Zplus_mod.
  - by rewrite <-Zplus_mod.
  - by rewrite Zplus_mod_idemp_l, Zplus_mod_idemp_r.
  - rewrite Zplus_mod_idemp_l, Zplus_mod_idemp_r. f_equal. lia.
  - by rewrite Z.add_0_r, Z.mod_mod.
  - by rewrite Z.add_0_l, Z.mod_mod.
  - rewrite Zplus_mod_idemp_r, Z.add_opp_diag_r. by apply Z.mod_0_l.
  - rewrite Zplus_mod_idemp_l, Z.add_opp_diag_l. by apply Z.mod_0_l.
Qed.

Lemma additive_group_laws_witness :
  ∃ a b c ab bc abc e a' z,
    AdditiveResidueClass.__init__ 4 6 = Ok a
    ∧ AdditiveResidueClass.__init__ 5 6 = Ok b
    ∧ AdditiveResidueClass.__init__ 3 6 = Ok c
    ∧ AdditiveResidueClass.__mul__ a b = Ok ab
    ∧ residue ab = (4 + 5) mod 6
    ∧ AdditiveResidueClass.__mul__ b a = Ok ab
    ∧ AdditiveResidueClass.__mul__ b c = Ok bc
    ∧ AdditiveResidueClass.__mul__ ab c = Ok abc
    ∧ AdditiveResidueClass.__mul__ a bc = Ok abc
    ∧ AdditiveResidueClass.__pow__ a 0 = Ok e
    ∧ AdditiveResidueClass.is_identity e = true
    ∧ AdditiveResidueClass.__mul__ a e = Ok a
    ∧ AdditiveResidueClass.__mul__ e a = Ok a
    ∧ AdditiveResidueClass.__invert__ a = Ok a'
    ∧ AdditiveResidueClass.__mul__ a a' = Ok z
    ∧ AdditiveResidueClass.__mul__ a' a = Ok z
    ∧ AdditiveResidueClass.is_identity z = true.
Proof. apply (additive_group_laws 6 4 5 3). lia. Defined.

(** X15: for a modulus [0 < n < 2^53], below which the float quotient
    [n / gcd] is exact, the order that the constructor of
    [AdditiveResidueClass] stores is the order of the element in the group:
    it divides the modulus, [a ** order] is the identity, and no smaller
    positive power of [a] is. *)
Theorem additive_order_least (r n : Z) :
  0 < n < 2 ^ 53 →
  ∃ a o e,
    AdditiveResidueClass.__init__ r n = Ok a
    ∧ order a = Some o
    ∧ AdditiveResidueClass.get_order a = Ok o
    ∧ 1 ≤ o ≤ n ∧ (o | n)
    ∧ AdditiveResidueClass.__pow__ a o = Ok e
    ∧ AdditiveResidueClass.is_identity e = true
    ∧ ∀ j, 0 < j < o →
        ∃ x, AdditiveResidueClass.__pow__ a j = Ok x
           ∧ AdditiveResidueClass.is_identity x = false.
Proof.
  intros Hn.
  set (s := r mod n). set (g := Z.gcd s n).
  assert (Hg : 0 < g).
  { pose proof (Z.gcd_nonneg s n).
    assert (g ≠ 0) by (unfold g; intros [_ ?]%Z.gcd_eq_0; lia). unfold g in *. lia. }
  assert (Hgn : (g | n)) by apply Z.gcd_divide_r.
  assert (Hgs : (g | s)) by apply Z.gcd_divide_l.
  assert (Hq : Z.quot n g = n / g) by (apply Z.quot_div_nonneg; lia).
  destruct Hgn as [o Ho]. destruct Hgs as [t Ht].
  assert (Hdiv : n / g = o) by (rewrite Ho; apply Z.div_mul; lia).
  assert (Hopos : 1 ≤ o) by nia.
  assert (Hcop : Z.gcd o t = 1).
  { pose proof (Z.gcd_div_gcd s n g) as Hc. rewrite Hdiv in Hc.
    replace (s / g) with t in Hc by (rewrite Ht; symmetry; apply Z.div_mul; lia).
    rewrite Z.gcd_comm. apply Hc; [lia|done]. }
  assert (Hs : s mod n = s) by (unfold s; apply Z.mod_mod; lia).
  exists (residue_of Additive_cls n s), o, (residue_of Additive_cls n ((o * s) mod n)).
  unfold AdditiveResidueClass.__init__. rewrite new_residue_of by lia. fold s.
  split; [done|]. split; [|split; [|split; [|split; [|split; [|split]]]]].
  - simpl. fold g. by rewrite Hq, Hdiv.
  - unfold AdditiveResidueClass.get_order, math_gcd. cbn [residue modulus residue_of].
    fold g. rewrite int_true_div_divide; [by rewrite Hq, Hdiv|done|done|by exists o].
  - nia.
  - exists g. lia.
  - apply additive_pow_pos; [lia|done|lia].
  - unfold AdditiveResidueClass.is_identity. simpl.
    replace (o * s) with (t * n) by (rewrite Ht, Ho; ring).
    rewrite Z.mod_mul by lia. done.
  - intros j Hj. eexists. split; [apply additive_pow_pos; [lia|done|lia]|].
    unfold AdditiveResidueClass.is_identity. simpl.
    case_decide as Hz; [exfalso|done].
    apply Z.mod_divide in Hz; [|lia].
    (* n | j s, hence o | j t, hence o | j *)
    assert (Hot : (o | j * t)).
    { destruct Hz as [q Hq']. exists q.
      apply (Z.mul_cancel_r _ _ g); [lia|].
      transitivity (j * s); [rewrite Ht; ring|]. rewrite Hq', Ho. ring. }
    rewrite Z.mul_comm in Hot. apply Z.gauss in Hot; [|done].
    apply Z.divide_pos_le in Hot; lia.
Qed.

Lemma additive_order_least_witness :
  ∃ a o e,
    AdditiveResidueClass.__init__ 4 6 = Ok a
    ∧ order a = Some o
    ∧ AdditiveResidueClass.get_order a = Ok o
    ∧ 1 ≤ o ≤ 6 ∧ (o | 6)
    ∧ AdditiveResidueClass.__pow__ a o = Ok e
    ∧ AdditiveResidueClass.is_identity e = true
    ∧ ∀ j, 0 < j < o →
        ∃ x, AdditiveResidueClass.__pow__ a j = Ok x
           ∧ AdditiveResidueClass.is_identity x = false.
Proof. apply (additive_order_least 4 6). lia. Defined.

(** ** The multiplicative residues *)

Lemma multiplicative_mul_residue_of (n r s : Z) :
  0 < n < 2 ^ 53 →
  MultiplicativeResidueClass.__mul__
    (residue_of Multiplicative_cls n r) (residue_of Multiplicative_cls n s)
  = Ok (residue_of Multiplicative_cls n ((r * s) mod n)).
Proof.
  intros Hb. assert (Hn : n ≠ 0) by lia.
  unfold MultiplicativeResidueClass.__mul__, MultiplicativeResidueClass.__init__. simpl.
  rewrite decide_False by (intros H; by apply H).
  unfold py_mod. rewrite decide_False by done. rewrite Ok_bind.
  rewrite new_residue_of by done. by rewrite Z.mod_mod.
Qed.

Lemma multiplicative_for_each_mul (n r : Z) (k : nat) : ∀ s,
  0 < n < 2 ^ 53 → s mod n = s →
  for_each MultiplicativeResidueClass.__mul__
    (replicate k (residue_of Multiplicative_cls n r))
    (residue_of Multiplicative_cls n s)
  = Ok (residue_of Multiplicative_cls n ((s * r ^ Z.of_nat k) mod n)).
Proof.
  induction k as [|k IH]; intros s Hb Hs; assert (Hn : n ≠ 0) by lia.
  - simpl. by rewrite Z.mul_1_r, Hs.
  - cbn [replicate for_each]. rewrite multiplicative_mul_residue_of, Ok_bind by done.
    rewrite IH by (by rewrite ?Z.mod_mod). f_equal. f_equal.
    rewrite Zmult_mod_idemp_l. f_equal.
    rewrite Nat2Z.inj_succ, Z.pow_succ_r by lia. ring.
Qed.

Lemma multiplicative_pow_pos (n r N : Z) :
  0 < n < 2 ^ 53 → r mod n = r → 0 < N →
  MultiplicativeResidueClass.__pow__ (residue_of Multiplicative_cls n r) N
  = Ok (residue_of Multiplicative_cls n ((r ^ N) mod n)).
Proof.
  intros Hb Hr HN. assert (Hn : n ≠ 0) by lia. unfold MultiplicativeResidueClass.__pow__.
  rewrite decide_False by lia. rewrite decide_True by lia.
  destruct (Z.to_nat N) as [|k] eqn:Hk; [lia|]. cbn [replicate reduce].
  rewrite multiplicative_for_each_mul by done. f_equal. f_equal. f_equal.
  replace N with (Z.succ (Z.of_nat k)) by lia. rewrite Z.pow_succ_r by lia. done.
Qed.

Lemma pow_mod_idemp (a n N : Z) : n ≠ 0 → (a mod n) ^ N mod n = a ^ N mod n.
Proof. intros Hn. apply Z.mod_pow_l. Qed.

(** X16: for a modulus [2 ≤ n < 2^53] and [N > 0] the power [a ** N] of a
    multiplicative residue is the residue of [r ^ N]. If [r] is coprime to
    [n], then [a ** (-N)] is inverse to [a ** N] and [a ** totient(n)] is
    the identity (Euler); if not, a negative power raises [ValueError]. *)
Theorem multiplicative_powers (r n N : Z) :
  2 ≤ n < 2 ^ 53 → 0 < N →
  ∃ a x,
    MultiplicativeResidueClass.__init__ r n = Ok a
    ∧ MultiplicativeResidueClass.__pow__ a N = Ok x
    ∧ residue x = r ^ N mod n
    ∧ (Z.gcd r n = 1 →
       ∃ y e z, MultiplicativeResidueClass.__pow__ a (- N) = Ok y
              ∧ MultiplicativeResidueClass.__mul__ x y = Ok e
              ∧ MultiplicativeResidueClass.is_identity e = true
              ∧ MultiplicativeResidueClass.__pow__ a (totient_count n) = Ok z
              ∧ MultiplicativeResidueClass.is_identity z = true)
    ∧ (Z.gcd r n ≠ 1 →
       MultiplicativeResidueClass.__pow__ a (- N) = Raise ValueError).
Proof.
  intros Hn HN. set (s := r mod n).
  assert (Hs : s mod n = s) by (unfold s; apply Z.mod_mod; lia).
  assert (Hgcd : Z.gcd s n = Z.gcd r n) by (unfold s; apply Z.gcd_mod_l).
  exists (residue_of Multiplicative_cls n s),
         (residue_of Multiplicative_cls n (s ^ N mod n)).
  unfold MultiplicativeResidueClass.__init__. rewrite new_residue_of by lia. fold s.
  split; [done|]. split; [apply multiplicative_pow_pos; [lia|done|lia]|].
  split; [simpl; unfold s; apply pow_mod_idemp; lia|]. split.
  - intros Hcop. rewrite <-Hgcd in Hcop.
    pose proof (totient_count_pos n ltac:(lia)) as Hphi.
    pose proof (euler s n ltac:(lia) Hcop) as He.
    rewrite (Z.mod_1_l n) in He by lia.
    set (i := s ^ (totient_count n - 1) mod n).
    assert (Hi : i mod n = i) by (unfold i; apply Z.mod_mod; lia).
    assert (Hinv : MultiplicativeResidueClass.__invert__
                     (residue_of Multiplicative_cls n s)
                   = Ok (residue_of Multiplicative_cls n i)).
    { unfold MultiplicativeResidueClass.__invert__, math_gcd, sympy_totient. simpl.
      rewrite decide_False by (intros H; by apply H).
      rewrite decide_False by lia. rewrite Ok_bind.
      unfold MultiplicativeResidueClass.__init__. by rewrite new_residue_of by lia. }
    exists (residue_of Multiplicative_cls n (i ^ N mod n)),
           (residue_of Multiplicative_cls n 1),
           (residue_of Multiplicative_cls n 1).
    split; [|split; [|split; [done|split; [|done]]]].
    + unfold MultiplicativeResidueClass.__pow__.
      rewrite decide_False by lia. rewrite decide_False by lia.
      rewrite Hinv, Ok_bind. rewrite Z.abs_neq by lia. rewrite Z.opp_involutive.
      destruct (Z.to_nat N) as [|k] eqn:Hk; [lia|]. cbn [replicate reduce].
      rewrite multiplicative_for_each_mul by (done || lia). f_equal. f_equal. f_equal.
      replace N with (Z.succ (Z.of_nat k)) by lia. rewrite Z.pow_succ_r by lia. done.
    + rewrite multiplicative_mul_residue_of by lia. f_equal. f_equal.
      rewrite <-Zmult_mod. unfold i. rewrite <-Z.pow_mul_l.
      rewrite <-Z.mod_pow_l.
      rewrite Zmult_mod_idemp_r.
      replace (s * s ^ (totient_count n - 1)) with (s ^ totient_count n).
      2:{ replace (totient_count n) with (Z.succ (totient_count n - 1)) at 1 by lia.
          apply Z.pow_succ_r. lia. }
      rewrite He, Z.pow_1_l by lia. apply Z.mod_1_l. lia.
    + rewrite multiplicative_pow_pos by (done || lia). by rewrite He.
  - intros Hncop. rewrite <-Hgcd in Hncop.
    unfold MultiplicativeResidueClass.__pow__.
    rewrite decide_False by lia. rewrite decide_False by lia.
    unfold MultiplicativeResidueClass.__invert__, math_gcd. simpl.
    by rewrite decide_True.
Qed.

Lemma multiplicative_powers_witness :
  ∃ a x,
    MultiplicativeResidueClass.__init__ 3 7 = Ok a
    ∧ MultiplicativeResidueClass.__pow__ a 2 = Ok x
    ∧ residue x = 3 ^ 2 mod 7
    ∧ (Z.gcd 3 7 = 1 →
       ∃ y e z, MultiplicativeResidueClass.__pow__ a (- 2) = Ok y
              ∧ MultiplicativeResidueClass.__mul__ x y = Ok e
              ∧ MultiplicativeResidueClass.is_identity e = true
              ∧ MultiplicativeResidueClass.__pow__ a (totient_count 7) = Ok z
              ∧ MultiplicativeResidueClass.is_identity z = true)
    ∧ (Z.gcd 3 7 ≠ 1 →
       MultiplicativeResidueClass.__pow__ a (- 2) = Raise ValueError).
Proof. apply (multiplicative_powers 3 7 2); lia. Defined.

(** ** Addition, negation and subtraction of the base class *)

Lemma opp_mod_idemp (a n : Z) : n ≠ 0 → (- (a mod n)) mod n = (- a) mod n.
Proof.
  intros Hn. rewrite (Z.mod_eq a n) by done.
  replace (- (a - n * (a / n))) with (- a + (a / n) * n) by ring.
  by rewrite Z.mod_add.
Qed.

(** X17: [+], unary [-] and binary [-] are defined in the base class only
    and build a [ResidueClass]: on elements of any of the three classes for
    one modulus [0 < n < 2^53] they return an element of the base class, whose
    [order] is [None], with the residue of the sum, the opposite and the
    difference; [a - a] has the residue 0 and addition is commutative.
    Elements of different moduli cannot be added. *)
Theorem base_class_arithmetic (c : residue_cls) (r1 r2 n : Z) :
  0 < n < 2 ^ 53 →
  ∃ a b s d m z,
    ResidueClass.new c r1 n = Ok a
    ∧ ResidueClass.new c r2 n = Ok b
    ∧ ResidueClass.__add__ a b = Ok s
    ∧ ResidueClass.__add__ b a = Ok s
    ∧ ResidueClass.__sub__ a b = Ok d
    ∧ ResidueClass.__neg__ a = Ok m
    ∧ ResidueClass.__sub__ a a = Ok z
    ∧ residue s = (r1 + r2) mod n
    ∧ residue d = (r1 - r2) mod n
    ∧ residue m = (- r1) mod n
    ∧ residue z = 0
    ∧ Forall (λ x, cls x = ResidueClass_cls ∧ order x = None ∧ modulus x = n) [s; d; m; z]
    ∧ ∀ x y, modulus x ≠ modulus y → ResidueClass.__add__ x y = Raise ValueError.
Proof.
  intros Hb. assert (Hn : n ≠ 0) by lia.
  exists (residue_of c n (r1 mod n)), (residue_of c n (r2 mod n)),
         (residue_of ResidueClass_cls n ((r1 + r2) mod n)),
         (residue_of ResidueClass_cls n ((r1 - r2) mod n)),
         (residue_of ResidueClass_cls n ((- r1) mod n)),
         (residue_of ResidueClass_cls n 0).
  rewrite !new_residue_of by done.
  assert (Hadd : ∀ c1 c2 u v,
            ResidueClass.__add__ (residue_of c1 n u) (residue_of c2 n v)
            = Ok (residue_of ResidueClass_cls n ((u + v) mod n))).
  { intros c1 c2 u v. unfold ResidueClass.__add__, ResidueClass.__init__, py_mod.
    destruct c1, c2; simpl;
      (rewrite decide_False by (intros H; by apply H));
      rewrite decide_False by done; rewrite Ok_bind, new_residue_of by done;
      by rewrite Z.mod_mod. }
  assert (Hneg : ∀ c1 u,
            ResidueClass.__neg__ (residue_of c1 n u)
            = Ok (residue_of ResidueClass_cls n ((- u) mod n))).
  { intros c1 u. unfold ResidueClass.__neg__, ResidueClass.__init__.
    destruct c1; simpl; by rewrite new_residue_of. }
  unfold ResidueClass.__sub__. rewrite !Hneg, !Ok_bind, !Hadd.
  split; [done|]. split; [done|].
  split; [f_equal; f_equal; by rewrite <-Zplus_mod|].
  split; [f_equal; f_equal; by rewrite Z.add_comm, <-Zplus_mod|].
  split.
  { f_equal. f_equal. by rewrite opp_mod_idemp, <-Zplus_mod by done. }
  split; [f_equal; f_equal; by apply opp_mod_idemp|].
  split.
  { f_equal. f_equal. rewrite opp_mod_idemp, <-Zplus_mod by done.
    rewrite Z.add_opp_diag_r. by apply Z.mod_0_l. }
  split; [done|]. split; [done|]. split; [done|]. split; [done|].
  split; [by repeat constructor|].
  intros x y Hxy. unfold ResidueClass.__add__. by rewrite decide_True.
Qed.

Lemma base_class_arithmetic_witness :
  ∃ a b s d m z,
    ResidueClass.new Additive_cls 2 6 = Ok a
    ∧ ResidueClass.new Additive_cls 5 6 = Ok b
    ∧ ResidueClass.__add__ a b = Ok s
    ∧ ResidueClass.__add__ b a = Ok s
    ∧ ResidueClass.__sub__ a b = Ok d
    ∧ ResidueClass.__neg__ a = Ok m
    ∧ ResidueClass.__sub__ a a = Ok z
    ∧ residue s = (2 + 5) mod 6
    ∧ residue d = (2 - 5) mod 6
    ∧ residue m = (- 2) mod 6
    ∧ residue z = 0
    ∧ Forall (λ x, cls x = ResidueClass_cls ∧ order x = None ∧ modulus x = 6) [s; d; m; z]
    ∧ ∀ x y, modulus x ≠ modulus y → ResidueClass.__add__ x y = Raise ValueError.
Proof. apply (base_class_arithmetic Additive_cls 2 5 6). lia. Defined.


(** ** Statistical invariants: ranges and failures *)

Lemma Qdiv_inject_Z (a c : Z) :
  0 < c →
  (Qlt 0 (Qdiv (inject_Z a) (inject_Z c)) ↔ 0 < a)
  ∧ (Qle 0 (Qdiv (inject_Z a) (inject_Z c)) ↔ 0 ≤ a)
  ∧ (Qle (Qdiv (inject_Z a) (inject_Z c)) 1 ↔ a ≤ c)
  ∧ (Qeq (Qdiv (inject_Z a) (inject_Z c)) 1 ↔ a = c).
Proof.
  intros Hc. destruct c as [|p|p]; try lia.
  assert (H : ∀ R : Q → Prop, (∀ x y, Qeq x y → R x ↔ R y) →
            R (Qdiv (inject_Z a) (inject_Z (Z.pos p))) ↔ R (Qmake a p)).
  { intros R HR. apply HR. symmetry. apply Qmake_Qdiv. }
  split; [|split; [|split]].
  - rewrite (H (Qlt 0)) by (intros x y Hxy; by rewrite Hxy).
    unfold Qlt. simpl. lia.
  - rewrite (H (Qle 0)) by (intros x y Hxy; by rewrite Hxy).
    unfold Qle. simpl. lia.
  - rewrite (H (λ x, Qle x 1)) by (intros x y Hxy; by rewrite Hxy).
    unfold Qle. simpl. lia.
  - rewrite (H (λ x, Qeq x 1)) by (intros x y Hxy; by rewrite Hxy).
    unfold Qeq. simpl. lia.
Qed.

Lemma length_filter_all {A} (P : A → Prop) `{!∀ x, Decision (P x)} (l : list A) :
  length (filter P l) = length l ↔ Forall P l.
Proof.
  induction l as [|x l IH]; [by split; [constructor|]|].
  rewrite filter_cons, Forall_cons. pose proof (length_filter P l).
  destruct (decide (P x)); simpl; [rewrite <-IH; split; [intros; split; [done|lia]|lia]|].
  split; [lia|tauto].
Qed.

Lemma length_cwr2 {A} (g : list A) :
  length (combinations_with_replacement_2 g) = binomial (S (length g)) 2.
Proof.
  induction g as [|x g IH]; [done|].
  cbn [combinations_with_replacement_2]. rewrite length_app, length_fmap, IH.
  change (binomial (S (length (x :: g))) 2)
    with (binomial (S (length g)) 1 + binomial (S (length g)) 2)%nat.
  rewrite binomial_1. done.
Qed.

Lemma elem_of_cwr2 {A} (g : list A) (x y : A) :
  (x, y) ∈ combinations_with_replacement_2 g → x ∈ g ∧ y ∈ g.
Proof.
  induction g as [|z g IH]; [by intros ?%elem_of_nil|].
  cbn [combinations_with_replacement_2].
  intros [H|H]%elem_of_app.
  - apply list_elem_of_fmap in H as (y' & [= -> ->] & Hy). split; [left|done].
  - apply IH in H. split; right; tauto.
Qed.

Lemma cwr2_total {A} (g : list A) (x y : A) :
  x ∈ g → y ∈ g →
  (x, y) ∈ combinations_with_replacement_2 g ∨ (y, x) ∈ combinations_with_replacement_2 g.
Proof.
  induction g as [|z g IH]; [by intros ?%elem_of_nil|].
  cbn [combinations_with_replacement_2]. rewrite !elem_of_app.
  intros [->|Hx]%elem_of_cons Hy.
  - left. left. apply list_elem_of_fmap. by exists y.
  - apply elem_of_cons in Hy as [->|Hy].
    + right. left. apply list_elem_of_fmap. exists x. split; [done|by right].
    + destruct (IH Hx Hy); [left|right]; by right.
Qed.

(** X18: [equal_order_probability] raises [ZeroDivisionError] on the empty
    group; on any other group it returns a probability, a value in (0, 1],
    which is 1 exactly when all elements have the same order. *)
Theorem equal_order_probability_range {E} (elt_order : E → Z)
    (group : Invariants.Group (E := E)) :
  (Invariants.elements group = [] →
   Invariants.equal_order_probability elt_order group = Raise ZeroDivisionError)
  ∧ (Invariants.elements group ≠ [] →
     ∃ q, Invariants.equal_order_probability elt_order group = Ok q
        ∧ Qlt 0 q ∧ Qle q 1
        ∧ (Qeq q 1 ↔ ∀ x y, x ∈ Invariants.elements group →
                             y ∈ Invariants.elements group →
                             elt_order x = elt_order y)).
Proof.
  unfold Invariants.equal_order_probability, Invariants.group_order, math_comb, true_div.
  destruct group as [g]. cbn [Invariants.elements].
  rewrite decide_False by lia. rewrite Ok_bind.
  replace (Z.to_nat (Z.of_nat (length g) + 1)) with (S (length g)) by lia.
  change (Z.to_nat 2) with 2%nat.
  split.
  - intros ->. done.
  - intros Hne.
    set (P := λ pair : E * E, elt_order pair.1 = elt_order pair.2).
    set (l := combinations_with_replacement_2 g).
    assert (Hlen : length l = binomial (S (length g)) 2) by apply length_cwr2.
    assert (Hcount : (1 ≤ length (filter P l))%nat).
    { unfold l. destruct g as [|x g]; [done|].
      cbn [combinations_with_replacement_2]. simpl. rewrite filter_cons.
      rewrite decide_True by done. simpl. lia. }
    pose proof (length_filter P l) as Hle.
    rewrite <-Hlen.
    rewrite decide_False by lia.
    destruct (Qdiv_inject_Z (Z.of_nat (length (filter P l))) (Z.of_nat (length l)))
      as (H1 & _ & H2 & H3); [lia|].
    eexists. split; [done|]. split; [apply H1; lia|]. split; [apply H2; lia|].
    rewrite H3, Nat2Z.inj_iff, length_filter_all, Forall_forall. split.
    + intros Hall x y Hx Hy.
      destruct (cwr2_total g x y Hx Hy) as [H|H]; apply Hall in H; by unfold P in H.
    + intros Hall [x y] [Hx Hy]%elem_of_cwr2. by apply Hall.
Qed.

Lemma equal_order_probability_range_witness :
  ∃ q, Invariants.equal_order_probability (λ x : Z, x) (Invariants.mk_Group [1; 2; 2]) = Ok q
     ∧ Qlt 0 q ∧ Qle q 1
     ∧ (Qeq q 1 ↔ ∀ x y, x ∈ [1; 2; 2] → y ∈ [1; 2; 2] → x = y).
Proof.
  apply (proj2 (equal_order_probability_range (λ x : Z, x) (Invariants.mk_Group [1; 2; 2]))).
  done.
Defined.

(** ** Averages over the subsets of a group *)

Lemma length_combinations_nat {A} (pool : list A) : ∀ k,
  length (combinations_nat pool k) = binomial (length pool) k.
Proof.
  induction pool as [|x pool IH]; intros [|k]; try done.
  cbn [combinations_nat length binomial].
  by rewrite length_app, length_fmap, !IH.
Qed.

Lemma binomial_gt (n : nat) : ∀ k, (n < k)%nat → binomial n k = 0%nat.
Proof.
  induction n as [|n IH]; intros [|k] Hk; try done; try lia.
  cbn [binomial]. rewrite !IH by lia. done.
Qed.

Lemma binomial_pos (n : nat) : ∀ k, (k ≤ n)%nat → (0 < binomial n k)%nat.
Proof.
  induction n as [|n IH]; intros [|k] Hk; simpl; try lia.
  pose proof (IH k ltac:(lia)). lia.
Qed.

Lemma subset_average_spec {E} (F : list E → Z) (pool : list E) (k : Z) (scale : bool) :
  let n := Z.of_nat (length pool) in
  let subsets := combinations_nat pool (Z.to_nat k) in
  (k < 0 → subset_average F pool k scale = Raise ValueError)
  ∧ (n < k → subset_average F pool k scale = Raise ZeroDivisionError)
  ∧ (0 ≤ k ≤ n →
     1 ≤ Z.of_nat (length subsets)
     ∧ subset_average F pool k scale
       = scaled_mean (Z.of_nat (length subsets)) (py_sum (F <$> subsets))
           (if scale then n else 1)).
Proof.
  intros n subsets. unfold subset_average, itertools_combinations, math_comb.
  rewrite Nat2Z.id. fold n.
  assert (Hn0 : 0 ≤ n) by (unfold n; lia).
  assert (Hnat : ∀ j, 0 ≤ j ≤ n → (Z.to_nat j ≤ length pool)%nat) by (unfold n; lia).
  assert (Hnat' : ∀ j, n < j → (length pool < Z.to_nat j)%nat) by (unfold n; lia).
  split; [|split].
  - intros Hk. by rewrite (decide_True (P := k < 0)).
  - intros Hk. rewrite (decide_False (P := k < 0)) by lia. rewrite Ok_bind.
    rewrite (decide_False (P := n < 0 ∨ k < 0)) by lia. rewrite Ok_bind.
    rewrite binomial_gt by (by apply Hnat'). done.
  - intros Hk. rewrite (decide_False (P := k < 0)) by lia. rewrite Ok_bind.
    rewrite (decide_False (P := n < 0 ∨ k < 0)) by lia. rewrite Ok_bind.
    pose proof (binomial_pos (length pool) (Z.to_nat k) (Hnat k Hk)) as Hpos.
    unfold subsets. rewrite length_combinations_nat. split; [lia|].
    unfold scaled_mean. by destruct scale; [rewrite Z.pow_1_r|].
Qed.

(** X19: the three averages over the [k]-element subsets of a group of [n]
    elements raise [ValueError] for [k < 0] and [ZeroDivisionError] for
    [k > n]; for [0 ≤ k ≤ n] the divisor [comb(n, k)] is the number [N ≥ 1]
    of subsets enumerated, and they return the float
    [(1 / N) * total / scaling], each operation rounded, where [total] is the
    sum of the summand over the subsets and [scaling] is [n] if
    [scale_by_order] is set and 1 otherwise. *)
Theorem subset_averages {E}
    (subgroup_generated_by : Invariants.Group (E := E) → list E → Invariants.Group)
    (centralizer normalizer : Invariants.Group (E := E) → Invariants.Group → Invariants.Group)
    (group : Invariants.Group) (k : Z) (scale : bool) :
  let n := Invariants.group_order group in
  let subsets := combinations_nat (Invariants.elements group) (Z.to_nat k) in
  let N := Z.of_nat (length subsets) in
  let scaling := if scale then n else 1 in
  let r1 := Invariants.expectation_number subgroup_generated_by k group scale in
  let r2 := Invariants.average_centralizer_size subgroup_generated_by centralizer
              group k scale in
  let r3 := Invariants.average_normalizer_size subgroup_generated_by normalizer
              group k scale in
  let F1 := λ s, Invariants.group_order (subgroup_generated_by group s) in
  let F2 := λ s, Invariants.group_order (centralizer (subgroup_generated_by group s) group) in
  let F3 := λ s, Invariants.group_order (normalizer (subgroup_generated_by group s) group) in
  (k < 0 → r1 = Raise ValueError ∧ r2 = Raise ValueError ∧ r3 = Raise ValueError)
  ∧ (n < k →
     r1 = Raise ZeroDivisionError ∧ r2 = Raise ZeroDivisionError
     ∧ r3 = Raise ZeroDivisionError)
  ∧ (0 ≤ k ≤ n →
     1 ≤ N
     ∧ r1 = scaled_mean N (py_sum (F1 <$> subsets)) scaling
     ∧ r2 = scaled_mean N (py_sum (F2 <$> subsets)) scaling
     ∧ r3 = scaled_mean N (py_sum (F3 <$> subsets)) scaling).
Proof.
  intros n subsets N scaling r1 r2 r3 F1 F2 F3.
  change r1 with (subset_average F1 (Invariants.elements group) k scale).
  change r2 with (subset_average F2 (Invariants.elements group) k scale).
  change r3 with (subset_average F3 (Invariants.elements group) k scale).
  destruct (subset_average_spec F1 (Invariants.elements group) k scale) as (A1 & B1 & C1).
  destruct (subset_average_spec F2 (Invariants.elements group) k scale) as (A2 & B2 & C2).
  destruct (subset_average_spec F3 (Invariants.elements group) k scale) as (A3 & B3 & C3).
  split; [auto|]. split; [auto|].
  intros Hk. destruct (C1 Hk) as [HN ?], (C2 Hk) as [_ ?], (C3 Hk) as [_ ?]. done.
Qed.

Lemma subset_averages_witness :
  1 ≤ Z.of_nat (length (combinations_nat [1; 2; 3] (Z.to_nat 2)))
  ∧ Invariants.expectation_number (λ _ s, Invariants.mk_Group s) 2
      (Invariants.mk_Group [1; 2; 3]) false
    = scaled_mean (Z.of_nat (length (combinations_nat [1; 2; 3] (Z.to_nat 2))))
        (py_sum ((λ s : list Z, Invariants.group_order (Invariants.mk_Group s))
                   <$> combinations_nat [1; 2; 3] (Z.to_nat 2))) 1
  ∧ Invariants.average_centralizer_size (λ _ s, Invariants.mk_Group s) (λ h _, h)
      (Invariants.mk_Group [1; 2; 3]) 2 false
    = scaled_mean (Z.of_nat (length (combinations_nat [1; 2; 3] (Z.to_nat 2))))
        (py_sum ((λ s : list Z, Invariants.group_order (Invariants.mk_Group s))
                   <$> combinations_nat [1; 2; 3] (Z.to_nat 2))) 1
  ∧ Invariants.average_normalizer_size (λ _ s, Invariants.mk_Group s) (λ h _, h)
      (Invariants.mk_Group [1; 2; 3]) 2 false
    = scaled_mean (Z.of_nat (length (combinations_nat [1; 2; 3] (Z.to_nat 2))))
        (py_sum ((λ s : list Z, Invariants.group_order (Invariants.mk_Group s))
                   <$> combinations_nat [1; 2; 3] (Z.to_nat 2))) 1.
Proof.
  apply (proj2 (proj2 (subset_averages (E := Z) (λ _ s, Invariants.mk_Group s)
                         (λ h _, h) (λ h _, h) (Invariants.mk_Group [1; 2; 3]) 2 false))).
  unfold Invariants.group_order. simpl. lia.
Defined.

(** ** Probabilities over the pairs of a group *)

Lemma py_sum_b2z_count {A} (P : A → bool) (l : list A) :
  py_sum ((λ x, Z.b2z (P x)) <$> l) = Z.of_nat (length (filter (λ x, P x = true) l)).
Proof.
  induction l as [|x l IH]; [done|].
  rewrite fmap_cons, filter_cons. cbn [py_sum foldr].
  fold (py_sum ((λ x, Z.b2z (P x)) <$> l)). rewrite IH.
  destruct (P x); [rewrite decide_True by done|rewrite decide_False by done];
    cbn [Z.b2z length]; lia.
Qed.

Lemma int_truediv_finite (a b : Z) (w : float) :
  int_truediv a b = Ok w → ∃ m e, w = Finite m e.
Proof.
  unfold int_truediv, round_binary64. case_decide; [done|].
  case_decide; [intros [= <-]; eauto|].
  destruct (binary64_nearest _ _) as [m e]. case_decide; [done|].
  intros [= <-]. eauto.
Qed.

Lemma pair_fraction_zero (N : Z) : 0 < N → pair_fraction N 0 = Ok (Finite 0 0).
Proof.
  intros HN. unfold pair_fraction.
  destruct (int_truediv_reciprocal N HN) as [w Hw]. rewrite Hw, Ok_bind.
  destruct (int_truediv_finite _ _ _ Hw) as (m & e & ->).
  unfold float_mul_int. change (float_of_int 0) with (Ok (Finite 0 0)).
  rewrite Ok_bind. cbn [float_mul].
  rewrite Z.mul_0_r, Z.mul_0_l. unfold round_binary64. by rewrite decide_True.
Qed.

Lemma pair_probability_spec {E} (P : list E → bool) (pool : list E) :
  let pairs := combinations_nat pool 2 in
  ((length pool < 2)%nat → pair_probability P pool = Raise ZeroDivisionError)
  ∧ ((2 ≤ length pool)%nat →
     1 ≤ Z.of_nat (length pairs)
     ∧ pair_probability P pool
       = pair_fraction (Z.of_nat (length pairs))
           (Z.of_nat (length (filter (λ s, P s = true) pairs)))).
Proof.
  intros pairs. unfold pair_probability, itertools_combinations, math_comb.
  rewrite (decide_False (P := 2 < 0)) by lia. rewrite Ok_bind.
  rewrite (decide_False (P := _ ∨ _)) by lia. rewrite Ok_bind.
  rewrite Nat2Z.id. change (Z.to_nat 2) with 2%nat. split.
  - intros Hlt. by rewrite binomial_gt.
  - intros Hle. pose proof (binomial_pos (length pool) 2 Hle).
    unfold pairs. rewrite length_combinations_nat. split; [lia|].
    unfold pair_fraction. by rewrite py_sum_b2z_count.
Qed.

(** X20: [solvable_subgroup_probability] and
    [nilpotent_subgroup_probability] raise [ZeroDivisionError] on a group
    of fewer than two elements. Otherwise the divisor [comb(n, 2)] is the
    number [N ≥ 1] of two-element subsets enumerated, and each returns the
    float [(1 / N) * count], each operation rounded, where [count ≤ N] is
    the number of subsets whose generated subgroup passes the test; the
    result is [0.0] when no subset passes, and the count of the nilpotent
    ones is at most that of the solvable ones when every nilpotent subgroup
    is solvable. *)
Theorem pair_probabilities {E}
    (subgroup_generated_by : Invariants.Group (E := E) → list E → Invariants.Group)
    (is_solvable is_nilpotent : Invariants.Group (E := E) → bool)
    (group : Invariants.Group) :
  let pairs := combinations_nat (Invariants.elements group) 2 in
  let N := Z.of_nat (length pairs) in
  let count := λ test : Invariants.Group → bool,
    Z.of_nat (length (filter (λ s, test (subgroup_generated_by group s) = true) pairs)) in
  let r1 := Invariants.solvable_subgroup_probability subgroup_generated_by is_solvable group in
  let r2 := Invariants.nilpotent_subgroup_probability subgroup_generated_by is_nilpotent group in
  (Invariants.group_order group < 2 →
   r1 = Raise ZeroDivisionError ∧ r2 = Raise ZeroDivisionError)
  ∧ (2 ≤ Invariants.group_order group →
     1 ≤ N
     ∧ r1 = pair_fraction N (count is_solvable)
     ∧ r2 = pair_fraction N (count is_nilpotent)
     ∧ 0 ≤ count is_solvable ≤ N
     ∧ 0 ≤ count is_nilpotent ≤ N
     ∧ (count is_solvable = 0 → r1 = Ok (Finite 0 0))
     ∧ ((∀ h, is_nilpotent h = true → is_solvable h = true) →
        count is_nilpotent ≤ count is_solvable)).
Proof.
  intros pairs N count r1 r2.
  set (pool := Invariants.elements group) in *.
  set (P1 := λ s, is_solvable (subgroup_generated_by group s)).
  set (P2 := λ s, is_nilpotent (subgroup_generated_by group s)).
  change r1 with (pair_probability P1 pool).
  change r2 with (pair_probability P2 pool).
  destruct (pair_probability_spec P1 pool) as [A1 B1].
  destruct (pair_probability_spec P2 pool) as [A2 B2].
  unfold Invariants.group_order. fold pool. split.
  - intros Hlt. split; [apply A1|apply A2]; lia.
  - intros Hle. destruct B1 as [HN Hr1]; [lia|]. destruct B2 as [_ Hr2]; [lia|].
    fold pairs in HN, Hr1, Hr2. fold N in HN.
    pose proof (length_filter
      (λ s, is_solvable (subgroup_generated_by group s) = true) pairs) as Hc1.
    pose proof (length_filter
      (λ s, is_nilpotent (subgroup_generated_by group s) = true) pairs) as Hc2.
    split; [done|]. split; [done|]. split; [done|].
    split; [unfold count, N; lia|]. split; [unfold count, N; lia|]. split.
    + intros Hzero. rewrite Hr1.
      replace (Z.of_nat (length (filter (λ s, P1 s = true) pairs))) with 0
        by (symmetry; exact Hzero).
      apply pair_fraction_zero. lia.
    + intros Himp. unfold count. apply inj_le.
      clear -Himp. induction pairs as [|s l IH]; [done|].
      rewrite !filter_cons.
      destruct (decide (is_nilpotent (subgroup_generated_by group s) = true)) as [Hs|Hs].
      * rewrite decide_True by (by apply Himp). simpl. lia.
      * case_decide; simpl; lia.
Qed.

Lemma pair_probabilities_witness :
  1 ≤ Z.of_nat (length (combinations_nat [1; 2; 3] 2))
  ∧ Invariants.solvable_subgroup_probability (λ _ s, Invariants.mk_Group s)
      (λ h, bool_decide (Invariants.elements h = [1; 2])) (Invariants.mk_Group [1; 2; 3])
    = pair_fraction (Z.of_nat (length (combinations_nat [1; 2; 3] 2)))
        (Z.of_nat (length (filter
           (λ s : list Z, bool_decide (Invariants.elements (Invariants.mk_Group s) = [1; 2])
                          = true)
           (combinations_nat [1; 2; 3] 2))))
  ∧ Invariants.nilpotent_subgroup_probability (λ _ s, Invariants.mk_Group s)
      (λ _, false) (Invariants.mk_Group [1; 2; 3])
    = pair_fraction (Z.of_nat (length (combinations_nat [1; 2; 3] 2)))
        (Z.of_nat (length (filter (λ s : list Z, false = true)
                             (combinations_nat [1; 2; 3] 2))))
  ∧ 0 ≤ Z.of_nat (length (filter
           (λ s : list Z, bool_decide (Invariants.elements (Invariants.mk_Group s) = [1; 2])
                          = true)
           (combinations_nat [1; 2; 3] 2)))
      ≤ Z.of_nat (length (combinations_nat [1; 2; 3] 2))
  ∧ 0 ≤ Z.of_nat (length (filter (λ s : list Z, false = true)
                            (combinations_nat [1; 2; 3] 2)))
      ≤ Z.of_nat (length (combinations_nat [1; 2; 3] 2))
  ∧ (Z.of_nat (length (filter
           (λ s : list Z, bool_decide (Invariants.elements (Invariants.mk_Group s) = [1; 2])
                          = true)
           (combinations_nat [1; 2; 3] 2))) = 0 →
     Invariants.solvable_subgroup_probability (λ _ s, Invariants.mk_Group s)
       (λ h, bool_decide (Invariants.elements h = [1; 2])) (Invariants.mk_Group [1; 2; 3])
     = Ok (Finite 0 0))
  ∧ ((∀ h : Invariants.Group (E := Z),
        false = true → bool_decide (Invariants.elements h = [1; 2]) = true) →
     Z.of_nat (length (filter (λ s : list Z, false = true)
                         (combinations_nat [1; 2; 3] 2)))
     ≤ Z.of_nat (length (filter
           (λ s : list Z, bool_decide (Invariants.elements (Invariants.mk_Group s) = [1; 2])
                          = true)
           (combinations_nat [1; 2; 3] 2)))).
Proof.
  apply (proj2 (pair_probabilities (E := Z) (λ _ s, Invariants.mk_Group s)
                  (λ h, bool_decide (Invariants.elements h = [1; 2])) (λ _, false)
                  (Invariants.mk_Group [1; 2; 3]))).
  unfold Invariants.group_order. simpl. lia.
Defined.

(** ** The commuting probability *)

Lemma length_concat_nonempty {A} (ls : list (list A)) :
  Forall (λ c, c ≠ []) ls →
  (length ls ≤ length (concat ls))%nat
  ∧ (length ls = length (concat ls) ↔ Forall (λ c, length c = 1%nat) ls).
Proof.
  induction ls as [|c ls IH]; intros Hne; [by split; [|split; [constructor|]]|].
  apply Forall_cons in Hne as [Hc Hne]. destruct (IH Hne) as [Hle Hiff].
  cbn [concat length]. rewrite length_app, Forall_cons.
  assert (1 ≤ length c)%nat by (destruct c; [done|simpl; lia]).
  split; [lia|]. rewrite <-Hiff. lia.
Qed.

(** X21: [commuting_probability] raises [ZeroDivisionError] on the empty
    group. When the conjugacy classes of a non-empty group are non-empty
    and partition its elements, the result is a value in (0, 1], and it is 1
    exactly when every class is a single element. *)
Theorem commuting_probability_range {E}
    (conjugacy_classes : Invariants.Group (E := E) → list (list E))
    (group : Invariants.Group) :
  (Invariants.elements group = [] →
   Invariants.commuting_probability conjugacy_classes group = Raise ZeroDivisionError)
  ∧ (Invariants.elements group ≠ [] →
     Forall (λ c, c ≠ []) (conjugacy_classes group) →
     concat (conjugacy_classes group) ≡ₚ Invariants.elements group →
     ∃ q, Invariants.commuting_probability conjugacy_classes group = Ok q
        ∧ Qlt 0 q ∧ Qle q 1
        ∧ (Qeq q 1 ↔ Forall (λ c, length c = 1%nat) (conjugacy_classes group))).
Proof.
  unfold Invariants.commuting_probability, Invariants.group_order, true_div.
  destruct group as [g]. cbn [Invariants.elements].
  set (cs := conjugacy_classes _). split.
  - intros ->. done.
  - intros Hne Hcs Hperm.
    destruct (length_concat_nonempty cs Hcs) as [Hle Hiff].
    rewrite Hperm in Hle, Hiff.
    assert (Hg : (0 < length g)%nat) by (destruct g; [done|simpl; lia]).
    assert (Hc : (0 < length cs)%nat).
    { destruct cs as [|c cs']; [|simpl; lia].
      apply Permutation_length in Hperm. simpl in Hperm. lia. }
    rewrite decide_False by lia.
    destruct (Qdiv_inject_Z (Z.of_nat (length cs)) (Z.of_nat (length g)))
      as (H1 & _ & H2 & H3); [lia|].
    eexists. split; [done|]. split; [apply H1; lia|]. split; [apply H2; lia|].
    by rewrite H3, Nat2Z.inj_iff.
Qed.

Lemma commuting_probability_range_witness :
  ∃ q, Invariants.commuting_probability (λ _, [[1]; [2; 3]]) (Invariants.mk_Group [1; 2; 3])
       = Ok q
     ∧ Qlt 0 q ∧ Qle q 1
     ∧ (Qeq q 1 ↔ Forall (λ c : list Z, length c = 1%nat) [[1]; [2; 3]]).
Proof.
  apply (proj2 (commuting_probability_range (E := Z) (λ _, [[1]; [2; 3]])
                  (Invariants.mk_Group [1; 2; 3]))).
  - done.
  - by repeat constructor.
  - done.
Defined.

(** ** Finite abelian groups *)

(** X22: [finite_abelian_group_from_order_power_dict] raises [ValueError]
    for a representation other than the three names, before any group is
    built; with a valid representation it raises [TypeError] on the empty
    dict, returns [cyclic_group(N) ** k] for the single entry [{N: k}], and
    for more entries multiplies the factors from the left in the order of
    the dict. *)
Theorem finite_abelian_group_cases {G}
    (cyclic_group : Z → string → Result G)
    (group_pow : G → Z → Result G) (group_mul : G → G → Result G)
    (representation : string) :
  let build := FiniteAbelianGroups.finite_abelian_group_from_order_power_dict
                 cyclic_group group_pow group_mul in
  (representation ∉ ["symbolic"; "permutation"; "matrix"] →
   ∀ d, build d representation = Raise ValueError)
  ∧ (representation ∈ ["symbolic"; "permutation"; "matrix"] →
     build [] representation = Raise TypeError
     ∧ (∀ N k, build [(N, k)] representation
               = g ← cyclic_group N representation; group_pow g k)
     ∧ (∀ d factors,
          Forall2 (λ item f, (g ← cyclic_group item.1 representation; group_pow g item.2) = Ok f)
            d factors →
          build d representation = reduce group_mul factors)).
Proof.
  intros build. unfold build, FiniteAbelianGroups.finite_abelian_group_from_order_power_dict.
  split.
  - intros Hrep d. by rewrite decide_True.
  - intros Hrep. destruct (decide (representation ∉ _)) as [Hnot|_]; [done|].
    split; [done|]. split.
    + intros N k. unfold PyDict.items. simpl.
      destruct (cyclic_group N representation) as [g| |]; simpl; [|done..].
      by destruct (group_pow g k).
    + intros d factors Hall. unfold PyDict.items.
      assert (Hmap : mapM (λ item : Z * Z,
                g ← cyclic_group item.1 representation; group_pow g item.2) d
              = Ok factors).
      { induction Hall as [|item f d fs Hf _ IH]; [done|].
        cbn [mapM]. rewrite Hf. simpl. by rewrite IH. }
      by rewrite Hmap.
Qed.

Lemma finite_abelian_group_cases_witness :
  FiniteAbelianGroups.finite_abelian_group_from_order_power_dict
    (λ N _, Ok N) (λ g k, Ok (g ^ k)) (λ g h, Ok (g * h)) [] "matrix" = Raise TypeError
  ∧ (∀ N k, FiniteAbelianGroups.finite_abelian_group_from_order_power_dict
              (λ N _, Ok N) (λ g k, Ok (g ^ k)) (λ g h, Ok (g * h)) [(N, k)] "matrix"
            = g ← Ok N; Ok (g ^ k))
  ∧ (∀ d factors,
       Forall2 (λ (item : Z * Z) f, (g ← Ok item.1; Ok (g ^ item.2)) = Ok f) d factors →
       FiniteAbelianGroups.finite_abelian_group_from_order_power_dict
         (λ N _, Ok N) (λ g k, Ok (g ^ k)) (λ g h, Ok (g * h)) d "matrix"
       = reduce (λ g h, Ok (g * h)) factors).
Proof.
  apply (proj2 (finite_abelian_group_cases (G := Z)
                  (λ N _, Ok N) (λ g k, Ok (g ^ k)) (λ g h, Ok (g * h)) "matrix")).
  by refine (bool_decide_unpack _ _).
Defined.

(** ** Matrices *)

Lemma dot_cons (x y : Z) (u v : list Z) : dot (x :: u) (y :: v) = x * y + dot u v.
Proof. reflexivity. Qed.

Lemma dot_comm (u : list Z) : ∀ v, dot u v = dot v u.
Proof.
  induction u as [|x u IH]; intros [|y v]; try done.
  rewrite !dot_cons, IH. lia.
Qed.

(** The product with a unit vector picks one entry. *)
Lemma dot_unit (v : list Z) : ∀ (off i : Z),
  dot ((λ k, if decide (i = k) then 1 else 0) <$> seqZ off (Z.of_nat (length v))) v
  = if decide (off ≤ i < off + Z.of_nat (length v))
    then default 0 (v !! Z.to_nat (i - off)) else 0.
Proof.
  induction v as [|x v IH]; intros off i.
  - simpl. by case_decide.
  - cbn [length]. rewrite Nat2Z.inj_succ, seqZ_cons by lia.
    rewrite Z.pred_succ, fmap_cons, dot_cons, IH.
    destruct (decide (i = off)) as [->|Hne].
    + rewrite decide_False by lia. rewrite decide_True by lia.
      by rewrite Z.sub_diag, Z.mul_1_l, Z.add_0_r.
    + rewrite Z.mul_0_l, Z.add_0_l.
      destruct (decide (Z.succ off ≤ i < Z.succ off + Z.of_nat (length v))).
      * rewrite decide_True by lia.
        replace (Z.to_nat (i - off)) with (S (Z.to_nat (i - Z.succ off))) by lia. done.
      * by rewrite decide_False by lia.
Qed.

Lemma fmap_lookup_seq (row : list Z) :
  (λ j, default 0 (row !! j)) <$> seq 0 (length row) = row.
Proof.
  apply list_eq. intros i. rewrite list_lookup_fmap.
  destruct (decide (i < length row)%nat) as [Hi|Hi].
  - rewrite lookup_seq_lt by done. simpl.
    destruct (lookup_lt_is_Some_2 row i Hi) as [x Hx]. by rewrite Hx.
  - rewrite lookup_seq_ge by lia. by rewrite lookup_ge_None_2 by lia.
Qed.

Lemma eye_length (n : Z) : length (sympy_eye n) = Z.to_nat n.
Proof. unfold sympy_eye. by rewrite length_fmap, length_seqZ. Qed.

Lemma eye_column (n : Z) (j : nat) :
  (j < Z.to_nat n)%nat →
  sympy_column (sympy_eye n) j
  = (λ k, if decide (Z.of_nat j = k) then 1 else 0) <$> seqZ 0 n.
Proof.
  intros Hj. unfold sympy_column, sympy_eye. rewrite <-list_fmap_compose.
  apply list_fmap_ext. intros ? i Hi%list_elem_of_lookup_2%elem_of_seqZ. simpl.
  rewrite list_lookup_fmap, lookup_seqZ_lt by lia. simpl.
  rewrite Z.add_0_l. destruct (decide (i = Z.of_nat j)), (decide (Z.of_nat j = i)); done || lia.
Qed.

Lemma mod_rows (c : Z) (m : sympy_Matrix) (n : nat) :
  Forall (λ row, length row = n) m →
  Forall (λ row, length row = n) ((λ row : list Z, (λ x, x mod c) <$> row) <$> m).
Proof.
  intros H. apply Forall_fmap. eapply Forall_impl; [exact H|].
  intros row Hr. simpl. by rewrite length_fmap.
Qed.

Lemma mod_mod_rows (c : Z) (m : sympy_Matrix) :
  c ≠ 0 →
  (λ row : list Z, (λ x, x mod c) <$> row) <$> ((λ row : list Z, (λ x, x mod c) <$> row) <$> m)
  = (λ row : list Z, (λ x, x mod c) <$> row) <$> m.
Proof.
  intros Hc. rewrite <-list_fmap_compose. apply list_fmap_ext. intros ? row _. simpl.
  rewrite <-list_fmap_compose. apply list_fmap_ext. intros ? x _. simpl.
  by apply Z.mod_mod.
Qed.

Lemma mul_eye_r (a : sympy_Matrix) (n : nat) :
  (1 ≤ n)%nat → length a = n → Forall (λ row, length row = n) a →
  sympy_mul a (sympy_eye (Z.of_nat n)) = Ok a.
Proof.
  intros Hn Hlen Hrows. unfold sympy_mul, sympy_shape.
  assert (Hhead : length (default [] (head a)) = n).
  { destruct a as [|r a]; [simpl in Hlen; lia|]. by apply Forall_cons in Hrows as [? _]. }
  assert (Hhead' : length (default [] (head (sympy_eye (Z.of_nat n)))) = n).
  { unfold sympy_eye. destruct n as [|n]; [lia|].
    rewrite Nat2Z.inj_succ, seqZ_cons by lia. simpl.
    rewrite length_fmap, length_seqZ. lia. }
  cbn [fst snd]. rewrite eye_length, Hhead, Hhead', !Nat2Z.id.
  rewrite decide_True by done. f_equal.
  etrans; [|apply list_fmap_id]. apply Forall_fmap_ext.
  eapply Forall_impl; [exact Hrows|]. intros row Hr. simpl.
  etrans; [|apply fmap_lookup_seq]. rewrite Hr.
  apply list_fmap_ext. intros ? j Hj%list_elem_of_lookup_2%elem_of_seq.
  simpl in Hr. rewrite eye_column by (rewrite Nat2Z.id; lia). rewrite dot_comm.
  rewrite <-Hr at 1. rewrite dot_unit.
  rewrite decide_True by lia. by rewrite Z.sub_0_r, Nat2Z.id.
Qed.

Lemma mul_eye_l (a : sympy_Matrix) (n : nat) :
  (1 ≤ n)%nat → length a = n → Forall (λ row, length row = n) a →
  sympy_mul (sympy_eye (Z.of_nat n)) a = Ok a.
Proof.
  intros Hn Hlen Hrows. unfold sympy_mul, sympy_shape.
  assert (Hhead : length (default [] (head a)) = n).
  { destruct a as [|r a]; [simpl in Hlen; lia|]. by apply Forall_cons in Hrows as [? _]. }
  assert (Hhead' : length (default [] (head (sympy_eye (Z.of_nat n)))) = n).
  { unfold sympy_eye. destruct n as [|n]; [lia|].
    rewrite Nat2Z.inj_succ, seqZ_cons by lia. simpl.
    rewrite length_fmap, length_seqZ. lia. }
  cbn [fst snd]. rewrite Hhead, Hhead', Hlen, !Nat2Z.id.
  rewrite decide_True by done. f_equal.
  unfold sympy_eye. rewrite <-list_fmap_compose.
  apply list_eq. intros i. rewrite list_lookup_fmap.
  destruct (decide (i < n)%nat) as [Hi|Hi].
  - rewrite lookup_seqZ_lt by lia. simpl.
    destruct (lookup_lt_is_Some_2 a i ltac:(lia)) as [row Hrow]. rewrite Hrow. f_equal.
    assert (Hr : length row = n).
    { rewrite Forall_forall in Hrows. apply Hrows. by eapply list_elem_of_lookup_2. }
    etrans; [|apply fmap_lookup_seq]. rewrite Hr.
    apply list_fmap_ext. intros ? j Hj%list_elem_of_lookup_2%elem_of_seq.
    assert (Hcol : length (sympy_column a j) = n)
      by (unfold sympy_column; by rewrite length_fmap).
    rewrite <-Hcol at 1. rewrite dot_unit, decide_True by lia.
    unfold sympy_column. rewrite list_lookup_fmap.
    replace (Z.to_nat (0 + Z.of_nat i - 0)) with i by lia. by rewrite Hrow.
  - rewrite lookup_seqZ_ge by lia. by rewrite lookup_ge_None_2 by lia.
Qed.

(** X23: over a characteristic [c ≥ 2] the constructor keeps the shape of a
    square matrix and reduces its entries into [0, c); the matrix built from
    [sympy.eye(n)] passes [is_identity] and is neutral for [*] on both
    sides. *)
Theorem matrix_identity_neutral (m : sympy_Matrix) (n : nat) (c : Z) :
  2 ≤ c → (1 ≤ n)%nat → length m = n → Forall (λ row, length row = n) m →
  ∃ M I,
    Matrix.__init__ m (Some c) = Ok M
    ∧ Matrix.__init__ (sympy_eye (Z.of_nat n)) (Some c) = Ok I
    ∧ Matrix.dimension M = Z.of_nat n
    ∧ Forall (Forall (λ x, 0 ≤ x < c)) (Matrix.matrix M)
    ∧ Matrix.is_identity I = true
    ∧ Matrix.__mul__ M I = Ok M
    ∧ Matrix.__mul__ I M = Ok M.
Proof.
  intros Hc Hn Hlen Hrows.
  set (red := λ row : list Z, (λ x, x mod c) <$> row).
  assert (Heye : red <$> sympy_eye (Z.of_nat n) = sympy_eye (Z.of_nat n)).
  { unfold sympy_eye. rewrite <-list_fmap_compose. apply list_fmap_ext. intros ? i _.
    unfold red. simpl. rewrite <-list_fmap_compose. apply list_fmap_ext. intros ? j _.
    simpl. case_decide; [apply Z.mod_1_l; lia|apply Z.mod_0_l; lia]. }
  assert (Hlen' : length (red <$> m) = n) by by rewrite length_fmap.
  assert (Hrows' : Forall (λ row, length row = n) (red <$> m)) by by apply mod_rows.
  exists {| Matrix.matrix := red <$> m; Matrix.dimension := Z.of_nat n;
            Matrix.characteristic := c |},
         {| Matrix.matrix := sympy_eye (Z.of_nat n); Matrix.dimension := Z.of_nat n;
            Matrix.characteristic := c |}.
  assert (Hshape : (sympy_shape (red <$> m)).1 = Z.of_nat n)
    by (unfold sympy_shape; cbn [fst]; by rewrite Hlen').
  assert (Hshape' : (sympy_shape (sympy_eye (Z.of_nat n))).1 = Z.of_nat n)
    by (unfold sympy_shape; cbn [fst]; rewrite eye_length; lia).
  assert (Hinit : ∀ a, Matrix.__init__ a (Some c)
            = Ok {| Matrix.matrix := red <$> a;
                    Matrix.dimension := (sympy_shape (red <$> a)).1;
                    Matrix.characteristic := c |}).
  { intros a. unfold Matrix.__init__, sympy_mod. by rewrite decide_False by lia. }
  assert (Hred : ∀ a, red <$> (red <$> a) = red <$> a)
    by (intros a; apply mod_mod_rows; lia).
  unfold Matrix.__mul__. rewrite !Hinit, Heye, Hshape, Hshape'.
  cbn [Matrix.matrix Matrix.characteristic Matrix.dimension].
  split; [done|]. split; [done|]. split; [done|]. split; [|split; [|split]].
  - apply Forall_fmap, Forall_true. intros row. unfold red. simpl.
    apply Forall_fmap, Forall_true. intros x. simpl. apply Z.mod_pos_bound. lia.
  - unfold Matrix.is_identity. simpl. by apply bool_decide_eq_true.
  - rewrite (mul_eye_r _ n) by done. rewrite Ok_bind.
    unfold sympy_mod. rewrite decide_False by lia. rewrite Ok_bind. fold red.
    by rewrite Hinit, !Hred, Hshape.
  - rewrite (mul_eye_l _ n) by done. rewrite Ok_bind.
    unfold sympy_mod. rewrite decide_False by lia. rewrite Ok_bind. fold red.
    by rewrite Hinit, !Hred, Hshape.
Qed.

Lemma matrix_identity_neutral_witness :
  ∃ M I,
    Matrix.__init__ [[1; 3]; [5; 2]] (Some 3) = Ok M
    ∧ Matrix.__init__ (sympy_eye (Z.of_nat 2)) (Some 3) = Ok I
    ∧ Matrix.dimension M = Z.of_nat 2
    ∧ Forall (Forall (λ x, 0 ≤ x < 3)) (Matrix.matrix M)
    ∧ Matrix.is_identity I = true
    ∧ Matrix.__mul__ M I = Ok M
    ∧ Matrix.__mul__ I M = Ok M.
Proof.
  apply (matrix_identity_neutral [[1; 3]; [5; 2]] 2 3); [lia|lia|done|].
  by repeat constructor.
Defined.
